(** * Build summary tracker of the gulpfile: [trackFile] and [printJsSummary]

    A shallow embedding of the size tracker ([trackFile]) and of the summary
    table ([printJsSummary]) of [gulpfile.js], with the properties of the
    build-summary specification stated over it; then of the task
    configuration ([CONF], [mergeConf], the config tasks) and of the cache of
    combined files ([combinedJsFiles]), with further properties of the code.

    Conventions of the embedding.
    - A JavaScript number is an exact rational, or [NaN], or one of the two
      infinities, and the two zeros are identified. The arithmetic that
      fills the tracker and the totals is exact, as that of the program is
      on byte counts; a ratio is kept as the exact quotient, which stands
      for the binary64 number nearest to it, the one that the division of
      the program returns. The text of a percentage is computed from that
      number with the operations of binary64 ([binary64]).
    - A JavaScript array is a list of optional values, [None] being a hole;
      reading a hole or past the end gives [undefined], writing past the end
      extends the array with holes.
    - [trackedFiles] is the list of its own properties in the order in which
      [for ... in] enumerates them; names inherited from [Object.prototype]
      are outside the model.
    - What the engine does with a string in an arithmetic position, and the
      text that [pretty-bytes] produces, are parameters ([Runtime]). *)

From stdpp Require Import base list strings numbers pretty.
From Stdlib Require Import Ascii QArith Qcanon Qround Qabs Qpower Lqa.
From Stdlib Require Import Sorting.Sorted.

Local Open Scope Qc_scope.

(** ** Numbers *)

Inductive number :=
  | NaN
  | PInf
  | NInf
  | Fin (q : Qc).

Definition num_neg (a : number) : number :=
  match a with
  | NaN => NaN
  | PInf => NInf
  | NInf => PInf
  | Fin q => Fin (- q)
  end.

Definition num_add (a b : number) : number :=
  match a, b with
  | NaN, _ | _, NaN => NaN
  | PInf, NInf | NInf, PInf => NaN
  | PInf, _ | _, PInf => PInf
  | NInf, _ | _, NInf => NInf
  | Fin x, Fin y => Fin (x + y)
  end.

Definition num_sub (a b : number) : number := num_add a (num_neg b).

Definition num_mul (a b : number) : number :=
  match a, b with
  | NaN, _ | _, NaN => NaN
  | Fin x, Fin y => Fin (x * y)
  | Fin x, PInf | PInf, Fin x =>
      if bool_decide (x = 0) then NaN else if bool_decide (x < 0) then NInf else PInf
  | Fin x, NInf | NInf, Fin x =>
      if bool_decide (x = 0) then NaN else if bool_decide (x < 0) then PInf else NInf
  | PInf, PInf | NInf, NInf => PInf
  | PInf, NInf | NInf, PInf => NInf
  end.

Definition num_div (a b : number) : number :=
  match a, b with
  | NaN, _ | _, NaN => NaN
  | (PInf | NInf), (PInf | NInf) => NaN
  | PInf, Fin y => if bool_decide (y < 0) then NInf else PInf
  | NInf, Fin y => if bool_decide (y < 0) then PInf else NInf
  | Fin _, (PInf | NInf) => Fin 0
  | Fin x, Fin y =>
      if bool_decide (y = 0) then
        if bool_decide (x = 0) then NaN
        else if bool_decide (x < 0) then NInf else PInf
      else Fin (x / y)
  end.

Definition num_ltb (a b : number) : bool :=
  match a, b with
  | NaN, _ | _, NaN => false
  | _, NInf => false
  | PInf, _ => false
  | NInf, _ => true
  | Fin _, PInf => true
  | Fin x, Fin y => bool_decide (x < y)
  end.

Definition is_finite (a : number) : bool :=
  match a with Fin _ => true | _ => false end.

(** *** binary64

    The numbers of the language are those of binary64: a significand of 53
    bits, the last of them worth [2 ^ -1074] at least, and an infinity from
    [2 ^ 1024] on. An operation of the language returns the binary64 number
    nearest to the exact result, the one with the even significand of two. *)

(** [2 ^ e] *)
Definition pow2 (e : Z) : Qc :=
  if bool_decide (0 ≤ e)%Z then Qc_of_Z (2 ^ e) else / Qc_of_Z (2 ^ (- e)).

(** The integer nearest to [r], the even one of two. *)
Definition round_half_even (r : Qc) : Z :=
  let n := Qfloor r in
  let d := r - Qc_of_Z n in
  if bool_decide (d < Q2Qc (1 # 2)) then n
  else if bool_decide (Q2Qc (1 # 2) < d) then (n + 1)%Z
  else if Z.even n then n else (n + 1)%Z.

(** The [e] with [2 ^ e ≤ q < 2 ^ (e + 1)], for [0 < q]. *)
Definition exponent (q : Qc) : Z :=
  let e := (Z.log2 (Qnum q) - Z.log2 (Zpos (Qden q)))%Z in
  if bool_decide (pow2 e ≤ q) then e else (e - 1)%Z.

(** The binary64 number nearest to [q]. *)
Definition binary64 (q : Qc) : number :=
  if bool_decide (q = 0) then Fin 0
  else
    let a := if bool_decide (q < 0) then - q else q in
    let e := Z.max (exponent a - 52) (-1074) in
    let r := Qc_of_Z (round_half_even (a / pow2 e)) * pow2 e in
    if bool_decide (pow2 1024 ≤ r) then (if bool_decide (q < 0) then NInf else PInf)
    else Fin (if bool_decide (q < 0) then - r else r).

(** The number that the program holds where the model holds [a]: [a]
    itself when it is a number of binary64. *)
Definition fl (a : number) : number :=
  match a with
  | Fin q => binary64 q
  | _ => a
  end.

(** ** Values, and the engine's conversions *)

Inductive value :=
  | VUndef
  | VNum (n : number)
  | VStr (s : string).

Global Instance number_eq_dec : EqDecision number.
Proof. solve_decision. Defined.

Global Instance value_eq_dec : EqDecision value.
Proof. solve_decision. Defined.

(** ** Arrays, objects and records *)

Abbreviation array := (list (option value)).

(** A column mapping: its properties in enumeration order. *)
Abbreviation mapping := (list (string * string)).

(** [trackedFiles]: its properties in enumeration order. *)
Abbreviation tracked := (list (string * array)).

(** One of the three objects of [highLightRow]. *)
Abbreviation sections := (list (string * list nat)).

(** The switches of [CONF] that the summary reads, as the conditions see
    them. *)
Record config := CONF {
  JS_UGLIFY : bool;
  JS_SOURCEMAPS : bool;
  GZIP : bool;
  BROTLI : bool
}.

(** The object that [gulp-bytediff] hands to its [stop] callback, with the
    [all_percent] property that [trackFile] adds to it. *)
Record data := Data {
  fileName : string;
  startSize : number;
  endSize : number;
  savings : number;
  percent : number;
  all_percent : value
}.

Abbreviation call := (data * mapping)%type.

(** [StringToNumber] and [NumberToString] are the conversions of the
    language; [prettyBytes] is the [pretty-bytes] package, [None] when it
    throws its [TypeError]. *)
Class Runtime := {
  StringToNumber : string -> number;
  NumberToString : number -> string;
  prettyBytes : value -> option string
}.

Section Engine.
Context {rt : Runtime}.

Definition ToNumber (v : value) : number :=
  match v with
  | VUndef => NaN
  | VNum n => n
  | VStr s => StringToNumber s
  end.

Definition ToString (v : value) : string :=
  match v with
  | VUndef => "undefined"
  | VNum n => NumberToString n
  | VStr s => s
  end.

Definition ToBoolean (v : value) : bool :=
  match v with
  | VUndef => false
  | VNum NaN => false
  | VNum (Fin q) => negb (bool_decide (q = 0))
  | VNum _ => true
  | VStr s => negb (bool_decide (s = EmptyString))
  end.

(** [a + b] *)
Definition js_add (a b : value) : value :=
  match a, b with
  | VStr _, _ | _, VStr _ => VStr (ToString a +:+ ToString b)
  | _, _ => VNum (num_add (ToNumber a) (ToNumber b))
  end.

(** [a - b], [a * b], [a / b] *)
Definition js_sub (a b : value) : number := num_sub (ToNumber a) (ToNumber b).
Definition js_mul (a b : value) : number := num_mul (ToNumber a) (ToNumber b).
Definition js_div (a b : value) : number := num_div (ToNumber a) (ToNumber b).

(** [a < c] for a number [c] *)
Definition js_lt (a : value) (c : number) : bool := num_ltb (ToNumber a) c.

(** [a === c] for a number [c] *)
Definition js_strict_eq (a : value) (c : number) : bool :=
  match a, c with
  | VNum NaN, _ | _, NaN => false
  | VNum n, _ => bool_decide (n = c)
  | _, _ => false
  end.

(** [a || b] *)
Definition js_or (a b : value) : value := if ToBoolean a then a else b.

(** ** Arrays *)

Definition arr_get (a : array) (i : nat) : value :=
  match a !! i with
  | Some (Some v) => v
  | _ => VUndef
  end.

Definition arr_set (i : nat) (v : value) (a : array) : array :=
  if decide (i < length a)%nat then <[i := Some v]> a
  else a ++ replicate (i - length a) None ++ [Some v].

Definition unshift (v : value) (a : array) : array := Some v :: a.

(** ** Strings: [split], [pop], [join], [includes] *)

Fixpoint split (sep : ascii) (s : string) : list string :=
  match s with
  | EmptyString => [EmptyString]
  | String c s' =>
      if Ascii.eqb c sep then EmptyString :: split sep s'
      else match split sep s' with
           | [] => [String c EmptyString]
           | p :: ps => String c p :: ps
           end
  end.

Fixpoint join (sep : string) (parts : list string) : string :=
  match parts with
  | [] => EmptyString
  | [p] => p
  | p :: ps => p +:+ sep +:+ join sep ps
  end.

(** [parts.pop()]: the last element and the array without it *)
Definition pop (parts : list string) : string * list string :=
  (List.last parts EmptyString, removelast parts).

Definition includes (l : list string) (s : string) : bool :=
  bool_decide (s ∈ l).

(** ** Settings *)

Definition trackTable_cols : list string :=
  [ "file"; "src"; "src_percent"; "uglify"; "gzipFile"; "gzip_percent";
    "gzip"; "brotliFile"; "brotli_percent"; "brotli"; "all_percent";
    "mapFile"; "map" ].

Definition gZipOptions_extension : string := "gz".
Definition brotliOptions_extension : string := "br".

Definition compressionExt : list string :=
  [gZipOptions_extension; brotliOptions_extension].


(** ** The tracker *)


(** [data[field]] *)
Definition data_get (d : data) (field : string) : value :=
  if bool_decide (field = "fileName") then VStr (fileName d)
  else if bool_decide (field = "startSize") then VNum (startSize d)
  else if bool_decide (field = "endSize") then VNum (endSize d)
  else if bool_decide (field = "savings") then VNum (savings d)
  else if bool_decide (field = "percent") then VNum (percent d)
  else if bool_decide (field = "all_percent") then all_percent d
  else VUndef.

Definition set_all_percent (v : value) (d : data) : data :=
  Data (fileName d) (startSize d) (endSize d) (savings d) (percent d) v.

(** [mapping[col] = field] *)
Fixpoint mapping_set (col field : string) (m : mapping) : mapping :=
  match m with
  | [] => [(col, field)]
  | (c, f) :: m' =>
      if bool_decide (c = col) then (c, field) :: m'
      else (c, f) :: mapping_set col field m'
  end.

(** The index of the first column called [col]. *)
Fixpoint index_of (col : string) (cols : list string) : option nat :=
  match cols with
  | [] => None
  | c :: cols' =>
      if bool_decide (c = col) then Some 0%nat
      else S <$> index_of col cols'
  end.

(** One turn of the loop over the mapping: [fileData[i - 1] = data[mapping[col]]]
    for the index [i] of [col] in the column list. For [i = 0] the
    assignment sets the property ["-1"], which is no element of the array. *)
Definition write_col (d : data) (fileData : array) (entry : string * string) : array :=
  match index_of entry.1 trackTable_cols with
  | Some (S j) => arr_set j (data_get d entry.2) fileData
  | _ => fileData
  end.

(** *** [trackedFiles] *)

(** A property name that is an array index is enumerated before the other
    names, in numeric order. *)
Definition digit_of (c : ascii) : option N :=
  let n := N_of_ascii c in
  if bool_decide (48 <= n < 58)%N then Some (n - 48)%N else None.

Fixpoint digits_value (s : string) (acc : N) : option N :=
  match s with
  | EmptyString => Some acc
  | String c s' =>
      match digit_of c with
      | Some d => digits_value s' (10 * acc + d)%N
      | None => None
      end
  end.

Definition array_index (s : string) : option N :=
  match s with
  | EmptyString => None
  | String c s' =>
      if bool_decide (c = "0"%char) && negb (bool_decide (s' = EmptyString)) then None
      else
        match digits_value s 0%N with
        | Some n => if bool_decide (n < 4294967295)%N then Some n else None
        | None => None
        end
  end.

(** The property names of [Object.prototype], which [trackedFiles] inherits.
    For one of them that [trackedFiles] does not have itself,
    [trackedFiles[k]] is the inherited member and no array. *)
Definition Object_prototype : list string :=
  [ "constructor"; "__defineGetter__"; "__defineSetter__"; "hasOwnProperty";
    "__lookupGetter__"; "__lookupSetter__"; "isPrototypeOf";
    "propertyIsEnumerable"; "toString"; "valueOf"; "__proto__";
    "toLocaleString" ].

(** [o[k]], for a name [k] that is none of [Object_prototype]: the property
    of that name that [o] has itself. *)
Fixpoint obj_get (o : tracked) (k : string) : option array :=
  match o with
  | [] => None
  | (k', a) :: o' => if bool_decide (k' = k) then Some a else obj_get o' k
  end.

Fixpoint obj_update (k : string) (a : array) (o : tracked) : tracked :=
  match o with
  | [] => []
  | (k', a') :: o' =>
      if bool_decide (k' = k) then (k', a) :: o' else (k', a') :: obj_update k a o'
  end.

Fixpoint obj_add_index (n : N) (k : string) (a : array) (o : tracked) : tracked :=
  match o with
  | [] => [(k, a)]
  | (k', a') :: o' =>
      match array_index k' with
      | Some n' =>
          if bool_decide (n' < n)%N then (k', a') :: obj_add_index n k a o'
          else (k, a) :: o
      | None => (k, a) :: o
      end
  end.

(** [o[k] = a] *)
Definition obj_set (k : string) (a : array) (o : tracked) : tracked :=
  match obj_get o k with
  | Some _ => obj_update k a o
  | None =>
      match array_index k with
      | Some n => obj_add_index n k a o
      | None => o ++ [(k, a)]
      end
  end.

(** *** [trackFile] *)

(** The two values that [trackFile] computes from the file name. *)
Definition fileExt_of (fileName : string) : string :=
  (pop (split "." fileName)).1.

Definition srcFileName_of (fileName : string) : string :=
  let '(fileExt, fileNameParts) := pop (split "." fileName) in
  if includes (compressionExt ++ ["map"]) fileExt
  then join "." fileNameParts
  else fileName.

Definition gzip_stage_mapping : mapping :=
  [("gzipFile", "fileName"); ("gzip_percent", "percent");
   ("gzip", "endSize"); ("all_percent", "all_percent")].

Definition brotli_stage_mapping : mapping :=
  [("brotliFile", "fileName"); ("brotli_percent", "percent");
   ("brotli", "endSize"); ("all_percent", "all_percent")].

Definition map_stage_mapping : mapping :=
  [("mapFile", "fileName"); ("map", "endSize")].

(** The [switch] on the extension: the data object and the mapping that the
    loop below uses. *)
Definition stage_of (fileExt : string) (fileData : array) (d : data) (m : mapping)
  : data * mapping :=
  if bool_decide (fileExt = "js") then
    (d, mapping_set "all_percent" "percent" m)
  else if bool_decide (fileExt = "map") then
    (d, map_stage_mapping)
  else if bool_decide (fileExt = gZipOptions_extension) then
    (set_all_percent (VNum (js_div (VNum (endSize d)) (arr_get fileData 0))) d,
     gzip_stage_mapping)
  else if bool_decide (fileExt = brotliOptions_extension) then
    (set_all_percent (VNum (js_div (VNum (endSize d)) (arr_get fileData 0))) d,
     brotli_stage_mapping)
  else (d, m).

(** [trackFile], for a file name whose key is none of [Object_prototype]:
    the record is then the array that [trackedFiles] has for the key, or a
    new one. For a key of [Object_prototype] that [trackedFiles] lacks, the
    code takes the inherited member as the record; what it writes to it are
    the slots below, but the record is no array, and the next summary throws
    at [rowData.unshift]. *)
Definition trackFile (d : data) (m : mapping) (trackedFiles : tracked) : tracked :=
  let fileExt := fileExt_of (fileName d) in
  let srcFileName := srcFileName_of (fileName d) in
  let fileData := default [] (obj_get trackedFiles srcFileName) in
  let '(d', m') := stage_of fileExt fileData d m in
  let fileData' := foldl (write_col d') fileData m' in
  obj_set srcFileName fileData' trackedFiles.

(** *** The calls of the build tasks *)

(** The mapping of [task:concatJS], [task:diffJS] and [task:sass]. *)
Definition primary_mapping : mapping :=
  [("src", "startSize"); ("src_percent", "percent"); ("uglify", "endSize")].

(** The mapping of [task:gzipAssets]. *)
Definition gzipAssets_mapping : mapping :=
  [("gzipFile", "fileName"); ("gzip", "endSize")].

(** The mapping of [task:brotliAssets]. *)
Definition brotliAssets_mapping : mapping :=
  [("brotliFile", "fileName"); ("brotli", "endSize")].

(** A build pass: the calls of [trackFile] in the order made. *)
Definition trackFiles (calls : list call) (trackedFiles : tracked) : tracked :=
  foldl (fun tf c => trackFile c.1 c.2 tf) trackedFiles calls.

(** *** Reading the tracker *)

(** The element at index [i], if the array has one there. *)
Definition cell (a : array) (i : nat) : option value :=
  match a !! i with
  | Some (Some v) => Some v
  | _ => None
  end.

Definition record_of (trackedFiles : tracked) (key : string) : array :=
  default [] (obj_get trackedFiles key).

(** The value that the record of [key] holds for the column [col]. *)
Definition field (trackedFiles : tracked) (key col : string) : value :=
  match index_of col trackTable_cols with
  | Some (S j) => arr_get (record_of trackedFiles key) j
  | _ => VUndef
  end.

(** ** The summary table *)

(** *** Effects of the callbacks

    The callbacks of [sumCols] and [formatCols] update a variable of the
    enclosing function ([sumRow], [highLightRow]) and may throw. *)

Inductive result (A : Type) :=
  | Ok (a : A)
  | TypeError.
Global Arguments Ok {A} a.
Global Arguments TypeError {A}.

Definition M (St A : Type) : Type := St -> result (A * St).

Global Instance M_ret {St} : MRet (M St) := fun A a s => Ok (a, s).

Global Instance M_bind {St} : MBind (M St) := fun A B k m s =>
  match m s with
  | Ok (a, s') => k a s'
  | TypeError => TypeError
  end.

Definition modify {St} (f : St -> St) : M St unit := fun s => Ok (tt, f s).

Definition throw {St A} : M St A := fun _ => TypeError.

(** [x.map((y, i) => f(y, i))] from index [i] on: the callback is not called
    on a hole, and the hole is kept. *)
Fixpoint map_from {St} (f : value -> nat -> M St value) (i : nat) (x : array)
  : M St array :=
  match x with
  | [] => mret []
  | None :: x' =>
      ys ← map_from f (S i) x';
      mret (None :: ys)
  | Some y :: x' =>
      y' ← f y i;
      ys ← map_from f (S i) x';
      mret (Some y' :: ys)
  end.

(** [arr.map((x, rowIdx) => g(x, rowIdx))] over the rows, from [rowIdx] on *)
Fixpoint rows_from {St} (g : array -> nat -> M St array) (rowIdx : nat)
    (arr : list array) : M St (list array) :=
  match arr with
  | [] => mret []
  | x :: arr' =>
      x' ← g x rowIdx;
      xs ← rows_from g (S rowIdx) arr';
      mret (x' :: xs)
  end.

(** *** Columns *)

Definition tableHead : list string := trackTable_cols.
Definition byteCols : list nat := [1; 3; 6; 9; 12]%nat.
Definition percentCols : list nat := [2; 5; 8; 10]%nat.
Definition numFormatCols : list nat := byteCols ++ percentCols.

Definition includes_nat (l : list nat) (i : nat) : bool := bool_decide (i ∈ l).

Definition sortCol (conf : config) : nat :=
  if BROTLI conf || GZIP conf || JS_UGLIFY conf then 10%nat
  else if JS_SOURCEMAPS conf then 3%nat else 1%nat.

Definition refAllCol (conf : config) : nat :=
  if BROTLI conf then 9%nat
  else if GZIP conf then 6%nat
  else if JS_UGLIFY conf then 3%nat
  else if JS_SOURCEMAPS conf then 3%nat else 1%nat.

(** *** Header: [label.replace(/^(.*?)_(percent?).*/i, '$1 %')]

    The labels are the column names, which hold no line terminator. *)

Definition lower (c : ascii) : ascii :=
  let n := N_of_ascii c in
  if bool_decide (65 <= n <= 90)%N then ascii_of_N (n + 32) else c.

Fixpoint prefix_ci (p s : string) : bool :=
  match p, s with
  | EmptyString, _ => true
  | String a p', String b s' => Ascii.eqb (lower a) (lower b) && prefix_ci p' s'
  | String _ _, EmptyString => false
  end.

(** The text before the first ["_percen"], if there is one. *)
Fixpoint before_percent (label : string) : option string :=
  if prefix_ci "_percen" label then Some EmptyString
  else match label with
       | EmptyString => None
       | String c rest => String c <$> before_percent rest
       end.

Definition head_label (label : string) : string :=
  match before_percent label with
  | Some p => p +:+ " %"
  | None => label
  end.

(** *** Rows: [for (let fileName in trackedFiles)] with [rowData.unshift] *)

Definition tableData_of (trackedFiles : tracked) : list array :=
  map (fun entry => unshift (VStr entry.1) entry.2) trackedFiles.

(** The object [trackedFiles] after the loop: [unshift] works in place. *)
Definition unshifted (trackedFiles : tracked) : tracked :=
  map (fun entry => (entry.1, unshift (VStr entry.1) entry.2)) trackedFiles.

(** *** [tableData.sort((a, b) => a[sortCol] - b[sortCol])]

    [Array.prototype.sort] is stable, and a comparison that is not a number
    counts as zero. For every comparator that is a consistent ordering a
    stable sort has one result, the one computed here; for the others the
    language leaves the order to the engine, and the model keeps insertion
    from the right. *)

Definition compareFn (col : nat) (a b : array) : number :=
  js_sub (arr_get a col) (arr_get b col).

Fixpoint sort_insert (cmp : array -> array -> number) (x : array)
    (l : list array) : list array :=
  match l with
  | [] => [x]
  | y :: l' =>
      if num_ltb (Fin 0) (cmp x y) then y :: sort_insert cmp x l'
      else x :: l
  end.

Definition sort (cmp : array -> array -> number) (l : list array) : list array :=
  foldr (sort_insert cmp) [] l.

(** *** [sumCols] *)

Definition sumCols_cell (y : value) (i : nat) : M array value :=
  _ ← (if includes_nat byteCols i
       then modify (fun sumRow =>
              arr_set i (if ToBoolean (arr_get sumRow i)
                         then js_add (arr_get sumRow i) y else y) sumRow)
       else mret tt);
  mret y.

Definition sumCols (arr : list array) : M array (list array) :=
  rows_from (fun x rowIdx => map_from sumCols_cell 0 x) 0 arr.

(** *** Footer *)

Definition footer (conf : config) (sumRow : array) : array :=
  let sumRow := arr_set 2 (VNum (js_div (arr_get sumRow 3) (arr_get sumRow 1))) sumRow in
  let sumRow := arr_set 5 (VNum (js_div (js_or (arr_get sumRow 6) (VNum (Fin 0)))
                                        (arr_get sumRow 3))) sumRow in
  let sumRow := arr_set 8 (VNum (js_div (js_or (arr_get sumRow 9) (VNum (Fin 0)))
                                        (arr_get sumRow 3))) sumRow in
  arr_set 10 (VNum (js_div (js_or (arr_get sumRow (refAllCol conf)) (VNum (Fin 0)))
                           (arr_get sumRow 1))) sumRow.

(** *** [Number.prototype.toFixed] *)

Definition pow10 (f : nat) : Qc := Qc_of_Z (10 ^ Z.of_nat f).

(** The integer nearest to [r], the larger one of two. *)
Definition round_half_up (r : Qc) : N := Z.to_N (Qfloor (this r + (1 # 2))%Q).

Fixpoint zeros (k : nat) : string :=
  match k with
  | O => EmptyString
  | S k' => String "0" (zeros k')
  end.

(** The decimal digits of [n] with a point before the last [f] of them. *)
Definition fixed_digits (f : nat) (n : N) : string :=
  let m := pretty n in
  if decide (f = 0)%nat then m
  else
    let m := if decide (String.length m <= f)%nat
             then zeros (f + 1 - String.length m) +:+ m else m in
    let k := String.length m in
    String.substring 0 (k - f) m +:+ "." +:+ String.substring (k - f) f m.

Definition magnitude (q : Qc) : Qc := if bool_decide (q < 0) then - q else q.

Definition toFixed (f : nat) (x : number) : string :=
  match x with
  | NaN => "NaN"
  | PInf => "Infinity"
  | NInf => "-Infinity"
  | Fin q =>
      let s := if bool_decide (q < 0) then "-" else EmptyString in
      let m := if bool_decide (pow10 21 ≤ magnitude q)
               then NumberToString (Fin (magnitude q))
               else fixed_digits f (round_half_up (magnitude q * pow10 f)) in
      s +:+ m
  end.

(** *** [formatCols] *)

Inductive tier := success | warning | danger.

Definition highLightSections : sections :=
  [("src_percent", []); ("gzip_percent", []); ("brotli_percent", []);
   ("all_percent", [])].

Record highLight := HighLight {
  in_success : sections;
  in_warning : sections;
  in_danger : sections
}.

Definition highLightRow_init : highLight :=
  HighLight highLightSections highLightSections highLightSections.

(** [sections[name].push(rowIdx)] *)
Definition section_push (name : string) (rowIdx : nat) (s : sections) : sections :=
  map (fun e => if bool_decide (e.1 = name) then (e.1, e.2 ++ [rowIdx]) else e) s.

Definition highLight_push (t : tier) (name : string) (rowIdx : nat)
    (h : highLight) : highLight :=
  match t with
  | success => HighLight (section_push name rowIdx (in_success h)) (in_warning h) (in_danger h)
  | warning => HighLight (in_success h) (section_push name rowIdx (in_warning h)) (in_danger h)
  | danger => HighLight (in_success h) (in_warning h) (section_push name rowIdx (in_danger h))
  end.

(** The branch that the percentage cell [y] of column [i] takes. *)
Definition classify (conf : config) (i : nat) (y : value) : tier :=
  let isSuccess :=
    js_strict_eq y (Fin 1) && negb (JS_UGLIFY conf)
    && bool_decide (tableHead !! i = Some "src_percent") in
  if js_lt y (Fin (Q2Qc (3 # 10))) || isSuccess then success
  else if js_lt y (Fin (Q2Qc (1 # 2))) then warning
  else danger.

(** The value that the program holds in a cell where the model holds [y]. *)
Definition held (y : value) : value :=
  match y with
  | VNum n => VNum (fl n)
  | _ => y
  end.

(** [y ? (100 * (1 - y)).toFixed(1) + '%' : ''], on the binary64 number of
    the cell: the difference and the product are those of binary64, and
    [toFixed] shows the product that they give. *)
Definition percent_text (y : value) : string :=
  if ToBoolean (held y)
  then toFixed 1 (fl (num_mul (Fin (Qc_of_Z 100))
                              (fl (num_sub (Fin 1) (fl (ToNumber y)))))) +:+ "%"
  else EmptyString.

Definition formatCols_cell (conf : config) (rowIdx : nat) (y : value) (i : nat)
  : M highLight value :=
  if includes_nat byteCols i then
    match prettyBytes y with
    | Some text => mret (VStr text)
    | None => throw
    end
  else if includes_nat percentCols i then
    _ ← modify (highLight_push (classify conf i y) (default EmptyString (tableHead !! i)) rowIdx);
    mret (VStr (percent_text y))
  else mret y.

Definition formatCols (conf : config) (arr : list array) : M highLight (list array) :=
  rows_from (fun x rowIdx => map_from (formatCols_cell conf rowIdx) 0 x) 0 arr.

(** *** The table

    The part of the [terminal-table] interface that the summary uses: the
    rows pushed, the attribute calls in the order made, and the removal of a
    column from every row. *)

Inductive style :=
  | color (c : string)
  | align_right.

Inductive table_attr :=
  | attr (row col : nat) (s : style)
  | attrRange (row column : list nat) (s : style).

Record Table := mkTable {
  cells : list array;
  attrs : list table_attr
}.

Definition table_push (row : array) (t : Table) : Table :=
  mkTable (cells t ++ [row]) (attrs t).

Definition table_attr_add (a : table_attr) (t : Table) : Table :=
  mkTable (cells t) (attrs t ++ [a]).

Definition removeColumn (n : nat) (t : Table) : Table :=
  mkTable (map (delete n) (cells t)) (attrs t).

(** The loop over [highLightRow]. *)
Definition tier_color (t : tier) : string :=
  match t with
  | success => "green"
  | warning => "yellow"
  | danger => "red"
  end.

Definition section_columns (highLightSection : string) : list nat :=
  if bool_decide (highLightSection = "src_percent") then [0; 4]%nat
  else if bool_decide (highLightSection = "gzip_percent") then [4; 7]%nat
  else if bool_decide (highLightSection = "brotli_percent") then [7; 10]%nat
  else if bool_decide (highLightSection = "all_percent") then [10; 11]%nat
  else [0; 1]%nat.

Definition highLight_attrs (t : tier) (s : sections) : list table_attr :=
  flat_map (fun e =>
    map (fun rowIdx =>
           attrRange [rowIdx + 1; rowIdx + 2]%nat (section_columns e.1)
                     (color (tier_color t)))
        e.2) s.

Definition removeColumns (conf : config) (t : Table) : Table :=
  if negb (JS_SOURCEMAPS conf) then
    let t := removeColumn 11 (removeColumn 12 t) in
    if negb (BROTLI conf) && negb (GZIP conf) then
      let t := removeColumn 10 t in
      let t := removeColumn 7 (removeColumn 8 (removeColumn 9 t)) in
      let t := removeColumn 4 (removeColumn 5 (removeColumn 6 t)) in
      if negb (JS_UGLIFY conf) then removeColumn 2 (removeColumn 3 t)
      else t
    else t
  else t.

(** *** [printJsSummary] *)

(** What a call leaves behind: the table given to [console.log] (or the
    exception), the object that [trackedFiles] held on entry as the call
    leaves it, and the object that [trackedFiles] holds on return. *)
Record printed := mkPrinted {
  console : result Table;
  drained : tracked;
  trackedFiles_after : tracked
}.

Definition header_row : array :=
  map (fun label => Some (VStr (head_label label))) tableHead.

(** [sumCols] from the empty [sumRow], then the footer. *)
Definition totals (conf : config) (tableData : list array)
  : result (list array * array) :=
  match sumCols tableData [] with
  | TypeError => TypeError
  | Ok (tableData, sumRow) => Ok (tableData, footer conf sumRow)
  end.

(** The rows of the table body and the highlights, before any column is
    removed: the sorted rows and the footer row, formatted. *)
Definition body (conf : config) (trackedFiles : tracked)
  : result (list array * highLight) :=
  let tableData := sort (compareFn (sortCol conf)) (tableData_of trackedFiles) in
  match totals conf tableData with
  | TypeError => TypeError
  | Ok (tableData, sumRow) =>
      formatCols conf (tableData ++ [sumRow]) highLightRow_init
  end.

Definition printJsSummary (conf : config) (trackedFiles : tracked) : printed :=
  let table := mkTable [] [] in
  let table := table_push header_row table in
  let table := table_attr_add (attr 0 (sortCol conf) (color "cyan")) table in
  match body conf trackedFiles with
  | TypeError =>
      mkPrinted TypeError (unshifted trackedFiles) (unshifted trackedFiles)
  | Ok (tableData, highLightRow) =>
      let table := foldl (fun t row => table_push row t) table tableData in
      let table :=
        foldl (fun t c => table_attr_add (attrRange [0%nat] [c; c + 1]%nat align_right) t)
              table numFormatCols in
      let table :=
        foldl (fun t a => table_attr_add a t) table
              (highLight_attrs success (in_success highLightRow)
               ++ highLight_attrs warning (in_warning highLightRow)
               ++ highLight_attrs danger (in_danger highLightRow)) in
      let table := removeColumns conf table in
      mkPrinted (Ok table) (unshifted trackedFiles) []
  end.

End Engine.

(** ** Concrete passes *)

(** The object that [gulp-bytediff] builds for a file of [startSize] bytes
    that a stage turned into [endSize] bytes. *)
Definition bytediff (fileName : string) (startSize endSize : Z) : data :=
  let s := Fin (Qc_of_Z startSize) in
  let e := Fin (Qc_of_Z endSize) in
  Data fileName s e (num_sub s e) (num_div e s) VUndef.

(** A runtime on which the model runs. Every string converts to [NaN], as
    a string that spells no number does; the passes below bring no other
    string to an arithmetic operator, and no number to a concatenation.
    [prettyBytes] throws on what is no finite number, as [pretty-bytes]
    does, and its text for a finite number is the count of bytes. *)
Definition bytes_text (v : value) : option string :=
  match v with
  | VNum (Fin q) => Some (pretty (Z.to_N (Qfloor (this q))) +:+ " B")
  | _ => None
  end.

Definition sizes_runtime : Runtime :=
  {| StringToNumber := fun _ => NaN;
     NumberToString := fun _ => EmptyString;
     prettyBytes := bytes_text |}.

(** A production pass over one script: minified, then gzipped. *)
Definition pass_app : list call :=
  [(bytediff "app.js" 1000 400, primary_mapping);
   (bytediff "app.js.gz" 400 150, gzipAssets_mapping)].

(** The same with the source map written between the two. *)
Definition pass_app_map : list call :=
  [(bytediff "app.js" 1000 400, primary_mapping);
   (bytediff "app.js.map" 0 300, primary_mapping);
   (bytediff "app.js.gz" 400 150, gzipAssets_mapping)].


Definition production : config := CONF true true true true.
Definition develop : config := CONF false false false false.
Definition sourcemaps_only : config := CONF false true false false.

(** ** Vocabulary of the statements *)

Section Vocabulary.
Context {rt : Runtime}.

(** The index of the column called [name]. *)
Definition col (name : string) : nat := default 0%nat (index_of name tableHead).

(** The savings percentage of a ratio: [(1 - y) * 100]. *)
Definition savings_percent (y : Qc) : Qc := Qc_of_Z 100 * (1 - y).

(** The savings percentage that the program computes for the ratio of a
    cell: the difference, then the product, each the binary64 number nearest
    to the exact one. *)
Definition savings_binary64 (y : number) : number :=
  fl (num_mul (Fin (Qc_of_Z 100)) (fl (num_sub (Fin 1) (fl y)))).

(** The number in column [col] of a row that holds a finite one there. *)
Definition sort_key (col : nat) (row : array) : Qc :=
  match arr_get row col with
  | VNum (Fin q) => q
  | _ => 0
  end.

Definition has_key (col : nat) (row : array) : Prop :=
  ∃ q, arr_get row col = VNum (Fin q).

(** [sumRow[i] ? sumRow[i] + y : y] *)
Definition accumulate (old y : value) : value :=
  if ToBoolean old then js_add old y else y.

Definition finite_cell (c : option value) : option Qc :=
  match c with
  | Some (VNum (Fin q)) => Some q
  | _ => None
  end.

(** The numbers that the rows hold in column [i]. *)
Definition column (i : nat) (rows : list array) : list Qc :=
  omap (λ r : array, finite_cell (cell r i)) rows.

Definition sum_list (qs : list Qc) : Qc := foldr Qcplus 0 qs.

(** The sum of column [i]; nothing when no row has the column. *)
Definition column_total (i : nat) (rows : list array) : option value :=
  match column i rows with
  | [] => None
  | qs => Some (VNum (Fin (sum_list qs)))
  end.


(** Every byte cell that a row has is a finite number. *)
Definition bytes_ok (rows : list array) : Prop :=
  Forall (λ r : array, ∀ i v, i ∈ byteCols → cell r i = Some v →
                        ∃ q, v = VNum (Fin q)) rows.

Definition add_to (o : option Qc) (q : Qc) : option Qc := Some (default 0 o + q).

(** Every record has at most twelve slots, as the records that [trackFile]
    builds have. *)
Definition slots_ok (tf : tracked) : Prop :=
  Forall (λ e : string * array, (length e.2 ≤ 12)%nat) tf.

(** The number of columns that the summary keeps. *)
Definition width (conf : config) : nat :=
  if JS_SOURCEMAPS conf then 13%nat
  else if BROTLI conf || GZIP conf then 11%nat
  else if JS_UGLIFY conf then 4%nat
  else 2%nat.

(** The attribute calls of a summary, in the order made. *)
Definition summary_attrs (conf : config) (highLightRow : highLight) : list table_attr :=
  attr 0 (sortCol conf) (color "cyan")
  :: map (λ c, attrRange [0%nat] [c; c + 1]%nat align_right) numFormatCols
  ++ highLight_attrs success (in_success highLightRow)
  ++ highLight_attrs warning (in_warning highLightRow)
  ++ highLight_attrs danger (in_danger highLightRow).

(** The footer row of a pass without files, formatted. *)
Definition blank_totals : array :=
  [None; None; Some (VStr EmptyString); None; None; Some (VStr EmptyString); None; None;
   Some (VStr EmptyString); None; Some (VStr EmptyString)].

End Vocabulary.

(** ** The task configuration: [CONF], [mergeConf] and the config tasks *)

(** A value of a configuration object. An object is the list of its own
    properties in enumeration order; arrays and functions are outside the
    model. Of what an object inherits from [Object.prototype] the model has
    the method [hasOwnProperty], the one that the code calls
    ([own_property]). A string is the sequence of its code units. *)
#[warnings="-register-all"]
Inductive conf_value :=
  | CUndef
  | CNull
  | CBool (b : bool)
  | CNum (n : number)
  | CStr (s : string)
  | CObj (own : list (string * conf_value)).

(** The own properties of an object. *)
Abbreviation props := (list (string * conf_value)).

Global Instance result_ret : MRet result := fun A a => Ok a.

Global Instance result_bind : MBind result := fun A B k m =>
  match m with
  | Ok a => k a
  | TypeError => TypeError
  end.

Global Instance result_fmap : FMap result := fun A B f m =>
  match m with
  | Ok a => Ok (f a)
  | TypeError => TypeError
  end.

(** [typeof v === 'object'] *)
Definition is_object (v : conf_value) : bool :=
  match v with
  | CNull | CObj _ => true
  | _ => false
  end.

(** [typeof v === 'undefined'] *)
Definition is_undefined (v : conf_value) : bool :=
  match v with
  | CUndef => true
  | _ => false
  end.

(** [v ? a : b] *)
Definition truthy (v : conf_value) : bool :=
  match v with
  | CUndef | CNull => false
  | CBool b => b
  | CNum NaN => false
  | CNum (Fin q) => negb (bool_decide (q = 0))
  | CNum _ => true
  | CStr s => negb (bool_decide (s = EmptyString))
  | CObj _ => true
  end.

(** [v === 'true'] *)
Definition is_true_text (v : conf_value) : bool :=
  match v with
  | CStr s => bool_decide (s = "true")
  | _ => false
  end.

(** The own property [k] of an object. *)
Fixpoint prop_get (o : props) (k : string) : option conf_value :=
  match o with
  | [] => None
  | (k', v) :: o' => if bool_decide (k' = k) then Some v else prop_get o' k
  end.

(** The own properties of a string: its length and its code units. *)
Definition string_own (s k : string) : option conf_value :=
  if bool_decide (k = "length")
  then Some (CNum (Fin (Qc_of_Z (Z.of_nat (String.length s)))))
  else match array_index k with
       | Some n => (fun c => CStr (String c EmptyString)) <$> String.get (N.to_nat n) s
       | None => None
       end.

(** Whether an object has a property of its own called [hasOwnProperty]:
    it hides the method of [Object.prototype]. *)
Definition hides_hasOwnProperty (own : props) : bool :=
  match prop_get own "hasOwnProperty" with
  | Some _ => true
  | None => false
  end.

(** [o.hasOwnProperty(k)], with the value [o[k]] of a property that [o] has.
    The call throws on [undefined] and [null], and on an object that has a
    property of its own called [hasOwnProperty]: no value of a configuration
    is a function, and what is no function cannot be called. *)
Definition own_property (o : conf_value) (k : string) : result (option conf_value) :=
  match o with
  | CUndef | CNull => TypeError
  | CBool _ | CNum _ => Ok None
  | CStr s => Ok (string_own s k)
  | CObj own => if hides_hasOwnProperty own then TypeError else Ok (prop_get own k)
  end.

(** [o.name], for a name that the prototypes do not have: the read throws
    on [undefined] and [null]. *)
Definition prop_read (o : conf_value) (name : string) : result conf_value :=
  match o with
  | CUndef | CNull => TypeError
  | CBool _ | CNum _ => Ok CUndef
  | CStr s => Ok (default CUndef (string_own s name))
  | CObj own => Ok (default CUndef (prop_get own name))
  end.

(** [mergeConf] returns [confUser], which its loop has updated in place: the
    result is the value that [confUser] has on return. The loop changes the
    values of the properties of [confUser] and not their names, so that
    [confUser.hasOwnProperty(confKey)] is in every turn what it is for the
    object of the first turn. The loop has no turn for a [confUser] without
    enumerable properties; the turns for the code units of a string, whose
    [hasOwnProperty] is the method of the prototype, write nothing, and
    throw as the others do when the call on [confDefault] throws. *)
Fixpoint mergeConf (confUser confDefault : conf_value) {struct confUser}
  : result conf_value :=
  match confUser with
  | CObj own =>
      CObj <$>
      (fix each (ps : props) : result props :=
         match ps with
         | [] => Ok []
         | (confKey, v) :: ps' =>
             u ← own_property confUser confKey;
             v' ← match u with
                  | None => Ok v
                  | Some _ =>
                      d ← own_property confDefault confKey;
                      match d with
                      | None => Ok v
                      | Some dv =>
                          if is_object v && is_object dv then mergeConf v dv
                          else if is_undefined v then Ok dv
                          else Ok v
                      end
                  end;
             ps'' ← each ps';
             Ok ((confKey, v') :: ps'')
         end) own
  | CStr s =>
      if bool_decide (s = EmptyString) then Ok confUser
      else _ ← own_property confDefault "0"; Ok confUser
  | _ => Ok confUser
  end.

(** What [minimist] returns: the array [_] of the arguments that are no
    options, and the other properties. *)
Record argv := Argv {
  underscore : option (list conf_value);
  named : props
}.

(** [options.hasOwnProperty(name) ? options[name] === 'true' : undefined] *)
Definition option_switch (options : argv) (name : string) : conf_value :=
  match prop_get (named options) name with
  | Some v => CBool (is_true_text v)
  | None => CUndef
  end.

(** The object that [CONF] holds when the tasks start, for [options] on
    which [options.hasOwnProperty] can be called ([CONF_init]); [tagVersion]
    is the version read from the configuration file. *)
Definition CONF_of (options : argv) (tagVersion : conf_value) : props :=
  [ ("TASK", match underscore options with
             | Some args => default CUndef (head args)
             | None => CUndef
             end);
    ("TAG", let tag := default CUndef (prop_get (named options) "tag") in
            if truthy tag then tag
            else if truthy tagVersion then tagVersion else CUndef);
    ("JS", CObj [ ("UGLIFY", option_switch options "jsUglify");
                  ("SOURCEMAPS", option_switch options "jsSourcemaps") ]);
    ("CSS", CObj [ ("SOURCEMAPS", option_switch options "cssSourcemaps") ]);
    ("GZIP", option_switch options "gzip");
    ("BROTLI", option_switch options "brotli");
    ("DEBUG", CBool false) ].

(** The initialisation of [CONF]. Its first step is the call
    [options.hasOwnProperty('_')], and every switch makes such a call: they
    throw when [options] has a property of its own called [hasOwnProperty],
    which hides the method. *)
Definition CONF_init (options : argv) (tagVersion : conf_value) : result props :=
  if hides_hasOwnProperty (named options) then TypeError
  else Ok (CONF_of options tagVersion).

Definition CONF_DEVELOP : props :=
  [ ("JS", CObj [ ("UGLIFY", CBool false); ("SOURCEMAPS", CBool false) ]);
    ("CSS", CObj [ ("SOURCEMAPS", CBool false) ]);
    ("GZIP", CBool false);
    ("BROTLI", CBool false) ].

Definition CONF_PRODUCTION : props :=
  [ ("JS", CObj [ ("UGLIFY", CBool true); ("SOURCEMAPS", CBool true) ]);
    ("CSS", CObj [ ("SOURCEMAPS", CBool true) ]);
    ("GZIP", CBool true);
    ("BROTLI", CBool true) ].

(** The first step of [task:configDevelop] and of [task:configProduction]:
    the object that [CONF] holds after it. *)
Definition configDevelop (conf : conf_value) : result conf_value :=
  mergeConf conf (CObj CONF_DEVELOP).

Definition configProduction (conf : conf_value) : result conf_value :=
  mergeConf conf (CObj CONF_PRODUCTION).

(** [task:checkConfig]: whether the task prints the error and exits. *)
Definition checkConfig (conf : conf_value) : result bool :=
  tag ← prop_read conf "TAG";
  Ok (negb (truthy tag)).

(** The switches of [conf] that [printJsSummary] reads, as its conditions
    see them. *)
Definition switches (conf : conf_value) : result config :=
  brotli ← prop_read conf "BROTLI";
  gzip ← prop_read conf "GZIP";
  js ← prop_read conf "JS";
  uglify ← prop_read js "UGLIFY";
  sourcemaps ← prop_read js "SOURCEMAPS";
  Ok (CONF (truthy uglify) (truthy sourcemaps) (truthy gzip) (truthy brotli)).

(** ** The cache of combined files *)

(** [set.add(x)], on the elements of a [Set] in insertion order. *)
Definition Set_add (set : list string) (x : string) : list string :=
  if bool_decide (x ∈ set) then set else set ++ [x].

(** [[...new Set(a)]]: the elements of [a] in the order of their first
    occurrence. *)
Definition spread_new_Set (a : list string) : list string := foldl Set_add [] a.

(** The callback [onModuleBundleComplete] of [task:concatJS]: the array that
    [combinedJsFiles] holds after it. *)
Definition onModuleBundleComplete (included : list string)
    (combinedJsFiles : list string) : list string :=
  spread_new_Set (combinedJsFiles ++ included).

(** [a.indexOf(x)] *)
Definition indexOf (a : list string) (x : string) : Z :=
  match index_of x a with
  | Some i => Z.of_nat i
  | None => -1
  end.

(** The filter of [task:diffJS] on a file of path [path]; [slash] is the
    package of that name. *)
Definition diffJS_filter (slash : string -> string) (combinedJsFiles : list string)
    (path : string) : bool :=
  bool_decide (indexOf combinedJsFiles (slash path) < 0)%Z.

(** ** Vocabulary of the further properties *)

Global Instance tier_eq_dec : EqDecision tier.
Proof. solve_decision. Defined.

Section FurtherVocabulary.
Context {rt : Runtime}.

(** The slot of a record that the loop of [trackFile] writes for the column
    [col] of a mapping: none for a name that is no column, and none for
    [file]. *)
Definition slot_of (col : string) : option nat :=
  match index_of col trackTable_cols with
  | Some (S j) => Some j
  | _ => None
  end.

(** The value that the loop over [m] leaves in slot [j], when it writes the
    slot: that of the last property of [m] for it. *)
Fixpoint written (d : data) (m : mapping) (j : nat) : option value :=
  match m with
  | [] => None
  | entry :: m' =>
      match written d m' j with
      | Some v => Some v
      | None =>
          if bool_decide (slot_of entry.1 = Some j) then Some (data_get d entry.2)
          else None
      end
  end.

(** One more than the last slot that the loop over [m] writes. *)
Fixpoint reach (m : mapping) : nat :=
  match m with
  | [] => 0%nat
  | entry :: m' =>
      (match slot_of entry.1 with Some j => S j | None => 0%nat end) `max` reach m'
  end.

(** What [formatCols] puts in column [i] for the value [y]; nothing when
    [pretty-bytes] throws. *)
Definition shown (conf : config) (i : nat) (y : value) : option value :=
  if includes_nat byteCols i then VStr <$> prettyBytes y
  else if includes_nat percentCols i then Some (VStr (percent_text y))
  else Some y.






(** One turn of the loop of [mergeConf]: the value of [confUser[confKey]]
    after it, for the value [v] before it. *)
Definition merge_turn (confUser confDefault : conf_value) (confKey : string)
    (v : conf_value) : result conf_value :=
  u ← own_property confUser confKey;
  match u with
  | None => Ok v
  | Some _ =>
      d ← own_property confDefault confKey;
      match d with
      | None => Ok v
      | Some dv =>
          if is_object v && is_object dv then mergeConf v dv
          else if is_undefined v then Ok dv
          else Ok v
      end
  end.

(** The loop of [mergeConf] over the properties [ps] of [confUser]. *)
Fixpoint merge_turns (confUser confDefault : conf_value) (ps : props) : result props :=
  match ps with
  | [] => Ok []
  | (confKey, v) :: ps' =>
      v' ← merge_turn confUser confDefault confKey v;
      ps'' ← merge_turns confUser confDefault ps';
      Ok ((confKey, v') :: ps'')
  end.

(** The switch that the option [name] of the command line asks for, [preset]
    when the command line does not have the option. *)
Definition switch_of (options : argv) (name : string) (preset : bool) : bool :=
  match prop_get (named options) name with
  | Some v => is_true_text v
  | None => preset
  end.

(** No [null] in a value. *)
Fixpoint null_free (v : conf_value) : bool :=
  match v with
  | CNull => false
  | CObj own => forallb (fun e => null_free e.2) own
  | _ => true
  end.

(** No object of a value has a property of its own called
    [hasOwnProperty]. *)
Fixpoint plain (v : conf_value) : bool :=
  match v with
  | CObj own => negb (hides_hasOwnProperty own) && forallb (fun e => plain e.2) own
  | _ => true
  end.

(** The names of the properties of every object of a value are distinct, as
    those of an object are. *)
Fixpoint distinct_keys (v : conf_value) : Prop :=
  match v with
  | CObj own =>
      NoDup own.*1
      ∧ (fix all (ps : props) : Prop :=
           match ps with
           | [] => True
           | e :: ps' => distinct_keys e.2 ∧ all ps'
           end) own
  | _ => True
  end.

(** A mapping that writes sizes to the size columns: a column shown in bytes
    gets [startSize] or [endSize]. *)
Definition sizes_to_size_columns (m : mapping) : Prop :=
  ∀ entry j, entry ∈ m → slot_of entry.1 = Some j → S j ∈ byteCols →
             entry.2 = "startSize" ∨ entry.2 = "endSize".

(** A call of the build tasks: its mapping is one of theirs, and the two
    sizes that [gulp-bytediff] measured are finite numbers. *)
Definition task_call (c : call) : Prop :=
  is_finite (startSize c.1) = true ∧ is_finite (endSize c.1) = true
  ∧ c.2 ∈ [primary_mapping; gzipAssets_mapping; brotliAssets_mapping].

(** The key of the call is a name that [trackedFiles] does not inherit: the
    record of the call is an array. *)
Definition own_key (c : call) : Prop :=
  srcFileName_of (fileName c.1) ∉ Object_prototype.

(** Every size slot that a record has holds a finite number. *)
Definition sizes_ok (tf : tracked) : Prop :=
  Forall (λ e : string * array,
            ∀ j v, S j ∈ byteCols → cell e.2 j = Some v → ∃ q, v = VNum (Fin q)) tf.

(** [combinedJsFiles] after the bundles of a run, in the order completed. *)
Definition bundled (bundles : list (list string)) : list string :=
  foldl (fun cache included => onModuleBundleComplete included cache) [] bundles.

End FurtherVocabulary.

(** * Facts about the model *)

(** Equality of values that hold rationals, by their canonical forms. *)
Ltac values_eq :=
  lazymatch goal with
  | |- @eq Qc _ _ => apply Qc_is_canon; reflexivity
  | |- _ = _ => first [reflexivity | f_equal; values_eq]
  end.

(** ** Arrays *)
Section ArrayFacts.

Lemma cell_arr_set_eq i v (a : array) : cell (arr_set i v a) i = Some v.
Proof.
  unfold cell, arr_set. case_decide as Hi.
  - by rewrite list_lookup_insert_eq.
  - rewrite lookup_app_r by lia.
    rewrite lookup_app_r by (rewrite length_replicate; lia).
    rewrite length_replicate.
    by replace (i - length a - (i - length a))%nat with 0%nat by lia.
Qed.

Lemma cell_arr_set_ne i j v (a : array) :
  i ≠ j → cell (arr_set i v a) j = cell a j.
Proof.
  intros Hij. unfold cell, arr_set. case_decide as Hi.
  - by rewrite list_lookup_insert_ne.
  - destruct (decide (j < length a)%nat) as [Hj|Hj].
    + by rewrite lookup_app_l.
    + rewrite lookup_app_r by lia.
      rewrite (lookup_ge_None_2 a j) by lia.
      destruct (decide (j - length a < i - length a)%nat) as [Hlt|Hge].
      * rewrite lookup_app_l by (rewrite length_replicate; lia).
        rewrite lookup_replicate_2 by lia. done.
      * rewrite lookup_app_r by (rewrite length_replicate; lia).
        rewrite length_replicate.
        destruct (j - length a - (i - length a))%nat as [|n] eqn:E; [lia|].
        done.
Qed.

Lemma arr_get_cell (a : array) i : arr_get a i = default VUndef (cell a i).
Proof. unfold arr_get, cell. by destruct (a !! i) as [[?|]|]. Qed.

Lemma arr_get_set_eq i v (a : array) : arr_get (arr_set i v a) i = v.
Proof. by rewrite arr_get_cell, cell_arr_set_eq. Qed.

Lemma arr_get_set_ne i j v (a : array) :
  i ≠ j → arr_get (arr_set i v a) j = arr_get a j.
Proof. intros. by rewrite !arr_get_cell, cell_arr_set_ne. Qed.

End ArrayFacts.

(** ** [trackedFiles] *)
Section ObjectFacts.

Lemma obj_get_update_eq k a (o : tracked) :
  is_Some (obj_get o k) → obj_get (obj_update k a o) k = Some a.
Proof.
  induction o as [|[k' a'] o IH]; simpl.
  - by intros [? ?].
  - case_bool_decide as Hk; simpl.
    + by rewrite bool_decide_true.
    + rewrite bool_decide_false by done. done.
Qed.

Lemma obj_get_update_ne k k' a (o : tracked) :
  k ≠ k' → obj_get (obj_update k a o) k' = obj_get o k'.
Proof.
  intros Hne. induction o as [|[k0 a0] o IH]; simpl; [done|].
  case_bool_decide as Hk; simpl.
  - subst k0. by rewrite !bool_decide_false.
  - by rewrite IH.
Qed.

Lemma obj_get_add_index n k k' a (o : tracked) :
  obj_get o k = None →
  obj_get (obj_add_index n k a o) k'
  = if bool_decide (k = k') then Some a else obj_get o k'.
Proof.
  induction o as [|[k0 a0] o IH]; simpl; [done|].
  destruct (bool_decide_reflect (k0 = k)) as [Hk0|Hk0]; [done|]. intros Hnone.
  destruct (array_index k0) as [n'|]; [destruct (bool_decide (n' < n)%N)|]; simpl.
  - rewrite IH by done. repeat case_bool_decide; congruence.
  - repeat case_bool_decide; congruence.
  - repeat case_bool_decide; congruence.
Qed.

Lemma obj_get_app k (o1 o2 : tracked) :
  obj_get (o1 ++ o2) k
  = match obj_get o1 k with Some a => Some a | None => obj_get o2 k end.
Proof.
  induction o1 as [|[k0 a0] o1 IH]; simpl; [done|].
  by case_bool_decide.
Qed.

Lemma obj_get_set_eq k a (o : tracked) : obj_get (obj_set k a o) k = Some a.
Proof.
  unfold obj_set. destruct (obj_get o k) as [a'|] eqn:E.
  - apply obj_get_update_eq. by rewrite E.
  - destruct (array_index k) as [n|].
    + rewrite obj_get_add_index by done. by rewrite bool_decide_true.
    + rewrite obj_get_app, E. simpl. by rewrite bool_decide_true.
Qed.

Lemma obj_get_set_ne k k' a (o : tracked) :
  k ≠ k' → obj_get (obj_set k a o) k' = obj_get o k'.
Proof.
  intros Hne. unfold obj_set. destruct (obj_get o k) as [a'|] eqn:E.
  - by apply obj_get_update_ne.
  - destruct (array_index k) as [n|].
    + rewrite obj_get_add_index by done. by rewrite bool_decide_false.
    + rewrite obj_get_app. destruct (obj_get o k'); [done|].
      simpl. by rewrite bool_decide_false.
Qed.

End ObjectFacts.

(** ** Strings *)
Section StringFacts.

Lemma string_app_cons x (a b : string) : String x a +:+ b = String x (a +:+ b).
Proof. reflexivity. Qed.

Lemma string_app_assoc (a b c : string) : (a +:+ b) +:+ c = a +:+ (b +:+ c).
Proof. induction a as [|x a IH]; [done|]. by rewrite !string_app_cons, IH. Qed.

Lemma string_length_app (a b : string) :
  String.length (a +:+ b) = (String.length a + String.length b)%nat.
Proof. induction a as [|x a IH]; [done|]. rewrite string_app_cons. simpl. by rewrite IH. Qed.

Lemma split_nonempty sep s : split sep s ≠ [].
Proof. destruct s as [|c s]; simpl; [done|]. destruct (Ascii.eqb c sep); [done|]. by destruct (split sep s). Qed.

Lemma split_app sep (a b : string) :
  split sep (a +:+ String sep b) = split sep a ++ split sep b.
Proof.
  induction a as [|c a IH]; simpl.
  - by rewrite Ascii.eqb_refl.
  - destruct (Ascii.eqb c sep); [by rewrite IH|].
    rewrite IH. pose proof (split_nonempty sep a).
    by destruct (split sep a).
Qed.

Lemma join_split sep s : join (String sep EmptyString) (split sep s) = s.
Proof.
  induction s as [|c s IH]; simpl; [done|].
  destruct (Ascii.eqb c sep) eqn:Ec.
  - apply Ascii.eqb_eq in Ec. subst.
    pose proof (split_nonempty sep s).
    destruct (split sep s) as [|p ps] eqn:E; [done|].
    by rewrite <-IH.
  - pose proof (split_nonempty sep s).
    destruct (split sep s) as [|p ps] eqn:E; [done|].
    rewrite <-IH. simpl. by destruct ps.
Qed.

Lemma join_snoc sep (parts : list string) e :
  parts ≠ [] → join sep (parts ++ [e]) = join sep parts +:+ sep +:+ e.
Proof.
  induction parts as [|p ps IH]; [done|]. intros _.
  destruct ps as [|p' ps]; [done|].
  change (join sep ((p :: p' :: ps) ++ [e])) with (p +:+ sep +:+ join sep ((p' :: ps) ++ [e])).
  rewrite IH by done.
  change (join sep (p :: p' :: ps)) with (p +:+ sep +:+ join sep (p' :: ps)).
  by rewrite !string_app_assoc.
Qed.

Lemma pop_snoc (parts : list string) e : pop (parts ++ [e]) = (e, parts).
Proof. unfold pop. by rewrite last_last, removelast_last. Qed.

Lemma pop_split sep s :
  ∃ parts e, split sep s = parts ++ [e] ∧ pop (split sep s) = (e, parts).
Proof.
  pose proof (split_nonempty sep s) as Hne.
  destruct (split sep s) as [|p ps] using rev_ind; [done|].
  eexists _, _. split; [done|]. apply pop_snoc.
Qed.

End StringFacts.

(** ** [trackFile] *)
Section TrackerFacts.
Context {rt : Runtime}.

Lemma known_ext_iff ext :
  ext ∈ compressionExt ++ ["map"] ↔ ext = "gz" ∨ ext = "br" ∨ ext = "map".
Proof.
  unfold compressionExt, gZipOptions_extension, brotliOptions_extension.
  cbn [app]. rewrite !elem_of_cons, elem_of_nil. tauto.
Qed.

Lemma compressionExt_iff ext : ext ∈ compressionExt ↔ ext = "gz" ∨ ext = "br".
Proof.
  unfold compressionExt, gZipOptions_extension, brotliOptions_extension.
  rewrite !elem_of_cons, elem_of_nil. tauto.
Qed.

Lemma index_of_Some col (cols : list string) i :
  index_of col cols = Some i → cols !! i = Some col.
Proof.
  revert i. induction cols as [|c cols IH]; intros i; simpl; [done|].
  case_bool_decide as Hc.
  - intros [= <-]. by subst.
  - destruct (index_of col cols) as [j|]; simpl; [|done].
    intros [= <-]. by apply IH.
Qed.

Lemma mapping_set_keys col f (m : mapping) c :
  c ∈ (mapping_set col f m).*1 → c = col ∨ c ∈ m.*1.
Proof.
  induction m as [|[c0 f0] m IH]; simpl.
  - intros ->%list_elem_of_singleton. by left.
  - case_bool_decide as Hc; simpl.
    + subst. rewrite !elem_of_cons. tauto.
    + rewrite !elem_of_cons. intros [->|H]; [tauto|]. apply IH in H. tauto.
Qed.

(** The loop over the mapping leaves alone the slots that no column of the
    mapping names. *)
Lemma write_cols_cell_ne d (m : mapping) (fd : array) j :
  (∀ col, col ∈ m.*1 → index_of col trackTable_cols ≠ Some (S j)) →
  cell (foldl (write_col d) fd m) j = cell fd j.
Proof.
  revert fd. induction m as [|[col f] m IH]; intros fd Hno; [done|].
  change (foldl (write_col d) fd ((col, f) :: m))
    with (foldl (write_col d) (write_col d fd (col, f)) m).
  rewrite IH.
  - unfold write_col. cbn [fst snd].
    destruct (index_of col trackTable_cols) as [[|i]|] eqn:E; try done.
    apply cell_arr_set_ne. intros ->. apply (Hno col); [|done].
    rewrite fmap_cons. apply elem_of_cons. by left.
  - intros c Hc. apply Hno. rewrite fmap_cons. apply elem_of_cons. by right.
Qed.

Lemma src_is_column_1 col :
  index_of col trackTable_cols = Some 1%nat → col = "src".
Proof. intros H%index_of_Some. by injection H. Qed.

Lemma trackFile_record d m (tf : tracked) :
  record_of (trackFile d m tf) (srcFileName_of (fileName d))
  = foldl (write_col (stage_of (fileExt_of (fileName d))
                               (record_of tf (srcFileName_of (fileName d))) d m).1)
          (record_of tf (srcFileName_of (fileName d)))
          (stage_of (fileExt_of (fileName d))
                    (record_of tf (srcFileName_of (fileName d))) d m).2.
Proof.
  unfold trackFile, record_of.
  destruct (stage_of _ _ d m) as [d' m'] eqn:E. simpl.
  by rewrite obj_get_set_eq.
Qed.

Lemma trackFile_record_ne d m (tf : tracked) k :
  k ≠ srcFileName_of (fileName d) →
  record_of (trackFile d m tf) k = record_of tf k.
Proof.
  intros Hk. unfold trackFile, record_of.
  destruct (stage_of _ _ d m) as [d' m'] eqn:E.
  by rewrite obj_get_set_ne.
Qed.

(** Only a call outside the compression and map stages whose mapping names
    [src] writes the source size of its key. *)
Lemma stage_of_keeps_src ext fd d (m : mapping) :
  (ext ∉ compressionExt ++ ["map"] → "src" ∉ m.*1) →
  "src" ∉ (stage_of ext fd d m).2.*1.
Proof.
  intros Hm. unfold stage_of, gZipOptions_extension, brotliOptions_extension.
  destruct (bool_decide_reflect (ext = "js")) as [->|Hjs].
  { intros [?| H]%mapping_set_keys; [done|]. revert H. apply Hm. compute_done. }
  destruct (bool_decide_reflect (ext = "map")) as [->|Hmap]; [compute_done|].
  destruct (bool_decide_reflect (ext = "gz")) as [->|Hgz]; [compute_done|].
  destruct (bool_decide_reflect (ext = "br")) as [->|Hbr]; [compute_done|].
  apply Hm. rewrite known_ext_iff. tauto.
Qed.

Lemma trackFile_keeps_src d m (tf : tracked) k :
  (srcFileName_of (fileName d) = k →
   fileExt_of (fileName d) ∉ compressionExt ++ ["map"] → "src" ∉ m.*1) →
  cell (record_of (trackFile d m tf) k) 0 = cell (record_of tf k) 0.
Proof.
  intros Hm. destruct (decide (k = srcFileName_of (fileName d))) as [->|Hk].
  - rewrite trackFile_record. apply write_cols_cell_ne.
    intros col Hcol Hidx. apply src_is_column_1 in Hidx. subst col.
    revert Hcol. apply stage_of_keeps_src. by apply Hm.
  - by rewrite trackFile_record_ne.
Qed.

Lemma trackFiles_keeps_src (calls : list call) (tf : tracked) k :
  Forall (λ c : call, srcFileName_of (fileName c.1) = k →
            fileExt_of (fileName c.1) ∉ compressionExt ++ ["map"] → "src" ∉ c.2.*1) calls →
  cell (record_of (trackFiles calls tf) k) 0 = cell (record_of tf k) 0.
Proof.
  revert tf. induction calls as [|c calls IH]; intros tf Hall; [done|].
  inversion_clear Hall as [|? ? Hc Hrest]. simpl.
  unfold trackFiles in *. simpl. rewrite IH by done.
  by apply trackFile_keeps_src.
Qed.

(** A primary call records its start size as the source size. *)
Lemma trackFile_primary_src d (tf : tracked) :
  fileExt_of (fileName d) ∉ compressionExt ++ ["map"] →
  cell (record_of (trackFile d primary_mapping tf) (fileName d)) 0
  = Some (VNum (startSize d)).
Proof.
  intros Hext.
  assert (srcFileName_of (fileName d) = fileName d) as Hkey.
  { unfold srcFileName_of, fileExt_of in *.
    destruct (pop (split "." (fileName d))) as [ext parts]. simpl in Hext.
    unfold includes. by rewrite bool_decide_false. }
  rewrite <-Hkey at 1. rewrite trackFile_record. rewrite Hkey.
  unfold stage_of.
  assert (fileExt_of (fileName d) ≠ "map" ∧ fileExt_of (fileName d) ≠ "gz"
          ∧ fileExt_of (fileName d) ≠ "br") as (Hm & Hg & Hb).
  { rewrite known_ext_iff in Hext. tauto. }
  unfold gZipOptions_extension, brotliOptions_extension.
  case_bool_decide; [|rewrite !bool_decide_false by done]; simpl;
    unfold write_col; simpl;
    rewrite ?cell_arr_set_ne by done; apply cell_arr_set_eq.
Qed.

(** A compression call stores its end size over the recorded source size. *)
Lemma trackFile_compression_all_percent d m (tf : tracked) :
  fileExt_of (fileName d) ∈ compressionExt →
  field (trackFile d m tf) (srcFileName_of (fileName d)) "all_percent"
  = VNum (js_div (VNum (endSize d))
                 (arr_get (record_of tf (srcFileName_of (fileName d))) 0)).
Proof.
  intros Hext. unfold field. simpl. rewrite trackFile_record.
  unfold stage_of.
  apply compressionExt_iff in Hext.
  unfold gZipOptions_extension, brotliOptions_extension.
  destruct Hext as [-> | ->]; simpl;
    unfold write_col; simpl; by rewrite arr_get_set_eq.
Qed.


End TrackerFacts.

(** ** The key of a file name *)
Section KeyFacts.

Lemma srcFileName_of_known (a e : string) :
  e ∈ compressionExt ++ ["map"] →
  fileExt_of (a +:+ "." +:+ e) = e ∧ srcFileName_of (a +:+ "." +:+ e) = a.
Proof.
  intros He. unfold fileExt_of, srcFileName_of.
  change ("." +:+ e) with (String "." e). rewrite split_app.
  assert (split "." e = [e]) as ->.
  { apply known_ext_iff in He. by destruct He as [->|[->| ->]]. }
  rewrite pop_snoc. simpl. unfold includes. rewrite bool_decide_true by done.
  split; [done|]. apply join_split.
Qed.

Lemma srcFileName_of_unknown (f : string) :
  fileExt_of f ∉ compressionExt ++ ["map"] → srcFileName_of f = f.
Proof.
  unfold fileExt_of, srcFileName_of.
  destruct (pop (split "." f)) as [ext parts]. simpl. intros Hext.
  unfold includes. by rewrite bool_decide_false.
Qed.

(** A name whose last segment is [e] is [e] itself or ends in ["." ++ e]. *)
Lemma fileExt_of_inv (f : string) :
  f = fileExt_of f ∨ ∃ a, f = a +:+ "." +:+ fileExt_of f.
Proof.
  unfold fileExt_of. destruct (pop_split "." f) as (parts & e & Hs & ->). simpl.
  pose proof (join_split "." f) as Hj. rewrite Hs in Hj.
  destruct parts as [|p parts].
  - left. by rewrite <-Hj.
  - right. exists (join "." (p :: parts)). by rewrite <-Hj, join_snoc.
Qed.

End KeyFacts.

(** ** [toFixed] *)
Section Digits.

Lemma substring_app_l (a b : string) :
  String.substring 0 (String.length a) (a +:+ b) = a.
Proof.
  induction a as [|x a IH]; [by destruct b|].
  rewrite string_app_cons. simpl. by rewrite IH.
Qed.

Lemma substring_all (b : string) : String.substring 0 (String.length b) b = b.
Proof. induction b as [|y b IHb]; simpl; [done|]. by rewrite IHb. Qed.

Lemma substring_app_r (a b : string) :
  String.substring (String.length a) (String.length b) (a +:+ b) = b.
Proof.
  induction a as [|x a IH]; [|by rewrite string_app_cons].
  apply substring_all.
Qed.

Lemma pretty_N_digit (d : N) :
  (d < 10)%N → pretty d = String (pretty_N_char d) EmptyString.
Proof.
  intros Hd.
  assert (d ∈ [0; 1; 2; 3; 4; 5; 6; 7; 8; 9]%N) as Hin.
  { rewrite !elem_of_cons. lia. }
  rewrite !elem_of_cons, elem_of_nil in Hin.
  by destruct Hin as [->|[->|[->|[->|[->|[->|[->|[->|[->|[->|[]]]]]]]]]]].
Qed.

Lemma pretty_N_go_app (x : N) (s : string) :
  pretty_N_go x s = pretty_N_go x EmptyString +:+ s.
Proof.
  revert s. induction (N.lt_wf_0 x) as [x _ IH]; intros s.
  destruct (decide (x = 0)%N) as [->|Hx].
  - by rewrite !pretty_N_go_0.
  - rewrite (pretty_N_go_step x s), (pretty_N_go_step x EmptyString) by lia.
    assert (x `div` 10 < x)%N as Hlt by (apply N.div_lt; lia).
    rewrite (IH _ Hlt (String _ s)), (IH _ Hlt (String _ EmptyString)).
    by rewrite string_app_assoc.
Qed.

Lemma pretty_N_ge_10 (n : N) :
  (10 ≤ n)%N →
  pretty n = pretty (n `div` 10)%N +:+ String (pretty_N_char (n `mod` 10)) EmptyString.
Proof.
  intros Hn. unfold pretty at 1 2, pretty_N.
  assert (0 < n `div` 10)%N as Hdiv by (apply N.div_str_pos; lia).
  rewrite !decide_False by lia.
  rewrite pretty_N_go_step by lia. apply pretty_N_go_app.
Qed.

Lemma fixed_digits_1 (n : N) :
  fixed_digits 1 n = pretty (n `div` 10)%N +:+ "." +:+ pretty (n `mod` 10)%N.
Proof.
  unfold fixed_digits. rewrite decide_False by done.
  rewrite (pretty_N_digit (n `mod` 10)) by (apply N.mod_lt; lia).
  destruct (decide (n < 10)%N) as [Hlt|Hge].
  - rewrite N.div_small, N.mod_small by done.
    rewrite (pretty_N_digit n) by done. reflexivity.
  - rewrite pretty_N_ge_10 by lia.
    set (p := pretty (n `div` 10)%N). set (c := String _ EmptyString).
    assert (String.length p ≠ 0)%nat as Hp.
    { unfold p. generalize (n `div` 10)%N as k. intros k.
      unfold pretty, pretty_N. case_decide; [done|].
      rewrite pretty_N_go_step by lia. rewrite pretty_N_go_app, string_length_app.
      simpl. lia. }
    assert (String.length c = 1%nat) as Hc by done.
    rewrite decide_False by (rewrite string_length_app, Hc; lia).
    rewrite string_length_app, Hc.
    replace (String.length p + 1 - 1)%nat with (String.length p) by lia.
    rewrite substring_app_l. rewrite <-Hc.
    by rewrite (substring_app_r p c).
Qed.

End Digits.

Section Rounding.

Lemma Qfloor_unique (r : Q) (n : Z) :
  (inject_Z n <= r)%Q → (r < inject_Z (n + 1))%Q → Qfloor r = n.
Proof.
  intros Hle Hlt.
  assert (n <= Qfloor r)%Z as H1.
  { rewrite <-(Qfloor_Z n). by apply Qfloor_resp_le. }
  assert (Qfloor r < n + 1)%Z as H2.
  { rewrite Zlt_Qlt. eapply Qle_lt_trans; [apply Qfloor_le|done]. }
  lia.
Qed.

(** [round_half_up r] is the integer [n] with [n - 1/2 ≤ r < n + 1/2]. *)
Lemma round_half_up_nearest (r : Qc) (n : Z) :
  Qc_of_Z n - Q2Qc (1 # 2) ≤ r → r < Qc_of_Z n + Q2Qc (1 # 2) →
  round_half_up r = Z.to_N n.
Proof.
  intros Hle Hlt. unfold round_half_up. f_equal. apply Qfloor_unique.
  - unfold Qcle in Hle. cbn [this Qcminus Qcplus Qcopp Q2Qc Qc_of_Z] in Hle.
    rewrite !Qred_correct in Hle. lra.
  - unfold Qclt in Hlt. cbn [this Qcminus Qcplus Qcopp Q2Qc Qc_of_Z] in Hlt.
    rewrite !Qred_correct in Hlt. rewrite inject_Z_plus.
    change (inject_Z 1) with 1%Q. lra.
Qed.

End Rounding.

(** ** binary64 *)
Section Binary64Facts.

Lemma pow2_Q e : (pow2 e == 2 ^ e)%Q.
Proof.
  unfold pow2. case_bool_decide as He.
  - cbn [this Qc_of_Z Q2Qc]. rewrite ?Qred_correct. by apply Zpower_Qpower.
  - replace e with (- - e)%Z at 2 by lia. rewrite Qpower_opp.
    cbn [this Qcinv Qc_of_Z Q2Qc]. rewrite ?Qred_correct.
    apply Qinv_comp. apply Zpower_Qpower. lia.
Qed.

Lemma pow2_pos e : (0 < pow2 e)%Q.
Proof. rewrite pow2_Q. by apply Qpower_0_lt. Qed.

Lemma pow2_add a b : (pow2 (a + b) == pow2 a * pow2 b)%Q.
Proof. rewrite !pow2_Q. by apply Qpower_plus. Qed.

(** [round_half_even r] is an integer nearest to [r]. *)
Lemma round_half_even_near (r : Qc) :
  (Qabs (inject_Z (round_half_even r) - r) <= 1 # 2)%Q.
Proof.
  unfold round_half_even.
  pose proof (Qfloor_le r) as Hle. pose proof (Qlt_floor r) as Hlt.
  rewrite inject_Z_plus in Hlt. change (inject_Z 1) with 1%Q in Hlt.
  apply Qabs_Qle_condition.
  case_bool_decide as H1; [|case_bool_decide as H2; [|destruct (Z.even (Qfloor r))]];
    rewrite ?inject_Z_plus; change (inject_Z 1) with 1%Q;
    unfold Qclt, Qcminus in *; cbn [this Qcplus Qcopp Q2Qc Qc_of_Z] in *;
    rewrite ?Qred_correct in *; split; lra.
Qed.

(** [exponent q] is not above the binary logarithm of [q]. *)
Lemma exponent_le (q : Qc) : (0 < q)%Q → (pow2 (exponent q) <= q)%Q.
Proof.
  intros Hq. unfold exponent.
  set (a := Z.log2 (Qnum q)). set (b := Z.log2 (Z.pos (Qden q))).
  case_bool_decide as H; [exact H|]. clear H.
  assert (0 < Qnum q)%Z as Hn.
  { destruct q as [[n d] ?]. unfold Qlt in Hq. cbn in *. lia. }
  pose proof (Z.log2_spec (Qnum q) Hn) as [Ha _]. fold a in Ha.
  pose proof (Z.log2_spec (Z.pos (Qden q)) eq_refl) as [_ Hb]. fold b in Hb.
  pose proof (Z.log2_nonneg (Qnum q)) as Ha0. fold a in Ha0.
  pose proof (Z.log2_nonneg (Z.pos (Qden q))) as Hb0. fold b in Hb0.
  rewrite pow2_Q. replace (a - b - 1)%Z with (a - Z.succ b)%Z by lia.
  rewrite Qpower_minus by done.
  change 2%Q with (inject_Z 2). rewrite <- !Zpower_Qpower by lia.
  assert (0 < 2 ^ Z.succ b)%Z as HB by (apply Z.pow_pos_nonneg; lia).
  apply Qle_shift_div_r.
  - change 0%Q with (inject_Z 0). rewrite <- Zlt_Qlt. exact HB.
  - destruct q as [[n d] ?]. unfold Qle. cbn in *. nia.
Qed.

Lemma pow2_half e : (pow2 e == 2 * pow2 (e - 1))%Q.
Proof.
  replace e with ((e - 1) + 1)%Z at 1 by lia. rewrite pow2_add.
  assert (pow2 1 == 2)%Q as -> by reflexivity. lra.
Qed.

(** The binary64 number nearest to [q] lies within half a unit of the last
    place of [q]: within [q / 2 ^ 53] or, for the smallest numbers, within
    [2 ^ -1075]. *)
Lemma binary64_near (q r : Qc) :
  binary64 q = Fin r →
  (Qabs (r - q) <= Qabs q * (1 # 9007199254740992) + pow2 (-1075))%Q.
Proof.
  pose proof (pow2_pos (-1075)) as Ht.
  unfold binary64. case_bool_decide as Hq0.
  { intros [= <-]. subst q.
    assert (Qabs (0%Qc - 0%Qc) == 0)%Q as -> by reflexivity.
    assert (Qabs 0%Qc == 0)%Q as -> by reflexivity. lra. }
  assert (∃ a : Qc, a = (if bool_decide (q < 0) then - q else q)
                    ∧ (a == Qabs q)%Q ∧ (0 < a)%Q
                    ∧ ∀ x : Qc, (Qabs (this (if bool_decide (q < 0)%Qc then (- x)%Qc else x) - q)
                                 == Qabs (x - a))%Q) as (a & <- & Haq & Ha & Hsign).
  { case_bool_decide as Hneg.
    - exists (- q). unfold Qclt in Hneg. change (this 0%Qc) with 0%Q in Hneg.
      assert (∀ x : Qc, this (- x) == - x)%Q as Hopp
        by (intros x; cbn [this Qcopp Q2Qc]; apply Qred_correct).
      split_and!; [done|rewrite Hopp; symmetry; apply Qabs_neg; lra|rewrite Hopp; lra|].
      intros x. rewrite !Hopp. rewrite <- (Qabs_opp (x - - q)). apply Qabs_wd. ring.
    - exists q. assert (0 < q)%Q as Hpos.
      { destruct (Qlt_le_dec 0 q) as [|Hle]; [done|]. exfalso.
        apply Qle_lt_or_eq in Hle as [Hlt|Heq]; [by apply Hneg|].
        apply Hq0. by apply Qc_is_canon. }
      split_and!; [done|symmetry; apply Qabs_pos; lra|done|reflexivity]. }
  set (e := Z.max (exponent a - 52) (-1074)).
  set (m := round_half_even (a / pow2 e)).
  destruct (bool_decide (pow2 1024 ≤ _)); [by destruct (bool_decide (q < 0))|].
  intros [= <-]. rewrite (Hsign (Qc_of_Z m * pow2 e)).
  pose proof (pow2_pos e) as HP.
  pose proof (round_half_even_near (a / pow2 e)) as Hm. fold m in Hm.
  assert (this (a / pow2 e) == a / pow2 e)%Q as Hdiv.
  { unfold Qcdiv. cbn [this Qcmult Qcinv Q2Qc]. rewrite !Qred_correct. reflexivity. }
  rewrite Hdiv in Hm.
  assert (this (Qc_of_Z m * pow2 e) == inject_Z m * pow2 e)%Q as ->.
  { cbn [this Qcmult Qc_of_Z Q2Qc]. rewrite !Qred_correct. reflexivity. }
  assert (Qabs (inject_Z m * pow2 e - a) <= pow2 e * (1 # 2))%Q as Hnear.
  { assert (inject_Z m * pow2 e - a == (inject_Z m - a / pow2 e) * pow2 e)%Q as ->
      by (field; lra).
    rewrite Qabs_Qmult, (Qabs_pos (pow2 e)) by lra.
    rewrite (Qmult_comm (pow2 e)). apply Qmult_le_compat_r; [exact Hm|lra]. }
  assert (pow2 e * (1 # 2) <= Qabs q * (1 # 9007199254740992) + pow2 (-1075))%Q as Hulp;
    [|lra].
  pose proof (exponent_le a Ha) as Hexp. rewrite <- Haq.
  unfold e. destruct (Z.max_spec (exponent a - 52) (-1074)) as [[_ ->]|[_ ->]].
  - rewrite (pow2_half (-1074)). change (-1074 - 1)%Z with (-1075)%Z. lra.
  - replace (exponent a - 52)%Z with (exponent a + -52)%Z by lia.
    rewrite pow2_add.
    assert (pow2 (-52) == 1 # 4503599627370496)%Q as -> by reflexivity.
    lra.
Qed.

(** [exponent q] is the binary logarithm of [q], rounded down. *)
Lemma exponent_lt (q : Qc) : (0 < q)%Q → (q < pow2 (exponent q + 1))%Q.
Proof.
  intros Hq. unfold exponent.
  set (a := Z.log2 (Qnum q)). set (b := Z.log2 (Z.pos (Qden q))).
  case_bool_decide as H.
  2:{ replace (a - b - 1 + 1)%Z with (a - b)%Z by lia. by apply Qnot_le_lt. }
  clear H.
  assert (0 < Qnum q)%Z as Hn.
  { destruct q as [[n d] ?]. unfold Qlt in Hq. cbn in *. lia. }
  pose proof (Z.log2_spec (Qnum q) Hn) as [_ Ha]. fold a in Ha.
  pose proof (Z.log2_spec (Z.pos (Qden q)) eq_refl) as [Hb _]. fold b in Hb.
  pose proof (Z.log2_nonneg (Qnum q)) as Ha0. fold a in Ha0.
  pose proof (Z.log2_nonneg (Z.pos (Qden q))) as Hb0. fold b in Hb0.
  rewrite pow2_Q. replace (a - b + 1)%Z with (Z.succ a - b)%Z by lia.
  rewrite Qpower_minus by done.
  change 2%Q with (inject_Z 2). rewrite <- !Zpower_Qpower by lia.
  assert (0 < 2 ^ b)%Z as HB by (apply Z.pow_pos_nonneg; lia).
  apply Qlt_shift_div_l.
  - change 0%Q with (inject_Z 0). rewrite <- Zlt_Qlt. exact HB.
  - destruct q as [[n d] ?]. unfold Qlt. cbn in *. nia.
Qed.

(** A finite result of [binary64] is a number of binary64: an integer of at
    most 53 bits times a power of two from [2 ^ -1074] on, below
    [2 ^ 1024]. *)
Lemma binary64_number (q r : Qc) :
  binary64 q = Fin r →
  ∃ m e : Z, r = Qc_of_Z m * pow2 e ∧ (Z.abs m ≤ 2 ^ 53)%Z ∧ (-1074 ≤ e)%Z
             ∧ magnitude r < pow2 1024.
Proof.
  unfold binary64. case_bool_decide as Hq0.
  { intros [= <-]. exists 0%Z, 0%Z. split_and!; [by apply Qc_is_canon|done..]. }
  set (a := if bool_decide (q < 0) then - q else q).
  assert (0 < a)%Q as Ha.
  { unfold a. case_bool_decide as Hneg.
    - unfold Qclt in Hneg. change (this 0%Qc) with 0%Q in Hneg.
      cbn [this Qcopp Q2Qc]. rewrite Qred_correct. lra.
    - destruct (Qlt_le_dec 0 q) as [|Hle]; [done|]. exfalso.
      apply Qle_lt_or_eq in Hle as [Hlt|Heq]; [by apply Hneg|].
      apply Hq0. by apply Qc_is_canon. }
  set (e := Z.max (exponent a - 52) (-1074)).
  set (m := round_half_even (a / pow2 e)).
  assert (0 ≤ m ≤ 2 ^ 53)%Z as Hm.
  { pose proof (pow2_pos e) as HP.
    pose proof (round_half_even_near (a / pow2 e)) as Hnear. fold m in Hnear.
    assert (this (a / pow2 e) == a / pow2 e)%Q as Hdiv.
    { unfold Qcdiv. cbn [this Qcmult Qcinv Q2Qc]. rewrite !Qred_correct. reflexivity. }
    rewrite Hdiv in Hnear. apply Qabs_Qle_condition in Hnear.
    assert (0 < a / pow2 e ∧ a / pow2 e < inject_Z (2 ^ 53))%Q as [Hlo Hhi].
    { split; [apply Qlt_shift_div_l; lra|]. apply Qlt_shift_div_r; [done|].
      pose proof (exponent_lt a Ha) as Hlt.
      assert (pow2 (exponent a + 1) <= inject_Z (2 ^ 53) * pow2 e)%Q; [|lra].
      assert (inject_Z (2 ^ 53) == pow2 53)%Q as -> by reflexivity.
      rewrite <- pow2_add. rewrite !pow2_Q.
      apply Qpower_le_compat_l; [unfold e; lia|done]. }
    split.
    - apply Z.lt_succ_r. rewrite Zlt_Qlt.
      rewrite <- Z.add_1_r, inject_Z_plus. change (inject_Z 0) with 0%Q.
      change (inject_Z 1) with 1%Q. lra.
    - apply Z.lt_succ_r. rewrite Zlt_Qlt.
      rewrite <- Z.add_1_r, inject_Z_plus. change (inject_Z 1) with 1%Q. lra. }
  assert (-1074 ≤ e)%Z as He by (unfold e; lia).
  case_bool_decide as Hover; [by destruct (bool_decide (q < 0))|].
  apply Qcnot_le_lt in Hover.
  assert (0 ≤ Qc_of_Z m * pow2 e) as Hr0.
  { unfold Qcle. cbn [this Qcmult Qc_of_Z Q2Qc]. rewrite !Qred_correct.
    change (this 0%Qc) with 0%Q. pose proof (pow2_pos e).
    apply Qmult_le_0_compat; [|lra]. change 0%Q with (inject_Z 0).
    rewrite <- Zle_Qle. lia. }
  assert (magnitude (Qc_of_Z m * pow2 e) = Qc_of_Z m * pow2 e) as Hmag.
  { unfold magnitude. rewrite bool_decide_eq_false_2; [done|]. by apply Qcle_not_lt. }
  intros [= <-]. case_bool_decide as Hneg.
  - exists (- m)%Z, e. split_and!; [|lia|done|].
    + apply Qc_is_canon. cbn [this Qcopp Qcmult Qc_of_Z Q2Qc]. rewrite !Qred_correct.
      rewrite inject_Z_opp. ring.
    + unfold magnitude. case_bool_decide as Hs.
      * by rewrite Qcopp_involutive.
      * eapply Qcle_lt_trans; [|exact Hover].
        transitivity 0; [|done]. apply Qcnot_lt_le in Hs.
        apply Qcopp_le_compat in Hr0. exact Hr0.
  - exists m, e. rewrite Hmag. split_and!; [done|lia|done|done].
Qed.

Lemma round_half_even_Z (k : Z) : round_half_even (Qc_of_Z k) = k.
Proof.
  unfold round_half_even.
  assert (Qfloor (Qc_of_Z k) = k) as ->.
  { cbn [this Qc_of_Z Q2Qc]. rewrite ?Qred_correct. apply Qfloor_Z. }
  rewrite bool_decide_eq_true_2; [done|].
  unfold Qclt, Qcminus. cbn [this Qcplus Qcopp Qc_of_Z Q2Qc]. rewrite !Qred_correct. lra.
Qed.

Lemma pow2_lt_inv (a b : Z) : (pow2 a < pow2 b)%Q → (a < b)%Z.
Proof. rewrite !pow2_Q. intros H. by apply (Qpower_lt_compat_l_inv 2). Qed.

(** A number of binary64 is the binary64 number nearest to itself. *)
Lemma binary64_exact (m e : Z) :
  (0 < m ≤ 2 ^ 53)%Z → (-1074 ≤ e)%Z →
  (inject_Z m * pow2 e < pow2 1024)%Q →
  ∀ a : Qc, (a == inject_Z m * pow2 e)%Q →
  let e' := Z.max (exponent a - 52) (-1074) in
  (Qc_of_Z (round_half_even (a / pow2 e')) * pow2 e')%Qc = a.
Proof.
  intros Hm He Hfin a Ha e'.
  pose proof (pow2_pos e) as HPe. pose proof (pow2_pos e') as HPe'.
  assert (0 < inject_Z m)%Q as Hm0.
  { change 0%Q with (inject_Z 0). rewrite <- Zlt_Qlt. lia. }
  assert (0 < a)%Q as Ha0 by (rewrite Ha; by apply Qmult_lt_0_compat).
  assert (∃ k : Z, (inject_Z k * pow2 e' == a)%Q) as [k Hk].
  { destruct (decide (e' ≤ e)%Z) as [Hle|Hgt].
    - exists (m * 2 ^ (e - e'))%Z. rewrite Ha, inject_Z_mult.
      replace e with ((e - e') + e')%Z at 2 by lia. rewrite pow2_add.
      assert (inject_Z (2 ^ (e - e')) == pow2 (e - e'))%Q as ->; [|ring].
      unfold pow2. rewrite bool_decide_eq_true_2 by lia.
      cbn [this Qc_of_Z Q2Qc]. by rewrite ?Qred_correct.
    - assert (e' = exponent a - 52)%Z as He' by (unfold e' in *; lia).
      pose proof (exponent_le a Ha0) as Hlo.
      assert (inject_Z m <= pow2 53)%Q as Hm53.
      { assert (pow2 53 == inject_Z (2 ^ 53))%Q as -> by reflexivity.
        rewrite <- Zle_Qle. lia. }
      assert (a <= pow2 (e + 53))%Q as Hhi.
      { rewrite Ha, Z.add_comm, pow2_add. apply Qmult_le_compat_r; lra. }
      assert (exponent a = e + 53)%Z as Hex.
      { assert (exponent a ≤ e + 53)%Z; [|lia].
        apply Z.lt_succ_r, pow2_lt_inv.
        eapply Qle_lt_trans; [exact Hlo|]. eapply Qle_lt_trans; [exact Hhi|].
        rewrite (pow2_half (Z.succ (e + 53))).
        replace (Z.succ (e + 53) - 1)%Z with (e + 53)%Z by lia.
        pose proof (pow2_pos (e + 53)). lra. }
      exists (2 ^ 52)%Z. rewrite Hex in Hlo.
      assert (a == pow2 (e + 53))%Q as -> by lra.
      replace (e + 53)%Z with (52 + e')%Z by lia. rewrite pow2_add.
      assert (pow2 52 == inject_Z (2 ^ 52))%Q as -> by reflexivity. reflexivity. }
  assert ((a / pow2 e')%Qc = Qc_of_Z k) as ->.
  { apply Qc_is_canon. unfold Qcdiv. cbn [this Qcmult Qcinv Qc_of_Z Q2Qc].
    rewrite !Qred_correct. rewrite <- Hk. field. lra. }
  rewrite round_half_even_Z.
  apply Qc_is_canon. cbn [this Qcmult Qc_of_Z Q2Qc]. rewrite !Qred_correct. exact Hk.
Qed.

(** [fl] is the identity on the numbers of binary64: on a number that the
    program holds, the model reads the number itself. *)
Lemma binary64_idem (q r : Qc) : binary64 q = Fin r → binary64 r = Fin r.
Proof.
  intros H. destruct (binary64_number q r H) as (m & e & -> & Hm & He & Hfin).
  clear H q. set (r := Qc_of_Z m * pow2 e) in *.
  pose proof (pow2_pos e) as HP.
  assert (this r == inject_Z m * pow2 e)%Q as Hr.
  { unfold r. cbn [this Qcmult Qc_of_Z Q2Qc]. by rewrite !Qred_correct. }
  assert (∀ x : Qc, this (- x) == - x)%Q as Hopp
    by (intros x; cbn [this Qcopp Q2Qc]; apply Qred_correct).
  destruct (Z.lt_trichotomy m 0) as [Hneg|[->|Hpos]].
  - assert (inject_Z m < 0)%Q as Hm0.
    { change 0%Q with (inject_Z 0). rewrite <- Zlt_Qlt. lia. }
    assert (r < 0) as Hr0.
    { unfold Qclt. rewrite Hr. change (this 0) with 0%Q.
      pose proof (Qmult_lt_compat_r (inject_Z m) 0 (pow2 e) HP Hm0) as Hlt.
      by rewrite Qmult_0_l in Hlt. }
    unfold magnitude in Hfin. rewrite bool_decide_eq_true_2 in Hfin by done.
    unfold binary64. rewrite bool_decide_eq_false_2; [|intros Heq; rewrite Heq in Hr0; done].
    rewrite !(bool_decide_eq_true_2 (r < 0)) by done.
    assert (this (- r) == inject_Z (- m) * pow2 e)%Q as Ha
      by (rewrite Hopp, Hr, inject_Z_opp; ring).
    assert (inject_Z (- m) * pow2 e < pow2 1024)%Q as Hlt
      by (rewrite <- Ha; exact Hfin).
    pose proof (binary64_exact (- m) e ltac:(lia) He Hlt (- r) Ha) as Hex.
    cbv zeta in Hex. rewrite Hex.
    rewrite bool_decide_eq_false_2 by (by apply Qclt_not_le).
    by rewrite Qcopp_involutive.
  - replace r with (Q2Qc 0); [done|].
    apply Qc_is_canon. rewrite Hr. change (this (Q2Qc 0)) with 0%Q.
    change (inject_Z 0) with 0%Q. ring.
  - assert (0 < inject_Z m)%Q as Hm0.
    { change 0%Q with (inject_Z 0). rewrite <- Zlt_Qlt. lia. }
    assert (0 < r) as Hr0.
    { unfold Qclt. rewrite Hr. change (this 0) with 0%Q. by apply Qmult_lt_0_compat. }
    assert (¬ r < 0) as Hnn by (apply Qcle_not_lt; by apply Qclt_le_weak).
    unfold magnitude in Hfin. rewrite bool_decide_eq_false_2 in Hfin by done.
    unfold binary64. rewrite bool_decide_eq_false_2; [|intros Heq; rewrite Heq in Hr0; done].
    rewrite !(bool_decide_eq_false_2 (r < 0)) by done.
    assert (inject_Z m * pow2 e < pow2 1024)%Q as Hlt
      by (rewrite <- Hr; exact Hfin).
    pose proof (binary64_exact m e ltac:(lia) He Hlt r Hr) as Hex.
    cbv zeta in Hex. rewrite Hex.
    by rewrite bool_decide_eq_false_2 by (by apply Qclt_not_le).
Qed.

Lemma fl_idem (a : number) : fl (fl a) = fl a.
Proof.
  destruct a as [| | |q]; try done. cbn [fl].
  destruct (binary64 q) as [| | |r] eqn:Hq; try done. cbn [fl].
  by apply (binary64_idem q).
Qed.

Lemma Qabs_cases (x : Q) : (0 <= x ∧ Qabs x == x)%Q ∨ (x <= 0 ∧ Qabs x == - x)%Q.
Proof.
  destruct (Qlt_le_dec x 0) as [H|H].
  - right. split; [lra|apply Qabs_neg; lra].
  - left. split; [done|by apply Qabs_pos].
Qed.

(** The product [100 * (1 - y)] of binary64 is near the exact one. *)
Lemma savings_binary64_near (y v : Qc) :
  savings_binary64 (Fin y) = Fin v →
  (Qabs (v - savings_percent y) <= (1 + Qabs y) * (1 # 17592186044416))%Q.
Proof.
  unfold savings_binary64. cbn [fl].
  destruct (binary64 y) as [| | |y1] eqn:Hy; try done.
  cbn [num_sub num_neg num_add fl].
  destruct (binary64 (1 + - y1)) as [| | |d] eqn:Hd; try done.
  cbn [num_mul fl]. intros Hv.
  apply binary64_near in Hy, Hd, Hv.
  assert (pow2 (-1075) <= 1 # 1267650600228229401496703205376)%Q as Ht by done.
  pose proof (pow2_pos (-1075)) as Ht0.
  assert (this (1 + - y1) == 1 - y1)%Q as E1
    by (cbn [this Qcplus Qcopp Q2Qc]; rewrite !Qred_correct; reflexivity).
  assert (this (Qc_of_Z 100 * d) == 100 * d)%Q as E2
    by (cbn [this Qcmult Qc_of_Z Q2Qc]; rewrite !Qred_correct; reflexivity).
  assert (this (savings_percent y) == 100 * (1 - y))%Q as E3.
  { unfold savings_percent, Qcminus.
    cbn [this Qcmult Qcplus Qcopp Qc_of_Z Q2Qc]. rewrite !Qred_correct. reflexivity. }
  rewrite E1 in Hd. rewrite E2 in Hv. rewrite E3.
  apply Qabs_Qle_condition in Hy, Hd, Hv. apply Qabs_Qle_condition.
  destruct (Qabs_cases y) as [[? Ey]|[? Ey]], (Qabs_cases (1 - y1)) as [[? Ed]|[? Ed]],
    (Qabs_cases (100 * d)) as [[? Ev]|[? Ev]];
    rewrite Ey in *; rewrite Ed in *; rewrite Ev in *; split; lra.
Qed.

Lemma magnitude_Qabs (q : Qc) : (magnitude q == Qabs q)%Q.
Proof.
  unfold magnitude. case_bool_decide as Hneg.
  - unfold Qclt in Hneg. change (this 0%Qc) with 0%Q in Hneg.
    cbn [this Qcopp Q2Qc]. rewrite Qred_correct. symmetry. apply Qabs_neg. lra.
  - symmetry. apply Qabs_pos. apply Qnot_lt_le. exact Hneg.
Qed.

(** Some numbers of binary64: the one nearest to 1/10; above [2 ^ 53] the
    even integers, of which the nearest to an odd one is the one with the
    even significand; the largest one, and an infinity from halfway to
    [2 ^ 1024] on; the smallest one, and 0 up to the half of it. *)
Lemma binary64_values :
  binary64 (Q2Qc (1 # 10)) = Fin (Q2Qc (3602879701896397 # 36028797018963968))
  ∧ binary64 (Qc_of_Z (2 ^ 53 + 1)) = Fin (Qc_of_Z (2 ^ 53))
  ∧ binary64 (Qc_of_Z (2 ^ 53 + 3)) = Fin (Qc_of_Z (2 ^ 53 + 4))
  ∧ binary64 (Qc_of_Z (2 ^ 1024 - 2 ^ 970 - 1)) = Fin (Qc_of_Z (2 ^ 1024 - 2 ^ 971))
  ∧ binary64 (Qc_of_Z (2 ^ 1024 - 2 ^ 970)) = PInf
  ∧ binary64 (- Qc_of_Z (2 ^ 1024)) = NInf
  ∧ binary64 (pow2 (-1074)) = Fin (pow2 (-1074))
  ∧ binary64 (pow2 (-1075)) = Fin 0
  ∧ binary64 (Qc_of_Z 3 * pow2 (-1075)) = Fin (Qc_of_Z 2 * pow2 (-1074)).
Proof. split_and!; vm_compute; values_eq. Qed.

End Binary64Facts.

Section PercentText.
Context {rt : Runtime}.

(** The text of a percentage is that of the number that the program
    holds. *)
Lemma percent_text_held (n : number) :
  percent_text (held (VNum n)) = percent_text (VNum n).
Proof. unfold percent_text, held, ToNumber. by rewrite !fl_idem. Qed.

End PercentText.

(** ** The sort *)
Section Sorting.
Context {rt : Runtime}.

Lemma sort_insert_perm cmp x (l : list array) : sort_insert cmp x l ≡ₚ x :: l.
Proof.
  induction l as [|y l IH]; cbn [sort_insert]; [done|].
  destruct (num_ltb (Fin 0) (cmp x y)); [|done].
  rewrite IH. apply Permutation_swap.
Qed.

Lemma sort_perm cmp (l : list array) : sort cmp l ≡ₚ l.
Proof.
  unfold sort. induction l as [|x l IH]; cbn [foldr]; [done|].
  by rewrite sort_insert_perm, IH.
Qed.

Lemma compareFn_keys col (a b : array) :
  has_key col a → has_key col b →
  num_ltb (Fin 0) (compareFn col a b) = bool_decide (sort_key col b < sort_key col a).
Proof.
  intros [qa Ha] [qb Hb]. unfold compareFn, js_sub, sort_key. rewrite Ha, Hb. simpl.
  apply bool_decide_ext. rewrite (Qcplus_lt_mono_r qb qa (- qb)).
  by rewrite Qcplus_opp_r.
Qed.



(** Rows with equal keys keep their order. *)
Lemma sort_sorted_id col (l : list array) :
  Forall (has_key col) l →
  StronglySorted (λ a b, sort_key col a ≤ sort_key col b) l →
  sort (compareFn col) l = l.
Proof.
  unfold sort. intros Hk Hs. induction Hs as [|x l Hs IH Hx]; cbn [foldr]; [done|].
  inversion_clear Hk as [|? ? Hkx Hkl]. rewrite IH by done.
  destruct l as [|y l]; [done|]. cbn [sort_insert].
  inversion_clear Hkl. inversion_clear Hx as [|? ? Hxy ?].
  rewrite compareFn_keys by done.
  by rewrite bool_decide_false by by apply Qcle_not_lt.
Qed.

End Sorting.

(** ** [sumCols] and the footer *)
Section Sums.
Context {rt : Runtime}.

Lemma map_from_hole {St} (f : value → nat → M St value) k (x : array) s :
  map_from f k (None :: x) s
  = match map_from f (S k) x s with
    | Ok (ys, s') => Ok (None :: ys, s')
    | TypeError => TypeError
    end.
Proof. simpl. unfold mbind, M_bind. by destruct (map_from f (S k) x s) as [[??]|]. Qed.

Lemma map_from_cons {St} (f : value → nat → M St value) k y (x : array) s :
  map_from f k (Some y :: x) s
  = match f y k s with
    | Ok (y', s') =>
        match map_from f (S k) x s' with
        | Ok (ys, s'') => Ok (Some y' :: ys, s'')
        | TypeError => TypeError
        end
    | TypeError => TypeError
    end.
Proof.
  simpl. unfold mbind, M_bind. destruct (f y k s) as [[??]|]; [|done].
  by destruct (map_from f (S k) x _) as [[??]|].
Qed.

Lemma rows_from_cons {St} (g : array → nat → M St array) r x (arr : list array) s :
  rows_from g r (x :: arr) s
  = match g x r s with
    | Ok (x', s') =>
        match rows_from g (S r) arr s' with
        | Ok (xs, s'') => Ok (x' :: xs, s'')
        | TypeError => TypeError
        end
    | TypeError => TypeError
    end.
Proof.
  simpl. unfold mbind, M_bind. destruct (g x r s) as [[??]|]; [|done].
  by destruct (rows_from g (S r) arr _) as [[??]|].
Qed.

Lemma sumCols_cell_eq y i (sumRow : array) :
  sumCols_cell y i sumRow
  = Ok (y, if includes_nat byteCols i
           then arr_set i (accumulate (arr_get sumRow i) y) sumRow
           else sumRow).
Proof. unfold sumCols_cell. by destruct (includes_nat byteCols i). Qed.

(** One row: every byte cell of the row is accumulated into its slot. *)
Lemma sumCols_row k (x sumRow : array) :
  ∃ sumRow',
    map_from sumCols_cell k x sumRow = Ok (x, sumRow')
    ∧ ∀ j, cell sumRow' j
           = if includes_nat byteCols j && bool_decide (k ≤ j)%nat
             then match cell x (j - k) with
                  | Some y => Some (accumulate (arr_get sumRow j) y)
                  | None => cell sumRow j
                  end
             else cell sumRow j.
Proof.
  revert k sumRow. induction x as [|[y|] x IH]; intros k sumRow.
  - exists sumRow. split; [done|]. intros j. by destruct (_ && _).
  - rewrite map_from_cons, sumCols_cell_eq.
    set (acc := if includes_nat byteCols k
                then arr_set k (accumulate (arr_get sumRow k) y) sumRow
                else sumRow).
    destruct (IH (S k) acc) as (s' & -> & Hs').
    exists s'. split; [done|]. intros j. rewrite Hs'.
    destruct (decide (j = k)) as [->|Hjk].
    + rewrite (bool_decide_false (S k ≤ k)%nat) by lia.
      rewrite (bool_decide_true (k ≤ k)%nat) by lia.
      rewrite Nat.sub_diag, andb_false_r, andb_true_r. unfold acc.
      destruct (includes_nat byteCols k); [|done].
      unfold cell at 2. simpl. apply cell_arr_set_eq.
    + assert (cell acc j = cell sumRow j) as Hc.
      { unfold acc. destruct (includes_nat byteCols k); [|done].
        by apply cell_arr_set_ne. }
      rewrite (arr_get_cell acc), (arr_get_cell sumRow), Hc.
      destruct (includes_nat byteCols j); simpl; [|done].
      destruct (decide (k < j)%nat) as [Hlt|Hge].
      * rewrite !bool_decide_true by lia.
        replace (j - k)%nat with (S (j - S k)) by lia. done.
      * by rewrite !bool_decide_false by lia.
  - rewrite map_from_hole.
    destruct (IH (S k) sumRow) as (s' & -> & Hs').
    exists s'. split; [done|]. intros j. rewrite Hs'.
    destruct (includes_nat byteCols j); simpl; [|done].
    destruct (decide (j = k)) as [->|Hjk].
    + rewrite (bool_decide_false (S k ≤ k)%nat) by lia.
      rewrite (bool_decide_true (k ≤ k)%nat) by lia.
      by rewrite Nat.sub_diag.
    + destruct (decide (k < j)%nat) as [Hlt|Hge].
      * rewrite !bool_decide_true by lia.
        replace (j - k)%nat with (S (j - S k)) by lia. done.
      * by rewrite !bool_decide_false by lia.
Qed.

Lemma foldl_add_to (o : option Qc) (qs : list Qc) :
  foldl add_to o qs
  = match qs with [] => o | _ => Some (default 0 o + sum_list qs) end.
Proof.
  revert o. induction qs as [|q qs IH]; intros o; [done|].
  cbn [foldl]. rewrite IH. unfold sum_list, add_to.
  destruct qs as [|q' qs]; cbn [foldr default].
  - by rewrite Qcplus_0_r.
  - f_equal. symmetry. apply Qcplus_assoc.
Qed.

Lemma accumulate_finite (o : option Qc) (q : Qc) :
  accumulate (default VUndef ((λ q, VNum (Fin q)) <$> o)) (VNum (Fin q))
  = VNum (Fin (default 0 o + q)).
Proof.
  destruct o as [q0|]; simpl; unfold accumulate, ToBoolean.
  - case_bool_decide as H0; simpl; [|done]. subst. by rewrite Qcplus_0_l.
  - by rewrite Qcplus_0_l.
Qed.

Lemma includes_nat_true l i : i ∈ l → includes_nat l i = true.
Proof. intros. unfold includes_nat. by rewrite bool_decide_true. Qed.

Lemma includes_nat_false l i : i ∉ l → includes_nat l i = false.
Proof. intros. unfold includes_nat. by rewrite bool_decide_false. Qed.

Lemma sumCols_rows r (rows : list array) (acc : array) (oq : nat → option Qc) :
  bytes_ok rows →
  (∀ j, j ∈ byteCols → cell acc j = (λ q, VNum (Fin q)) <$> oq j) →
  ∃ acc',
    rows_from (λ x _, map_from sumCols_cell 0 x) r rows acc = Ok (rows, acc')
    ∧ (∀ j, j ∈ byteCols →
            cell acc' j = (λ q, VNum (Fin q)) <$> foldl add_to (oq j) (column j rows))
    ∧ (∀ j, j ∉ byteCols → cell acc' j = cell acc j).
Proof.
  revert r acc oq. induction rows as [|x rows IH]; intros r acc oq Hok Hacc.
  - exists acc. by split_and!.
  - inversion_clear Hok as [|? ? Hx Hrows].
    rewrite rows_from_cons.
    destruct (sumCols_row 0 x acc) as (acc1 & -> & Hacc1).
    destruct (IH (S r) acc1
                (λ j, match finite_cell (cell x j) with
                      | Some q => add_to (oq j) q
                      | None => oq j
                      end) Hrows) as (acc' & -> & Hbyte & Hother).
    + intros j Hj. rewrite Hacc1, includes_nat_true by done.
      rewrite bool_decide_true by lia. simpl. rewrite Nat.sub_0_r.
      destruct (cell x j) as [v|] eqn:Ev; simpl; [|by apply Hacc].
      destruct (Hx j v Hj Ev) as [q ->]. simpl.
      by rewrite arr_get_cell, Hacc, accumulate_finite.
    + exists acc'. split_and!; [done| |].
      * intros j Hj. rewrite Hbyte by done. unfold column.
        cbn [omap list_omap]. by destruct (finite_cell (cell x j)).
      * intros j Hj. rewrite Hother, Hacc1 by done.
        by rewrite includes_nat_false.
Qed.

Lemma sumCols_totals (rows : list array) :
  bytes_ok rows →
  ∃ sumRow,
    sumCols rows [] = Ok (rows, sumRow)
    ∧ (∀ j, j ∈ byteCols → cell sumRow j = column_total j rows)
    ∧ (∀ j, j ∉ byteCols → cell sumRow j = None).
Proof.
  intros Hok.
  destruct (sumCols_rows 0 rows [] (λ _, None) Hok) as (s & Hs & Hbyte & Hother);
    [done|].
  exists s. split_and!; [done| |].
  - intros j Hj. rewrite Hbyte, foldl_add_to by done. unfold column_total.
    destruct (column j rows); [done|]. simpl. by rewrite Qcplus_0_l.
  - intros j Hj. by rewrite Hother.
Qed.

Lemma footer_cells conf (sumRow : array) :
  cell (footer conf sumRow) 2 = Some (VNum (js_div (arr_get sumRow 3) (arr_get sumRow 1)))
  ∧ cell (footer conf sumRow) 5
    = Some (VNum (js_div (js_or (arr_get sumRow 6) (VNum (Fin 0))) (arr_get sumRow 3)))
  ∧ cell (footer conf sumRow) 8
    = Some (VNum (js_div (js_or (arr_get sumRow 9) (VNum (Fin 0))) (arr_get sumRow 3)))
  ∧ cell (footer conf sumRow) 10
    = Some (VNum (js_div (js_or (arr_get sumRow (refAllCol conf)) (VNum (Fin 0)))
                         (arr_get sumRow 1)))
  ∧ ∀ j, j ∉ percentCols → cell (footer conf sumRow) j = cell sumRow j.
Proof.
  assert (refAllCol conf ∈ byteCols) as Href.
  { unfold refAllCol, byteCols.
    destruct (BROTLI conf), (GZIP conf), (JS_UGLIFY conf), (JS_SOURCEMAPS conf);
      rewrite !elem_of_cons; auto 10. }
  assert (refAllCol conf ≠ 2 ∧ refAllCol conf ≠ 5 ∧ refAllCol conf ≠ 8)%nat
    as (H2 & H5 & H8).
  { revert Href. unfold byteCols. rewrite !elem_of_cons, elem_of_nil. lia. }
  unfold footer. split_and!.
  - by rewrite !cell_arr_set_ne, cell_arr_set_eq by lia.
  - rewrite !cell_arr_set_ne, cell_arr_set_eq by lia.
    by rewrite !arr_get_set_ne by lia.
  - rewrite !cell_arr_set_ne, cell_arr_set_eq by lia.
    by rewrite !arr_get_set_ne by lia.
  - rewrite cell_arr_set_eq. by rewrite !arr_get_set_ne by lia.
  - intros j Hj.
    assert (j ≠ 2 ∧ j ≠ 5 ∧ j ≠ 8 ∧ j ≠ 10)%nat as (? & ? & ? & ?).
    { revert Hj. unfold percentCols. rewrite !elem_of_cons, elem_of_nil. lia. }
    by rewrite !cell_arr_set_ne by lia.
Qed.

End Sums.

(** ** The table *)
Section TableFacts.
Context {rt : Runtime}.

Lemma removeColumns_row conf (row : array) :
  (length row ≤ 13)%nat →
  cells (removeColumns conf (mkTable [row] [])) = [take (width conf) row].
Proof.
  intros Hlen.
  do 14 (destruct row as [|? row]; [by destruct conf as [[] [] [] []]|]).
  simpl in Hlen. lia.
Qed.

Lemma removeColumns_cells conf (t : Table) :
  cells (removeColumns conf t)
  = flat_map (λ row, cells (removeColumns conf (mkTable [row] []))) (cells t).
Proof.
  destruct t as [rows ats]. unfold removeColumns, removeColumn. simpl.
  destruct conf as [[] [] [] []]; simpl;
    induction rows as [|r rows IH]; simpl; try done; by rewrite <-IH.
Qed.

Lemma removeColumns_take conf (t : Table) :
  Forall (λ row : array, (length row ≤ 13)%nat) (cells t) →
  cells (removeColumns conf t) = map (take (width conf)) (cells t).
Proof.
  intros Hall. rewrite removeColumns_cells.
  induction Hall as [|row rows Hrow _ IH]; simpl; [done|].
  by rewrite removeColumns_row, IH.
Qed.

End TableFacts.

Section Summary.
Context {rt : Runtime}.

Lemma percentCols_iff i : i ∈ percentCols ↔ i = 2%nat ∨ i = 5%nat ∨ i = 8%nat ∨ i = 10%nat.
Proof. unfold percentCols. rewrite !elem_of_cons, elem_of_nil. tauto. Qed.



Lemma foldl_table_push (rows : list array) (t : Table) :
  foldl (λ t row, table_push row t) t rows = mkTable (cells t ++ rows) (attrs t).
Proof.
  revert t. induction rows as [|r rows IH]; intros [cs ats]; simpl.
  - by rewrite app_nil_r.
  - rewrite IH. simpl. by rewrite <-app_assoc.
Qed.

Lemma foldl_table_attr_add {A} (f : A → table_attr) (l : list A) (t : Table) :
  foldl (λ t a, table_attr_add (f a) t) t l = mkTable (cells t) (attrs t ++ map f l).
Proof.
  revert t. induction l as [|a l IH]; intros [cs ats]; simpl.
  - by rewrite app_nil_r.
  - rewrite IH. simpl. by rewrite <-app_assoc.
Qed.

Lemma printJsSummary_console conf (tf : tracked) :
  console (printJsSummary conf tf)
  = match body conf tf with
    | TypeError => TypeError
    | Ok (rows, highLightRow) =>
        Ok (removeColumns conf
              (mkTable (header_row :: rows) (summary_attrs conf highLightRow)))
    end.
Proof.
  unfold printJsSummary. destruct (body conf tf) as [[rows hl]|]; [|done].
  cbn [console]. f_equal. f_equal.
  rewrite foldl_table_push.
  rewrite (foldl_table_attr_add (λ c, attrRange [0%nat] [c; c + 1]%nat align_right)).
  rewrite (foldl_table_attr_add id). rewrite map_id. simpl.
  unfold summary_attrs. by rewrite <-?app_assoc.
Qed.

Lemma printJsSummary_drained conf (tf : tracked) :
  drained (printJsSummary conf tf) = unshifted tf.
Proof. unfold printJsSummary. by destruct (body conf tf) as [[??]|]. Qed.

Lemma printJsSummary_after conf (tf : tracked) :
  trackedFiles_after (printJsSummary conf tf)
  = match console (printJsSummary conf tf) with
    | Ok _ => []
    | TypeError => unshifted tf
    end.
Proof. unfold printJsSummary. by destruct (body conf tf) as [[??]|]. Qed.

Lemma printJsSummary_empty conf :
  ∃ t, printJsSummary conf [] = mkPrinted (Ok t) [] []
       ∧ cells t = [take (width conf) header_row; take (width conf) blank_totals].
Proof. destruct conf as [[] [] [] []]; by eexists. Qed.

End Summary.

(** ** The length of the rows *)
Section Lengths.
Context {rt : Runtime}.

Lemma arr_set_length i v (a : array) :
  length (arr_set i v a) = (length a `max` S i)%nat.
Proof.
  unfold arr_set. case_decide.
  - rewrite length_insert. lia.
  - rewrite !length_app, length_replicate. simpl. lia.
Qed.

Lemma index_of_lt col (cols : list string) i :
  index_of col cols = Some i → (i < length cols)%nat.
Proof. intros H%index_of_Some. by apply lookup_lt_Some in H. Qed.

Lemma write_col_length d (fd : array) (entry : string * string) :
  (length fd ≤ 12)%nat → (length (write_col d fd entry) ≤ 12)%nat.
Proof.
  intros Hlen. unfold write_col.
  destruct (index_of entry.1 trackTable_cols) as [[|j]|] eqn:E; try done.
  apply index_of_lt in E. simpl in E. rewrite arr_set_length. lia.
Qed.

Lemma write_cols_length d (m : mapping) (fd : array) :
  (length fd ≤ 12)%nat → (length (foldl (write_col d) fd m) ≤ 12)%nat.
Proof.
  revert fd. induction m as [|e m IH]; intros fd Hlen; [done|].
  cbn [foldl]. by apply IH, write_col_length.
Qed.

Lemma obj_get_Forall (P : string * array → Prop) (o : tracked) k a :
  Forall P o → obj_get o k = Some a → P (k, a).
Proof.
  induction 1 as [|[k' a'] o HP _ IH]; simpl; [done|].
  case_bool_decide; [|done]. intros [= <-]. by subst.
Qed.

Lemma obj_set_Forall (P : string * array → Prop) (o : tracked) k a :
  Forall P o → P (k, a) → Forall P (obj_set k a o).
Proof.
  intros Ho Hka. unfold obj_set. destruct (obj_get o k) as [a0|].
  - induction Ho as [|[k' a'] o HP Ho IH]; simpl; [done|].
    case_bool_decide as Hk.
    + subst k'. by constructor.
    + constructor; [exact HP|exact IH].
  - destruct (array_index k) as [n|].
    + induction Ho as [|[k' a'] o HP Ho IH]; simpl; [by constructor|].
      destruct (array_index k') as [n'|]; [case_bool_decide|].
      * constructor; [exact HP|exact IH].
      * constructor; [exact Hka|]. by constructor.
      * constructor; [exact Hka|]. by constructor.
    + apply Forall_app. split; [done|]. by constructor.
Qed.

Lemma trackFile_slots_ok d m (tf : tracked) :
  slots_ok tf → slots_ok (trackFile d m tf).
Proof.
  intros Hok. unfold trackFile.
  destruct (stage_of _ _ d m) as [d' m'].
  apply obj_set_Forall; [done|]. simpl. apply write_cols_length.
  destruct (obj_get tf (srcFileName_of (fileName d))) as [a|] eqn:E; simpl; [|lia].
  by apply (obj_get_Forall _ _ _ _ Hok E).
Qed.

Lemma trackFiles_slots_ok (calls : list call) (tf : tracked) :
  slots_ok tf → slots_ok (trackFiles calls tf).
Proof.
  revert tf. induction calls as [|c calls IH]; intros tf Hok; [done|].
  apply IH. by apply trackFile_slots_ok.
Qed.

Lemma map_from_length {St} (f : value → nat → M St value) k (x x' : array) s s' :
  map_from f k x s = Ok (x', s') → length x' = length x.
Proof.
  revert k x' s s'. induction x as [|[y|] x IH]; intros k x' s s'.
  - by intros [= <- _].
  - rewrite map_from_cons. destruct (f y k s) as [[y' s1]|]; [|done].
    destruct (map_from f (S k) x s1) as [[ys s2]|] eqn:E; [|done].
    intros [= <- _]. simpl. f_equal. by eapply IH.
  - rewrite map_from_hole.
    destruct (map_from f (S k) x s) as [[ys s2]|] eqn:E; [|done].
    intros [= <- _]. simpl. f_equal. by eapply IH.
Qed.

Lemma rows_from_lengths {St} (f : nat → value → nat → M St value) r
    (arr arr' : list array) s s' :
  rows_from (λ x rowIdx, map_from (f rowIdx) 0 x) r arr s = Ok (arr', s') →
  Forall2 (λ x' x : array, length x' = length x) arr' arr.
Proof.
  revert r arr' s s'. induction arr as [|x arr IH]; intros r arr' s s'.
  - intros [= <- _]. constructor.
  - rewrite rows_from_cons.
    destruct (map_from (f r) 0 x s) as [[x' s1]|] eqn:Ex; [|done].
    destruct (rows_from _ (S r) arr s1) as [[xs s2]|] eqn:E; [|done].
    intros [= <- _]. constructor; [by eapply map_from_length|by eapply IH].
Qed.

Lemma sumCols_row_length k (x x' sumRow sumRow' : array) :
  map_from sumCols_cell k x sumRow = Ok (x', sumRow') →
  (length sumRow ≤ 13)%nat → (length sumRow' ≤ 13)%nat.
Proof.
  revert k x' sumRow sumRow'. induction x as [|[y|] x IH]; intros k x' s s'.
  - by intros [= _ <-].
  - rewrite map_from_cons, sumCols_cell_eq.
    destruct (map_from sumCols_cell (S k) x _) as [[ys s2]|] eqn:E; [|done].
    intros [= _ <-] Hlen. eapply IH; [done|].
    unfold includes_nat. case_bool_decide as Hk; [|done].
    rewrite arr_set_length.
    revert Hk. unfold byteCols. rewrite !elem_of_cons, elem_of_nil. lia.
  - rewrite map_from_hole.
    destruct (map_from sumCols_cell (S k) x s) as [[ys s2]|] eqn:E; [|done].
    intros [= _ <-] Hlen. by eapply IH.
Qed.

Lemma sumCols_length r (arr arr' : list array) (sumRow sumRow' : array) :
  rows_from (λ x _, map_from sumCols_cell 0 x) r arr sumRow = Ok (arr', sumRow') →
  (length sumRow ≤ 13)%nat → (length sumRow' ≤ 13)%nat.
Proof.
  revert r arr' sumRow sumRow'. induction arr as [|x arr IH]; intros r arr' s s'.
  - by intros [= _ <-].
  - rewrite rows_from_cons.
    destruct (map_from sumCols_cell 0 x s) as [[x' s1]|] eqn:Ex; [|done].
    destruct (rows_from _ (S r) arr s1) as [[xs s2]|] eqn:E; [|done].
    intros [= _ <-] Hlen. eapply IH; [done|]. by eapply sumCols_row_length.
Qed.

Lemma footer_length conf (sumRow : array) :
  (length sumRow ≤ 13)%nat → (length (footer conf sumRow) ≤ 13)%nat.
Proof. intros Hlen. unfold footer. rewrite !arr_set_length. lia. Qed.

Lemma body_lengths conf (tf : tracked) rows hl :
  slots_ok tf → body conf tf = Ok (rows, hl) →
  Forall (λ row : array, (length row ≤ 13)%nat) rows.
Proof.
  intros Hok. unfold body, totals.
  assert (Forall (λ row : array, (length row ≤ 13)%nat)
                 (sort (compareFn (sortCol conf)) (tableData_of tf))) as Hrows.
  { rewrite sort_perm. unfold tableData_of. apply Forall_fmap.
    eapply Forall_impl; [exact Hok|]. intros [k a] Ha. simpl in *. lia. }
  destruct (sumCols _ []) as [[rows1 sumRow]|] eqn:Es; [|done].
  assert (Forall (λ row : array, (length row ≤ 13)%nat) rows1) as Hrows1.
  { unfold sumCols in Es.
    apply (rows_from_lengths (λ _, sumCols_cell)) in Es.
    clear -Es Hrows. induction Es as [|x' x l' l Hx _ IH]; [done|].
    inversion_clear Hrows. constructor; [lia|by apply IH]. }
  assert (length sumRow ≤ 13)%nat as Hsum.
  { unfold sumCols in Es. eapply sumCols_length; [exact Es|simpl; lia]. }
  intros Hf. unfold formatCols in Hf.
  apply (rows_from_lengths (λ rowIdx, formatCols_cell conf rowIdx)) in Hf.
  assert (Forall (λ row : array, (length row ≤ 13)%nat)
                 (rows1 ++ [footer conf sumRow])) as Hall.
  { apply Forall_app. split; [done|]. constructor; [|done]. by apply footer_length. }
  clear -Hf Hall. induction Hf as [|x' x l' l Hx _ IH]; [done|].
  inversion_clear Hall. constructor; [lia|by apply IH].
Qed.

End Lengths.

(** * The properties of the specification *)

Section Claims.
Context {rt : Runtime}.

(** C1 (as amended). A compression-stage call (a file name whose extension
    is [gz] or [br]) made after the primary-stage call for the same key, with
    no other call in between that records a source size for that key, stores
    in the [all_percent] slot its end size divided by the start size of the
    primary call: the raw source size of the [src] slot, not the size after
    minification. *)
Theorem C1_combined_ratio_over_source_size
    (tf : tracked) (p : data) (mid : list call) (e : data) (m : mapping) :
  fileExt_of (fileName p) ∉ compressionExt ++ ["map"] →
  fileExt_of (fileName e) ∈ compressionExt →
  srcFileName_of (fileName e) = fileName p →
  Forall (λ c : call,
            srcFileName_of (fileName c.1) = fileName p →
            fileExt_of (fileName c.1) ∉ compressionExt ++ ["map"] →
            "src" ∉ c.2.*1) mid →
  field (trackFiles ((p, primary_mapping) :: mid ++ [(e, m)]) tf)
        (fileName p) "all_percent"
  = VNum (num_div (endSize e) (startSize p)).
Proof.
  intros Hp He Hkey Hmid.
  unfold trackFiles. cbn [foldl]. rewrite foldl_app. cbn [foldl fst snd].
  rewrite <-Hkey at 1. rewrite trackFile_compression_all_percent by done.
  rewrite Hkey, arr_get_cell.
  fold (trackFiles mid (trackFile p primary_mapping tf)).
  rewrite trackFiles_keeps_src by done.
  by rewrite trackFile_primary_src.
Qed.


(** C3 (as amended). Columns are removed only when source maps are off: then
    the two source-map columns go; when moreover neither gzip nor brotli ran
    the compression columns and the combined percentage go; and when
    moreover minification did not run the two minification columns go, which
    leaves the file and raw size columns. With source maps on no column is
    removed. So a row of at most thirteen cells keeps its first [width conf]
    cells, the header of a printed summary is the first [width conf] labels,
    and for a tracker whose records have at most twelve slots every row of
    the printed summary is cut to its first [width conf] cells. *)
Theorem C3_visible_columns (conf : config) :
  take (width conf) tableHead
  = (if JS_SOURCEMAPS conf then tableHead
     else if BROTLI conf || GZIP conf then
       ["file"; "src"; "src_percent"; "uglify"; "gzipFile"; "gzip_percent";
        "gzip"; "brotliFile"; "brotli_percent"; "brotli"; "all_percent"]
     else if JS_UGLIFY conf then ["file"; "src"; "src_percent"; "uglify"]
     else ["file"; "src"])
  ∧ (∀ t : Table,
       Forall (λ row : array, (length row ≤ 13)%nat) (cells t) →
       cells (removeColumns conf t) = map (take (width conf)) (cells t))
  ∧ (∀ (tf : tracked) (t : Table),
       console (printJsSummary conf tf) = Ok t →
       head (cells t) = Some (take (width conf) header_row))
  ∧ (∀ (tf : tracked) (t : Table),
       slots_ok tf →
       console (printJsSummary conf tf) = Ok t →
       ∃ rows highLightRow,
         body conf tf = Ok (rows, highLightRow)
         ∧ cells t = map (take (width conf)) (header_row :: rows)).
Proof.
  split_and!.
  - by destruct conf as [[] [] [] []].
  - apply removeColumns_take.
  - intros tf t. rewrite printJsSummary_console.
    destruct (body conf tf) as [[rows hl]|]; [|done]. intros [= <-].
    rewrite removeColumns_cells. cbn [cells flat_map].
    by rewrite removeColumns_row.
  - intros tf t Hok. rewrite printJsSummary_console.
    destruct (body conf tf) as [[rows hl]|] eqn:Hbody; [|done]. intros [= <-].
    exists rows, hl. split; [done|].
    rewrite removeColumns_take; [done|]. cbn [cells].
    constructor; [done|]. by eapply body_lengths.
Qed.



(** C6 (as amended). A percentage cell that holds a nonzero number [y]
    shows the product [100 * (1 - y)] of the program through [toFixed(1)],
    followed by ["%"]: the difference and the product are those of binary64,
    each the binary64 number nearest to the exact one, and for a finite
    product [v] the text is [v] rounded to one decimal place (to the nearest
    tenth, a tie away from zero). The product [v] of a ratio [q] lies within
    [(1 + |q|) / 2 ^ 44] of [(1 - q) * 100]. A cell that is zero, undefined
    or [NaN] shows the empty text, and the ratio [1] shows ["0.0%"]. *)
Theorem C6_percent_text :
  (∀ y : number,
      fl y ≠ NaN → fl y ≠ Fin 0 →
      percent_text (VNum y) = toFixed 1 (savings_binary64 y) +:+ "%")
  ∧ (∀ (y : number) (v : Qc) (n : Z),
      fl y ≠ Fin 0 →
      savings_binary64 y = Fin v →
      magnitude v < pow10 21 →
      Qc_of_Z n - Q2Qc (1 # 2) ≤ magnitude v * Qc_of_Z 10 →
      magnitude v * Qc_of_Z 10 < Qc_of_Z n + Q2Qc (1 # 2) →
      percent_text (VNum y)
      = (if bool_decide (v < 0) then "-" else EmptyString)
        +:+ pretty (Z.to_N n `div` 10)%N +:+ "." +:+ pretty (Z.to_N n `mod` 10)%N
        +:+ "%")
  ∧ (∀ q v : Qc,
      savings_binary64 (Fin q) = Fin v →
      savings_percent q - (1 + magnitude q) * pow2 (-44) ≤ v
      ∧ v ≤ savings_percent q + (1 + magnitude q) * pow2 (-44))
  ∧ percent_text (VNum (Fin 0)) = EmptyString
  ∧ percent_text VUndef = EmptyString
  ∧ percent_text (VNum NaN) = EmptyString
  ∧ percent_text (VNum (Fin 1)) = "0.0%".
Proof.
  assert (∀ y : number, fl y ≠ NaN → fl y ≠ Fin 0 →
            percent_text (VNum y) = toFixed 1 (savings_binary64 y) +:+ "%") as Htext.
  { intros y Hnan Hzero. unfold percent_text, savings_binary64, held, ToBoolean, ToNumber.
    destruct (fl y) as [| | |q]; try done.
    rewrite bool_decide_false; [done|]. by intros ->. }
  split_and!; [exact Htext| | |by vm_compute..].
  - intros y v n Hzero Hv Hbig Hle Hlt.
    rewrite Htext; [|intros Hnan; revert Hv; unfold savings_binary64; by rewrite Hnan|done].
    rewrite Hv. unfold toFixed.
    rewrite (bool_decide_false (pow10 21 ≤ _)) by by apply Qclt_not_le.
    change (pow10 1) with (Qc_of_Z 10).
    rewrite (round_half_up_nearest _ n) by done.
    rewrite fixed_digits_1. by rewrite !string_app_assoc.
  - intros q v Hv. apply savings_binary64_near, Qabs_Qle_condition in Hv.
    assert (pow2 (-44) == 1 # 17592186044416)%Q as Hpow by reflexivity.
    pose proof (magnitude_Qabs q) as Hmag.
    unfold Qcle, Qcminus. cbn [this Qcplus Qcmult Qcopp Q2Qc].
    rewrite !Qred_correct. change (this 1) with 1%Q. rewrite Hpow, Hmag. split; lra.
Qed.

(** C7 (as amended). The key of a file name is the name without its last
    segment when that segment (what follows the last dot, or the whole name
    when there is no dot) is [gz], [br] or [map]: a name ending in [.gz],
    [.br] or [.map] loses that suffix, a name that has no such suffix and is
    none of the three words is its own key, and a name that is exactly one
    of the three words has the empty key. Hence the events of an asset that
    is its own key, whatever their stage, have the key of the asset. *)
Theorem C7_key_strips_last_known_segment :
  (∀ a e : string, e ∈ compressionExt ++ ["map"] →
     srcFileName_of (a +:+ "." +:+ e) = a)
  ∧ (∀ f : string,
       (∀ e, e ∈ compressionExt ++ ["map"] → f ≠ e ∧ ∀ a, f ≠ a +:+ "." +:+ e) →
       srcFileName_of f = f)
  ∧ (∀ e : string, e ∈ compressionExt ++ ["map"] → srcFileName_of e = EmptyString)
  ∧ (∀ a e : string, srcFileName_of a = a → e ∈ compressionExt ++ ["map"] →
       srcFileName_of (a +:+ "." +:+ e) = srcFileName_of a).
Proof.
  split_and!.
  - intros a e He. by apply srcFileName_of_known.
  - intros f Hf. apply srcFileName_of_unknown. intros He.
    destruct (Hf _ He) as [Hne Hsuf].
    destruct (fileExt_of_inv f) as [Heq|[a Heq]]; [done|]. by apply (Hsuf a).
  - intros e He. apply known_ext_iff in He. by destruct He as [->|[->| ->]].
  - intros a e Ha He. rewrite Ha. by apply srcFileName_of_known.
Qed.

(** C8 (as amended). A summary is not idempotent on the tracker: it prepends
    its key to every record of the object it reads, in place, and when it
    has printed it leaves [trackedFiles] empty, so that a second summary
    without new events is the summary of the empty tracker; the object is
    left as it was only when it had no record. *)
Theorem C8_summary_drains_the_tracker (conf : config) (tf : tracked) :
  drained (printJsSummary conf tf) = unshifted tf
  ∧ (unshifted tf = tf → tf = [])
  ∧ (∀ t, console (printJsSummary conf tf) = Ok t →
          trackedFiles_after (printJsSummary conf tf) = []
          ∧ printJsSummary conf (trackedFiles_after (printJsSummary conf tf))
            = printJsSummary conf []).
Proof.
  split_and!.
  - apply printJsSummary_drained.
  - destruct tf as [|[k a] tf]; [done|]. intros [= Ha _].
    apply (f_equal length) in Ha. simpl in Ha. lia.
  - intros t Ht. rewrite printJsSummary_after, Ht. done.
Qed.


(** C10. With no tracked file the summary prints (no exception): the table
    holds the header and the totals row only, the byte cells of the totals
    row are absent and its percentage cells are the empty text, and the
    tracker stays empty. *)
Theorem C10_empty_tracker (conf : config) :
  ∃ t : Table,
    printJsSummary conf [] = mkPrinted (Ok t) [] []
    ∧ cells t = [take (width conf) header_row; take (width conf) blank_totals]
    ∧ (∀ i, i ∈ byteCols → cell blank_totals i = None)
    ∧ (∀ i, i ∈ percentCols → cell blank_totals i = Some (VStr EmptyString)).
Proof.
  destruct (printJsSummary_empty conf) as (t & Ht & Hcells).
  exists t. split_and!; [done|done| |].
  - intros i. unfold byteCols. rewrite !elem_of_cons, elem_of_nil.
    by intros [->|[->|[->|[->|[->|[]]]]]].
  - intros i Hi%percentCols_iff. by destruct Hi as [->|[->|[->| ->]]].
Qed.

End Claims.

(** * Further facts about the model *)

(** ** Writes of [trackFile] *)
Section WriteFacts.
Context {rt : Runtime}.

Lemma array_eq_cells (a b : array) :
  length a = length b → (∀ j, cell a j = cell b j) → a = b.
Proof.
  intros Hlen Hcell. apply list_eq. intros i.
  specialize (Hcell i). unfold cell in Hcell.
  destruct (a !! i) as [x|] eqn:Ha, (b !! i) as [y|] eqn:Hb.
  - destruct x, y; congruence.
  - apply lookup_lt_Some in Ha. apply lookup_ge_None in Hb. lia.
  - apply lookup_lt_Some in Hb. apply lookup_ge_None in Ha. lia.
  - done.
Qed.

Lemma write_col_cell d (fd : array) entry j :
  cell (write_col d fd entry) j
  = if bool_decide (slot_of entry.1 = Some j) then Some (data_get d entry.2)
    else cell fd j.
Proof.
  unfold write_col, slot_of.
  destruct (index_of entry.1 trackTable_cols) as [[|i]|].
  - by rewrite bool_decide_eq_false_2.
  - destruct (decide (i = j)) as [->|].
    + by rewrite bool_decide_eq_true_2, cell_arr_set_eq.
    + rewrite bool_decide_eq_false_2 by congruence. by apply cell_arr_set_ne.
  - by rewrite bool_decide_eq_false_2.
Qed.

Lemma write_cols_cell d (m : mapping) (fd : array) j :
  cell (foldl (write_col d) fd m) j
  = match written d m j with
    | Some v => Some v
    | None => cell fd j
    end.
Proof.
  revert fd. induction m as [|entry m IH]; intros fd; [done|].
  cbn [foldl written]. rewrite IH.
  destruct (written d m j); [done|]. rewrite write_col_cell.
  by destruct (bool_decide (slot_of entry.1 = Some j)).
Qed.

Lemma write_col_reach d (fd : array) entry :
  length (write_col d fd entry)
  = (length fd `max` match slot_of entry.1 with Some j => S j | None => 0 end)%nat.
Proof.
  unfold write_col, slot_of.
  destruct (index_of entry.1 trackTable_cols) as [[|i]|]; [lia| |lia].
  apply arr_set_length.
Qed.

Lemma write_cols_reach d (m : mapping) (fd : array) :
  length (foldl (write_col d) fd m) = (length fd `max` reach m)%nat.
Proof.
  revert fd. induction m as [|entry m IH]; intros fd; cbn [foldl reach]; [lia|].
  rewrite IH, write_col_reach. lia.
Qed.

Lemma write_cols_again d (m : mapping) (fd : array) :
  foldl (write_col d) (foldl (write_col d) fd m) m = foldl (write_col d) fd m.
Proof.
  apply array_eq_cells.
  - rewrite !write_cols_reach. lia.
  - intros j. rewrite !write_cols_cell. by destruct (written d m j).
Qed.

Lemma obj_update_same k a (o : tracked) :
  obj_get o k = Some a → obj_update k a o = o.
Proof.
  induction o as [|[k' a'] o IH]; [done|]. cbn [obj_get obj_update].
  destruct (bool_decide_reflect (k' = k)); [congruence|].
  intros H. by rewrite IH.
Qed.

Lemma obj_set_again k a (o : tracked) :
  obj_set k a (obj_set k a o) = obj_set k a o.
Proof.
  unfold obj_set at 1. rewrite obj_get_set_eq. apply obj_update_same, obj_get_set_eq.
Qed.




Lemma trackFile_obj_set d m (tf : tracked) :
  trackFile d m tf
  = obj_set (srcFileName_of (fileName d))
            (record_of (trackFile d m tf) (srcFileName_of (fileName d))) tf.
Proof.
  unfold record_of, trackFile.
  destruct (stage_of _ _ d m). by rewrite obj_get_set_eq.
Qed.

Lemma stage_of_again ext (fd : array) d m :
  stage_of ext (foldl (write_col (stage_of ext fd d m).1) fd (stage_of ext fd d m).2) d m
  = stage_of ext fd d m.
Proof.
  unfold stage_of.
  repeat (case_bool_decide; [try done|]); [| |done]; cbn [fst snd];
    rewrite !arr_get_cell, write_cols_cell; reflexivity.
Qed.

Lemma stage_of_known ext (fd : array) d m m' :
  ext ∈ compressionExt ++ ["map"] → stage_of ext fd d m = stage_of ext fd d m'.
Proof.
  intros [->|[->| ->]]%known_ext_iff; reflexivity.
Qed.

Lemma stage_of_unknown ext (fd : array) d m :
  ext ∉ compressionExt ++ ["map"] →
  stage_of ext fd d m
  = (d, if bool_decide (ext = "js") then mapping_set "all_percent" "percent" m else m).
Proof.
  rewrite known_ext_iff. intros Hext. unfold stage_of.
  case_bool_decide; [done|].
  rewrite !bool_decide_eq_false_2; [done|intros ->; tauto..].
Qed.

Lemma trackFile_record_unknown d m (tf : tracked) :
  fileExt_of (fileName d) ∉ compressionExt ++ ["map"] →
  record_of (trackFile d m tf) (fileName d)
  = foldl (write_col d) (record_of tf (fileName d))
          (if bool_decide (fileExt_of (fileName d) = "js")
           then mapping_set "all_percent" "percent" m else m).
Proof.
  intros Hext. pose proof (trackFile_record d m tf) as H.
  rewrite stage_of_unknown in H by done.
  by rewrite (srcFileName_of_unknown (fileName d) Hext) in H.
Qed.

Lemma obj_get_trackFile d m (tf : tracked) k :
  obj_get (trackFile d m tf) k
  = if bool_decide (srcFileName_of (fileName d) = k)
    then Some (record_of (trackFile d m tf) (srcFileName_of (fileName d)))
    else obj_get tf k.
Proof.
  rewrite (trackFile_obj_set d m tf) at 1. case_bool_decide as Hk.
  - rewrite <- Hk. apply obj_get_set_eq.
  - by apply obj_get_set_ne.
Qed.



End WriteFacts.

(** The slots of the columns of a mapping, computed. *)
Ltac slots :=
  cbn [written fst snd];
  repeat match goal with
         | |- context [slot_of ?c] =>
             let v := eval vm_compute in (slot_of c) in
             change (slot_of c) with v
         end.


(** ** Formatting *)
Section FormatFacts.
Context {rt : Runtime}.

Lemma cell_cons_0 c (x : array) : cell (c :: x) 0 = c.
Proof. unfold cell. cbn. by destruct c. Qed.

Lemma cell_cons_S c (x : array) j : cell (c :: x) (S j) = cell x j.
Proof. done. Qed.

Lemma sumCols_returns r (rows : list array) (acc : array) :
  ∃ acc', rows_from (λ x _, map_from sumCols_cell 0 x) r rows acc = Ok (rows, acc').
Proof.
  revert r acc. induction rows as [|x rows IH]; intros r acc; [by eexists|].
  rewrite rows_from_cons.
  destruct (sumCols_row 0 x acc) as (acc1 & -> & _).
  destruct (IH (S r) acc1) as (acc2 & ->). by eexists.
Qed.

Lemma formatCols_cell_shown conf r y i hl :
  formatCols_cell conf r y i hl
  = match shown conf i y with
    | Some y' =>
        Ok (y', if includes_nat byteCols i then hl
                else if includes_nat percentCols i
                     then highLight_push (classify conf i y)
                            (default EmptyString (tableHead !! i)) r hl
                     else hl)
    | None => TypeError
    end.
Proof.
  unfold formatCols_cell, shown.
  destruct (includes_nat byteCols i); [by destruct (prettyBytes y)|].
  by destruct (includes_nat percentCols i).
Qed.


Lemma format_row_returns conf r k (x : array) hl :
  (∀ j y, cell x j = Some y → is_Some (shown conf (k + j) y)) →
  ∃ x' hl', map_from (formatCols_cell conf r) k x hl = Ok (x', hl').
Proof.
  revert k hl. induction x as [|[y|] x IH]; intros k hl Hx.
  - by eexists _, _.
  - rewrite map_from_cons, formatCols_cell_shown.
    destruct (Hx 0%nat y) as [y' Hy]; [by rewrite cell_cons_0|].
    rewrite Nat.add_0_r in Hy. rewrite Hy.
    edestruct (IH (S k)) as (x' & hl' & ->); [|by eexists _, _].
    intros j v Hj. replace (S k + j)%nat with (k + S j)%nat by lia. by apply Hx.
  - rewrite map_from_hole.
    edestruct (IH (S k)) as (x' & hl' & ->); [|by eexists _, _].
    intros j v Hj. replace (S k + j)%nat with (k + S j)%nat by lia. by apply Hx.
Qed.

Lemma format_row_throws conf r k (x : array) hl j y :
  cell x j = Some y → shown conf (k + j) y = None →
  map_from (formatCols_cell conf r) k x hl = TypeError.
Proof.
  revert k hl j. induction x as [|[v|] x IH]; intros k hl j; [done| |].
  - destruct j as [|j].
    + rewrite cell_cons_0, Nat.add_0_r. intros [= ->] Hy.
      by rewrite map_from_cons, formatCols_cell_shown, Hy.
    + rewrite cell_cons_S. intros Hj Hy.
      rewrite map_from_cons. destruct (formatCols_cell conf r v k hl) as [[??]|]; [|done].
      erewrite IH; [done|exact Hj|].
      by replace (S k + j)%nat with (k + S j)%nat by lia.
  - destruct j as [|j]; [by rewrite cell_cons_0|].
    rewrite cell_cons_S. intros Hj Hy. rewrite map_from_hole.
    erewrite IH; [done|exact Hj|].
    by replace (S k + j)%nat with (k + S j)%nat by lia.
Qed.


Lemma format_rows_returns conf r (rows : list array) hl :
  Forall (λ x : array, ∀ j y, cell x j = Some y → is_Some (shown conf j y)) rows →
  ∃ out hl',
    rows_from (λ x rowIdx, map_from (formatCols_cell conf rowIdx) 0 x) r rows hl
    = Ok (out, hl').
Proof.
  revert r hl. induction rows as [|x rows IH]; intros r hl Hrows; [by eexists _, _|].
  apply Forall_cons in Hrows as [Hx Hrows]. rewrite rows_from_cons.
  destruct (format_row_returns conf r 0 x hl Hx) as (x' & hl1 & ->).
  destruct (IH (S r) hl1 Hrows) as (out & hl2 & ->). by eexists _, _.
Qed.

Lemma format_rows_throws conf r (rows : list array) hl x j y :
  x ∈ rows → cell x j = Some y → shown conf j y = None →
  rows_from (λ x rowIdx, map_from (formatCols_cell conf rowIdx) 0 x) r rows hl = TypeError.
Proof.
  intros Hin Hj Hy. revert r hl.
  induction rows as [|x0 rows IH]; intros r hl; [inversion Hin|].
  rewrite rows_from_cons. apply elem_of_cons in Hin as [<-|Hin].
  - by rewrite (format_row_throws conf r 0 x hl j y).
  - destruct (map_from _ 0 x0 hl) as [[??]|]; [|done]. by rewrite IH.
Qed.

Lemma shown_finite conf i q :
  (∀ q, is_Some (prettyBytes (VNum (Fin q)))) → is_Some (shown conf i (VNum (Fin q))).
Proof.
  intros Hpb. unfold shown. destruct (includes_nat byteCols i).
  - destruct (Hpb q) as [text ->]. by eexists.
  - destruct (includes_nat percentCols i); by eexists.
Qed.

Lemma shown_bytes_ok conf (x : array) :
  (∀ q, is_Some (prettyBytes (VNum (Fin q)))) →
  (∀ i v, i ∈ byteCols → cell x i = Some v → ∃ q, v = VNum (Fin q)) →
  ∀ j y, cell x j = Some y → is_Some (shown conf j y).
Proof.
  intros Hpb Hx j y Hj.
  destruct (decide (j ∈ byteCols)) as [Hb|Hb].
  - destruct (Hx j y Hb Hj) as [q ->]. by apply shown_finite.
  - unfold shown. rewrite (includes_nat_false _ _ Hb).
    destruct (includes_nat percentCols j); by eexists.
Qed.

End FormatFacts.

(** ** Highlights *)
Section HighlightFacts.
Context {rt : Runtime}.










End HighlightFacts.

(** ** The attributes of the table *)
Section AttrFacts.
Context {rt : Runtime}.










End AttrFacts.

(** ** The sort *)
Section StableFacts.
Context {rt : Runtime}.

Lemma sort_insert_filter col q x (l : list array) :
  has_key col x → Forall (has_key col) l →
  filter (λ r, sort_key col r = q) (sort_insert (compareFn col) x l)
  = filter (λ r, sort_key col r = q) (x :: l).
Proof.
  intros Hx Hl. induction Hl as [|y l Hy Hl IH]; [done|].
  cbn [sort_insert]. rewrite compareFn_keys by done.
  case_bool_decide as Hlt; [|done].
  rewrite filter_cons, IH, !filter_cons.
  destruct (decide (sort_key col y = q)) as [Hyq|Hyq]; [|done].
  destruct (decide (sort_key col x = q)) as [Hxq|Hxq]; [|done].
  exfalso. rewrite Hyq, Hxq in Hlt. by apply Qclt_not_eq in Hlt.
Qed.

Lemma sort_has_key col (l : list array) :
  Forall (has_key col) l → Forall (has_key col) (sort (compareFn col) l).
Proof. intros H. by rewrite sort_perm. Qed.

End StableFacts.

(** ** Totals *)
Section TotalsFacts.
Context {rt : Runtime}.

Lemma bytes_ok_perm (rows rows' : list array) :
  rows ≡ₚ rows' → bytes_ok rows → bytes_ok rows'.
Proof. intros Hp. unfold bytes_ok. by rewrite Hp. Qed.

Lemma sum_list_perm (qs qs' : list Qc) : qs ≡ₚ qs' → sum_list qs = sum_list qs'.
Proof.
  unfold sum_list.
  induction 1 as [|q qs qs' _ IH|q1 q2 qs|qs1 qs2 qs3 _ IH1 _ IH2]; cbn [foldr].
  - done.
  - by rewrite IH.
  - ring.
  - congruence.
Qed.

Lemma column_total_perm i (rows rows' : list array) :
  rows ≡ₚ rows' → column_total i rows = column_total i rows'.
Proof.
  intros Hp. unfold column_total.
  assert (column i rows ≡ₚ column i rows') as Hc by (unfold column; by rewrite Hp).
  destruct (column i rows) as [|q qs] eqn:H1, (column i rows') as [|q' qs'] eqn:H2.
  - done.
  - by apply Permutation_nil_l in Hc.
  - by apply Permutation_nil_r in Hc.
  - by rewrite (sum_list_perm _ _ Hc).
Qed.

Lemma footer_cells_ext conf (a b : array) :
  (∀ j, cell a j = cell b j) → ∀ j, cell (footer conf a) j = cell (footer conf b) j.
Proof.
  intros Hab j.
  destruct (footer_cells conf a) as (Ha2 & Ha5 & Ha8 & Ha10 & Ha).
  destruct (footer_cells conf b) as (Hb2 & Hb5 & Hb8 & Hb10 & Hb).
  assert (∀ j, arr_get a j = arr_get b j) as Hget
    by (intros j'; by rewrite !arr_get_cell, Hab).
  destruct (decide (j ∈ percentCols)) as [Hj|Hj].
  - apply percentCols_iff in Hj as [->|[->|[->| ->]]].
    + by rewrite Ha2, Hb2, !Hget.
    + by rewrite Ha5, Hb5, !Hget.
    + by rewrite Ha8, Hb8, !Hget.
    + by rewrite Ha10, Hb10, !Hget.
  - by rewrite Ha, Hb.
Qed.

Lemma totals_cells conf (rows : list array) :
  bytes_ok rows →
  ∃ sumRow, totals conf rows = Ok (rows, footer conf sumRow)
    ∧ ∀ j, cell sumRow j = if includes_nat byteCols j then column_total j rows else None.
Proof.
  intros Hok. destruct (sumCols_totals rows Hok) as (sumRow & Hsum & Hb & Hn).
  exists sumRow. unfold totals. rewrite Hsum. split; [done|].
  intros j. destruct (decide (j ∈ byteCols)) as [Hj|Hj].
  - rewrite (includes_nat_true _ _ Hj). auto.
  - rewrite (includes_nat_false _ _ Hj). auto.
Qed.

Lemma totals_returns conf (rows : list array) :
  ∃ sumRow, totals conf rows = Ok (rows, sumRow).
Proof.
  unfold totals, sumCols. destruct (sumCols_returns 0 rows []) as [acc ->]. by eexists.
Qed.

End TotalsFacts.

(** ** The sizes of a pass *)
Section PassFacts.
Context {rt : Runtime}.

Lemma written_Some d (m : mapping) j v :
  written d m j = Some v →
  ∃ entry, entry ∈ m ∧ slot_of entry.1 = Some j ∧ v = data_get d entry.2.
Proof.
  induction m as [|entry m IH]; [done|]. cbn [written].
  destruct (written d m j) as [v'|].
  - intros [= ->]. destruct IH as (e & He & Hslot & Hv); [done|].
    exists e. split; [by right|done].
  - case_bool_decide as Hslot; [|done]. intros [= <-].
    exists entry. split; [left|done].
Qed.

Lemma mapping_set_elem col f (m : mapping) entry :
  entry ∈ mapping_set col f m → entry = (col, f) ∨ entry ∈ m.
Proof.
  induction m as [|[c f'] m IH]; cbn [mapping_set].
  - intros ->%list_elem_of_singleton. by left.
  - case_bool_decide as Hc.
    + intros [->|Hin]%elem_of_cons; [left; by rewrite Hc|right; by right].
    + intros [->|Hin]%elem_of_cons; [right; left|].
      destruct (IH Hin) as [->|?]; [by left|right; by right].
Qed.

Lemma stage_of_sizes ext (fd : array) d m :
  sizes_to_size_columns m → sizes_to_size_columns (stage_of ext fd d m).2.
Proof.
  intros Hm. unfold stage_of.
  assert (∀ m' : mapping,
            Forall (λ entry, ∀ j, slot_of entry.1 = Some j → S j ∈ byteCols →
                            entry.2 = "startSize" ∨ entry.2 = "endSize") m' →
            sizes_to_size_columns m') as Hall.
  { intros m' Hm' entry j Hin. rewrite Forall_forall in Hm'. by apply Hm'. }
  repeat case_bool_decide; cbn [snd]; try done.
  - intros entry j [->|Hin]%mapping_set_elem; [|by apply Hm].
    slots. intros [= <-]. unfold byteCols. rewrite !elem_of_cons, elem_of_nil. lia.
  - apply Hall. unfold map_stage_mapping.
    repeat (apply Forall_cons_2;
              [intros j; slots; intros [= <-]; unfold byteCols;
               rewrite !elem_of_cons, elem_of_nil; first [by right | lia]|]).
    apply Forall_nil_2.
  - apply Hall. unfold gzip_stage_mapping.
    repeat (apply Forall_cons_2;
              [intros j; slots; intros [= <-]; unfold byteCols;
               rewrite !elem_of_cons, elem_of_nil; first [by right | lia]|]).
    apply Forall_nil_2.
  - apply Hall. unfold brotli_stage_mapping.
    repeat (apply Forall_cons_2;
              [intros j; slots; intros [= <-]; unfold byteCols;
               rewrite !elem_of_cons, elem_of_nil; first [by right | lia]|]).
    apply Forall_nil_2.
Qed.

Lemma stage_of_finite ext (fd : array) d m f :
  f = "startSize" ∨ f = "endSize" →
  data_get (stage_of ext fd d m).1 f = data_get d f.
Proof.
  intros Hf. unfold stage_of.
  repeat case_bool_decide; cbn [fst]; try done; by destruct Hf as [-> | ->].
Qed.

Lemma data_get_size d f :
  is_finite (startSize d) = true → is_finite (endSize d) = true →
  f = "startSize" ∨ f = "endSize" → ∃ q, data_get d f = VNum (Fin q).
Proof.
  intros Hs He [-> | ->].
  - change (data_get d "startSize") with (VNum (startSize d)).
    destruct (startSize d); try done. by eexists.
  - change (data_get d "endSize") with (VNum (endSize d)).
    destruct (endSize d); try done. by eexists.
Qed.

Lemma trackFile_sizes_ok d m (tf : tracked) :
  is_finite (startSize d) = true → is_finite (endSize d) = true →
  sizes_to_size_columns m → sizes_ok tf → sizes_ok (trackFile d m tf).
Proof.
  intros Hs He Hm Htf.
  rewrite trackFile_obj_set. apply obj_set_Forall; [done|]. cbn [snd].
  intros j v Hj. rewrite trackFile_record, write_cols_cell.
  destruct (written _ _ j) as [v'|] eqn:Hw.
  - intros [= <-]. apply written_Some in Hw as (entry & Hin & Hslot & ->).
    pose proof (stage_of_sizes _ _ d m Hm entry j Hin Hslot Hj) as Hf.
    rewrite stage_of_finite by done. by apply data_get_size.
  - unfold record_of.
    destruct (obj_get tf (srcFileName_of (fileName d))) as [a|] eqn:Ha; [|done].
    cbn [default]. by apply (obj_get_Forall _ _ _ _ Htf Ha).
Qed.

Lemma task_mapping_sizes (m : mapping) :
  m ∈ [primary_mapping; gzipAssets_mapping; brotliAssets_mapping] →
  sizes_to_size_columns m.
Proof.
  rewrite !elem_of_cons, elem_of_nil. intros Hm entry j Hin.
  assert (Forall (λ entry : string * string,
                    ∀ j, slot_of entry.1 = Some j → S j ∈ byteCols →
                         entry.2 = "startSize" ∨ entry.2 = "endSize") m) as Hall.
  { destruct Hm as [->|[->|[->|[]]]];
      repeat (apply Forall_cons_2;
                [intros j'; slots; intros [= <-]; unfold byteCols;
                 rewrite !elem_of_cons, elem_of_nil; first [by left | by right | lia]|]);
      apply Forall_nil_2. }
  rewrite Forall_forall in Hall. by apply Hall.
Qed.

Lemma trackFiles_sizes_ok (calls : list call) (tf : tracked) :
  Forall task_call calls → sizes_ok tf → sizes_ok (trackFiles calls tf).
Proof.
  intros Hcalls. revert tf.
  induction Hcalls as [|[d m] calls (Hs & He & Hm) _ IH]; intros tf Htf; [done|].
  apply IH. apply trackFile_sizes_ok; [done..|by apply task_mapping_sizes|done].
Qed.

Lemma trackFiles_own_keys (calls : list call) (tf : tracked) k :
  Forall own_key calls → k ∈ Object_prototype →
  obj_get tf k = None → obj_get (trackFiles calls tf) k = None.
Proof.
  intros Hcalls Hk. revert tf.
  induction Hcalls as [|[d m] calls Hown _ IH]; intros tf Htf; [done|].
  apply IH. rewrite obj_get_trackFile, bool_decide_eq_false_2; [done|].
  intros Heq. apply Hown. unfold own_key. cbn [fst] in *. by rewrite Heq.
Qed.

Lemma sizes_ok_bytes_ok (tf : tracked) : sizes_ok tf → bytes_ok (tableData_of tf).
Proof.
  intros Htf. unfold bytes_ok, tableData_of. apply Forall_map.
  eapply Forall_impl; [exact Htf|]. intros [k a] Ha i v Hi. cbn [fst snd] in *.
  destruct i as [|j].
  - exfalso. revert Hi. unfold byteCols. rewrite !elem_of_cons, elem_of_nil. lia.
  - unfold unshift. rewrite cell_cons_S. by apply Ha.
Qed.

Lemma body_returns conf (tf : tracked) :
  bytes_ok (tableData_of tf) →
  (∀ q, is_Some (prettyBytes (VNum (Fin q)))) →
  ∃ rows hl, body conf tf = Ok (rows, hl).
Proof.
  intros Hok Hpb. unfold body.
  assert (bytes_ok (sort (compareFn (sortCol conf)) (tableData_of tf))) as Hsorted
    by (eapply bytes_ok_perm; [symmetry; apply sort_perm|done]).
  destruct (totals_cells conf _ Hsorted) as (sumRow & -> & Hsum).
  apply format_rows_returns. apply Forall_app. split.
  - eapply Forall_impl; [exact Hsorted|]. intros x Hx. by apply shown_bytes_ok.
  - constructor; [|constructor]. apply shown_bytes_ok; [done|].
    intros i v Hi. destruct (footer_cells conf sumRow) as (_ & _ & _ & _ & Hrest).
    rewrite Hrest, Hsum, (includes_nat_true _ _ Hi).
    + unfold column_total. destruct (column i _); [done|]. intros [= <-]. by eexists.
    + intros Hp. revert Hi. apply percentCols_iff in Hp. unfold byteCols.
      rewrite !elem_of_cons, elem_of_nil. lia.
Qed.

End PassFacts.

(** ** Configuration objects *)
Section ConfFacts.

Lemma mergeConf_object own confDefault :
  mergeConf (CObj own) confDefault = CObj <$> merge_turns (CObj own) confDefault own.
Proof.
  cbn [mergeConf]. f_equal.
  match goal with
  | |- ?each own = _ =>
      assert (∀ ps, each ps = merge_turns (CObj own) confDefault ps) as Heach; [|apply Heach]
  end.
  induction ps as [|[k v] ps IH]; [done|].
  cbn [merge_turns]. rewrite <- IH. unfold merge_turn.
  destruct (own_property (CObj own) k) as [[u|]|]; [|reflexivity..].
  cbn [mbind result_bind].
  destruct (own_property confDefault k) as [[dv|]|]; reflexivity.
Qed.

Lemma conf_value_induction (P : conf_value → Prop) :
  P CUndef → P CNull → (∀ b, P (CBool b)) → (∀ n, P (CNum n)) → (∀ s, P (CStr s)) →
  (∀ own, Forall (λ e : string * conf_value, P e.2) own → P (CObj own)) →
  ∀ v, P v.
Proof.
  intros Hu Hn Hb Hnum Hs Ho.
  fix IH 1. intros [| |b|n|s|own];
    [exact Hu|exact Hn|apply Hb|apply Hnum|apply Hs|apply Ho].
  induction own as [|[k v] own IHown]; constructor; [apply IH|exact IHown].
Qed.

Lemma distinct_keys_object own :
  distinct_keys (CObj own) ↔ NoDup own.*1 ∧ Forall (λ e : string * conf_value, distinct_keys e.2) own.
Proof.
  cbn [distinct_keys]. apply and_iff_compat_l.
  induction own as [|e own IH]; [split; [constructor|done]|].
  rewrite Forall_cons, IH. done.
Qed.

Lemma prop_get_Some (o : props) k v : prop_get o k = Some v → (k, v) ∈ o.
Proof.
  induction o as [|[k' v'] o IH]; [done|]. cbn [prop_get].
  destruct (bool_decide_reflect (k' = k)) as [->|]; intros H.
  - injection H as ->. left.
  - right. auto.
Qed.

Lemma prop_get_None (o : props) k : prop_get o k = None ↔ k ∉ o.*1.
Proof.
  induction o as [|[k' v'] o IH]; cbn [prop_get fmap list_fmap fst].
  - split; [intros _; apply not_elem_of_nil|done].
  - rewrite not_elem_of_cons. destruct (bool_decide_reflect (k' = k)) as [->|]; [split; [done|tauto]|].
    rewrite IH. split; [intros; split; congruence|tauto].
Qed.

Lemma prop_get_NoDup (o : props) k v : NoDup o.*1 → (k, v) ∈ o → prop_get o k = Some v.
Proof.
  induction o as [|[k' v'] o IH]; [intros _ H; inversion H|].
  cbn [fmap list_fmap fst]. intros [Hk' Ho]%NoDup_cons [Heq|Hin]%elem_of_cons; cbn [prop_get].
  - injection Heq as <- <-. rewrite bool_decide_eq_true_2; done.
  - rewrite bool_decide_eq_false_2; [auto|].
    intros ->. apply Hk'. apply (list_elem_of_fmap_2 fst) in Hin. exact Hin.
Qed.

(** What [hasOwnProperty] does on an object depends on the names of its
    properties only. *)
Lemma hides_hasOwnProperty_names (own own' : props) :
  own'.*1 = own.*1 → hides_hasOwnProperty own' = hides_hasOwnProperty own.
Proof.
  intros Hnames. unfold hides_hasOwnProperty.
  destruct (prop_get own "hasOwnProperty") eqn:E, (prop_get own' "hasOwnProperty") eqn:E';
    try done.
  - apply prop_get_None in E'. rewrite Hnames in E'. apply prop_get_None in E'. congruence.
  - apply prop_get_None in E. rewrite <- Hnames in E. apply prop_get_None in E. congruence.
Qed.

Lemma own_property_names (own own' : props) k :
  own'.*1 = own.*1 →
  match own_property (CObj own) k with
  | TypeError => own_property (CObj own') k = TypeError
  | Ok None => own_property (CObj own') k = Ok None
  | Ok (Some _) => ∃ w, own_property (CObj own') k = Ok (Some w)
  end.
Proof.
  intros Hnames. cbn [own_property].
  rewrite (hides_hasOwnProperty_names own own' Hnames).
  destruct (hides_hasOwnProperty own); [done|].
  destruct (prop_get own k) eqn:E, (prop_get own' k) eqn:E'; try done.
  - by eexists.
  - apply prop_get_None in E'. rewrite Hnames in E'. apply prop_get_None in E'. congruence.
  - apply prop_get_None in E. rewrite <- Hnames in E. apply prop_get_None in E. congruence.
Qed.

Lemma own_property_plain (own : props) k :
  hides_hasOwnProperty own = false → own_property (CObj own) k = Ok (prop_get own k).
Proof. intros H. cbn [own_property]. by rewrite H. Qed.

Lemma own_property_Ok (own : props) k o :
  own_property (CObj own) k = Ok o → o = prop_get own k.
Proof. cbn [own_property]. destruct (hides_hasOwnProperty own); congruence. Qed.

Lemma plain_object own :
  plain (CObj own) = true
  ↔ hides_hasOwnProperty own = false ∧ Forall (λ e : string * conf_value, plain e.2 = true) own.
Proof.
  cbn [plain]. rewrite andb_true_iff, negb_true_iff, forallb_forall, Forall_forall.
  apply and_iff_compat_l. split; intros H e He; apply H; by apply list_elem_of_In.
Qed.

Lemma merge_turns_Ok u d (ps r : props) :
  merge_turns u d ps = Ok r →
  Forall2 (λ e e' : string * conf_value, e'.1 = e.1 ∧ merge_turn u d e.1 e.2 = Ok e'.2) ps r.
Proof.
  revert r. induction ps as [|[k v] ps IH]; intros r; cbn [merge_turns].
  - intros [= <-]. constructor.
  - destruct (merge_turn u d k v) as [v'|] eqn:Hv; [|done]. cbn.
    destruct (merge_turns u d ps) as [r'|]; [|done]. cbn. intros [= <-].
    constructor; [done|auto].
Qed.

Lemma merge_turns_all u d (ps r : props) :
  Forall2 (λ e e' : string * conf_value, e'.1 = e.1 ∧ merge_turn u d e.1 e.2 = Ok e'.2) ps r →
  merge_turns u d ps = Ok r.
Proof.
  induction 1 as [|[k v] [k' v'] ps r [Hk Hv] _ IH]; [done|].
  cbn in Hk, Hv. subst k'. cbn [merge_turns]. rewrite Hv, IH. done.
Qed.

Lemma merge_turns_TypeError u d (ps : props) k v :
  (k, v) ∈ ps → merge_turn u d k v = TypeError → merge_turns u d ps = TypeError.
Proof.
  induction ps as [|[k' v'] ps IH]; [intros H; inversion H|].
  intros [[= <- <-]|Hin]%elem_of_cons Hv; cbn [merge_turns].
  - rewrite Hv. done.
  - destruct (merge_turn u d k' v'); [|done]. cbn. rewrite IH; done.
Qed.

Lemma merge_turns_names u d (ps r : props) :
  merge_turns u d ps = Ok r → r.*1 = ps.*1.
Proof.
  intros Hr%merge_turns_Ok.
  induction Hr as [|[k v] [k' v'] ps r [Hk _] _ IH]; [done|].
  cbn in Hk. subst k'. cbn [fmap list_fmap fst]. cbn [fmap] in IH. by rewrite IH.
Qed.

(** A turn that returns, for a property that the user object has. *)
Lemma merge_turn_Ok own d k v v0 v' :
  prop_get own k = Some v0 →
  merge_turn (CObj own) d k v = Ok v' →
  ∃ o, own_property d k = Ok o
       ∧ match o with
         | None => v' = v
         | Some dv =>
             (if is_object v && is_object dv then mergeConf v dv
              else if is_undefined v then Ok dv
              else Ok v) = Ok v'
         end.
Proof.
  intros Hk. unfold merge_turn. cbn [own_property].
  destruct (hides_hasOwnProperty own); [done|]. rewrite Hk. cbn [mbind result_bind].
  destruct (own_property d k) as [[dv|]|]; cbn [mbind result_bind]; [| |done].
  - intros H. by exists (Some dv).
  - intros [= <-]. by exists None.
Qed.

Lemma mergeConf_is_object u d r :
  mergeConf u d = Ok r → is_object r = is_object u.
Proof.
  destruct u as [| |b|n|s|own]; try (intros [= <-]; done).
  - cbn [mergeConf]. case_bool_decide; [intros [= <-]; done|].
    destruct (own_property d "0"); [intros [= <-]; done|done].
  - rewrite mergeConf_object.
    destruct (merge_turns (CObj own) d own); [intros [= <-]; done|done].
Qed.

End ConfFacts.

Section ConfMerge.

Lemma mergeConf_lookup u d ps r k :
  merge_turns u d ps = Ok r →
  match prop_get ps k with
  | None => prop_get r k = None
  | Some v => ∃ v', prop_get r k = Some v' ∧ merge_turn u d k v = Ok v'
  end.
Proof.
  intros H%merge_turns_Ok.
  induction H as [|[k1 v1] [k2 v2] ps r [Hk Hv] _ IH]; [done|].
  cbn in Hk, Hv. subst k2. cbn [prop_get].
  destruct (bool_decide_reflect (k1 = k)) as [->|]; [|exact IH].
  exists v2. done.
Qed.

Lemma mergeConf_total u : ∀ d,
  null_free (CObj d) = true → plain (CObj d) = true → plain u = true →
  ∃ r, mergeConf u (CObj d) = Ok r.
Proof.
  induction u as [| |b|n|s|own IH] using conf_value_induction; intros d Hd Hpd Hpu;
    try (eexists; reflexivity).
  - apply plain_object in Hpd as [Hhd _].
    cbn [mergeConf]. rewrite own_property_plain by done.
    case_bool_decide; eexists; reflexivity.
  - rewrite mergeConf_object.
    apply plain_object in Hpu as [Hhu Hpu].
    assert (∀ ps, Forall (λ e : string * conf_value,
                            ∀ d, null_free (CObj d) = true → plain (CObj d) = true →
                                 plain e.2 = true → ∃ r, mergeConf e.2 (CObj d) = Ok r) ps →
                  Forall (λ e : string * conf_value, plain e.2 = true) ps →
                  ∃ r, merge_turns (CObj own) (CObj d) ps = Ok r) as Hturns.
    { clear IH Hpu. intros ps IH Hps.
      induction IH as [|[k v] ps Hv _ IHps]; [eexists; reflexivity|].
      apply Forall_cons in Hps as [Hpv Hps].
      cbn [merge_turns]. destruct (IHps Hps) as [r ->].
      assert (∃ v', merge_turn (CObj own) (CObj d) k v = Ok v') as [v' ->];
        [|eexists; reflexivity].
      pose proof Hpd as [Hhd Hpds]%plain_object.
      unfold merge_turn. rewrite (own_property_plain own) by done. cbn [mbind result_bind].
      destruct (prop_get own k); [|eexists; reflexivity].
      rewrite (own_property_plain d) by done. cbn [mbind result_bind].
      destruct (prop_get d k) as [dv|] eqn:Hdv; [|eexists; reflexivity].
      destruct (is_object v && is_object dv) eqn:Hobj;
        [|destruct (is_undefined v); eexists; reflexivity].
      apply andb_prop in Hobj as [_ Hobj].
      apply prop_get_Some in Hdv.
      rewrite Forall_forall in Hpds. pose proof (Hpds _ Hdv) as Hpdv.
      cbn [null_free] in Hd. rewrite forallb_forall in Hd.
      apply list_elem_of_In in Hdv. apply Hd in Hdv. cbn [snd] in Hdv, Hpdv.
      destruct dv as [| | | | |d']; try done.
      by apply Hv. }
    destruct (Hturns own IH Hpu) as [r ->]. eexists; reflexivity.
Qed.

Lemma mergeConf_self v : distinct_keys v → plain v = true → mergeConf v v = Ok v.
Proof.
  induction v as [| |b|n|s|own IH] using conf_value_induction; intros Hwf Hp; try done.
  - cbn [mergeConf own_property]. case_bool_decide; done.
  - rewrite mergeConf_object.
    apply distinct_keys_object in Hwf as [Hnd Hwf].
    apply plain_object in Hp as [Hh Hp].
    rewrite (merge_turns_all (CObj own) (CObj own) own own); [done|].
    apply Forall2_same_length_lookup. split; [done|].
    intros i e e' He He'. rewrite He in He'. injection He' as <-. split; [done|].
    destruct e as [k v]. cbn [fst snd].
    unfold merge_turn. rewrite own_property_plain by done. cbn [mbind result_bind].
    rewrite (prop_get_NoDup own k v Hnd) by (eapply list_elem_of_lookup_2; exact He).
    rewrite Forall_forall in IH, Hwf, Hp.
    assert ((k, v) ∈ own) as Hin by (eapply list_elem_of_lookup_2; exact He).
    destruct (is_object v) eqn:Hv; cbn [andb].
    + apply (IH _ Hin); [apply (Hwf _ Hin)|apply (Hp _ Hin)].
    + destruct v; done.
Qed.

Lemma mergeConf_again u : ∀ d r,
  distinct_keys d → plain d = true → mergeConf u d = Ok r → mergeConf r d = Ok r.
Proof.
  induction u as [| |b|n|s|own IH] using conf_value_induction; intros d r Hwf Hp;
    try (intros [= <-]; done).
  - intros H. assert (r = CStr s) as ->; [|exact H].
    revert H. cbn [mergeConf]. case_bool_decide; [congruence|].
    destruct (own_property d "0"); [|done]. cbn. congruence.
  - rewrite mergeConf_object.
    destruct (merge_turns (CObj own) d own) as [r'|] eqn:Hr; [|done]. intros [= <-].
    rewrite mergeConf_object.
    pose proof (merge_turns_names _ _ _ _ Hr) as Hnames.
    rewrite (merge_turns_all (CObj r') d r' r'); [done|].
    apply merge_turns_Ok in Hr.
    assert (∀ ps rs : props,
              Forall2 (λ e e' : string * conf_value,
                         e'.1 = e.1 ∧ merge_turn (CObj own) d e.1 e.2 = Ok e'.2) ps rs →
              Forall (λ e : string * conf_value,
                        ∀ d r, distinct_keys d → plain d = true →
                               mergeConf e.2 d = Ok r → mergeConf r d = Ok r) ps →
              Forall2 (λ e e' : string * conf_value,
                         e'.1 = e.1 ∧ merge_turn (CObj r') d e.1 e.2 = Ok e'.2) rs rs)
      as Hgen; [|by apply (Hgen own r')].
    clear Hr IH. intros ps rs Hr.
    induction Hr as [|[k v] [k' v'] ps rs [Hk Hv] _ IHr]; intros IH; [constructor|].
    cbn [fst snd] in Hk, Hv. subst k'. apply Forall_cons in IH as [IHv IH].
    constructor; [|auto]. split; [done|]. cbn [fst snd] in *.
    revert Hv. unfold merge_turn.
    pose proof (own_property_names own r' k Hnames) as Hsame.
    destruct (own_property (CObj own) k) as [[u|]|]; cbn [mbind result_bind]; [| |done].
    2:{ rewrite Hsame. cbn [mbind result_bind]. congruence. }
    destruct Hsame as [w ->]. cbn [mbind result_bind].
    destruct (own_property d k) as [[dv|]|] eqn:Hd; cbn [mbind result_bind]; [|congruence|done].
    assert (distinct_keys dv ∧ plain dv = true) as [Hdv Hpdv].
    { destruct d as [| | | |s|downs]; try done.
      - revert Hd. cbn. unfold string_own. case_bool_decide; [intros [= <-]; done|].
        destruct (array_index k); [|done]. destruct (String.get _ s); [|done].
        intros [= <-]. done.
      - apply plain_object in Hp as [Hhd Hp].
        rewrite own_property_plain in Hd by done.
        injection Hd as Hd. apply prop_get_Some in Hd.
        apply distinct_keys_object in Hwf as [_ Hwf].
        rewrite Forall_forall in Hwf, Hp. split; [apply (Hwf _ Hd)|apply (Hp _ Hd)]. }
    destruct (is_object v && is_object dv) eqn:Hobj.
    + intros Hv. apply andb_prop in Hobj as [Hov Hodv].
      rewrite (mergeConf_is_object _ _ _ Hv), Hov, Hodv. cbn [andb].
      eapply IHv; [exact Hdv|exact Hpdv|exact Hv].
    + destruct (is_undefined v) eqn:Hu.
      * intros [= <-]. destruct (is_object dv) eqn:Hodv; cbn [andb].
        -- by apply mergeConf_self.
        -- destruct (is_undefined dv); done.
      * intros [= <-]. rewrite Hobj, Hu. done.
Qed.

(** Without [plain], a second merge can throw: the first one copies an
    object of the defaults that has a property called [hasOwnProperty], and
    the second one calls it. *)
Lemma mergeConf_again_throws :
  let u := CObj [("JS", CUndef)] in
  let d := CObj [("JS", CObj [("hasOwnProperty", CBool true)])] in
  distinct_keys d
  ∧ mergeConf u d = Ok d
  ∧ mergeConf d d = TypeError.
Proof.
  cbv zeta. split_and!; [|reflexivity..].
  cbn. split_and!; try done; compute_done.
Qed.

(** For options with a property called [hasOwnProperty], the
    initialisation of [CONF] throws: there is no configuration to merge. *)
Lemma CONF_init_throws :
  CONF_init (Argv (Some [CStr "default"]) [("hasOwnProperty", CBool true)]) (CStr "v1.2.4")
  = TypeError.
Proof. reflexivity. Qed.

End ConfMerge.

(** ** The cache of combined files *)
Section CacheFacts.

Lemma Set_add_all_fresh (set a : list string) :
  NoDup (set ++ a) → foldl Set_add set a = set ++ a.
Proof.
  revert set. induction a as [|x a IH]; intros set Hnd; cbn [foldl].
  - by rewrite app_nil_r.
  - unfold Set_add at 2. rewrite bool_decide_eq_false_2.
    + rewrite IH; rewrite <- app_assoc; [done|exact Hnd].
    + apply NoDup_app in Hnd as (_ & Hdis & _). intros Hx. apply (Hdis x Hx). left.
Qed.

Lemma Set_add_all (set a : list string) :
  NoDup set →
  ∃ added, foldl Set_add set a = set ++ added
           ∧ NoDup (set ++ added)
           ∧ ∀ x, x ∈ added ↔ x ∈ a ∧ x ∉ set.
Proof.
  revert set. induction a as [|x a IH]; intros set Hnd; cbn [foldl].
  - exists []. rewrite app_nil_r. split_and!; [done..|].
    intros x. rewrite elem_of_nil. tauto.
  - unfold Set_add at 2. case_bool_decide as Hx.
    + destruct (IH set Hnd) as (added & -> & Hnd' & Hadded).
      exists added. split_and!; [done..|].
      intros y. rewrite Hadded, elem_of_cons. split; [tauto|].
      intros [[->|Hy] Hn]; [done|tauto].
    + destruct (IH (set ++ [x])) as (added & -> & Hnd' & Hadded).
      { apply NoDup_app. split_and!; [done| |apply NoDup_singleton].
        intros y Hy ->%list_elem_of_singleton. done. }
      exists (x :: added). rewrite <- app_assoc in *. split_and!; [done..|].
      intros y. rewrite !elem_of_cons, Hadded, elem_of_app, list_elem_of_singleton.
      destruct (decide (y = x)) as [->|]; [tauto|]. tauto.
Qed.

Lemma index_of_None x (a : list string) : index_of x a = None ↔ x ∉ a.
Proof.
  induction a as [|y a IH]; cbn [index_of].
  - split; [intros _; apply not_elem_of_nil|done].
  - rewrite not_elem_of_cons. case_bool_decide as Hy.
    + split; [done|]. intros [? _]. congruence.
    + destruct (index_of x a); cbn; [split; [done|]|].
      * intros [_ Hx]. by apply IH in Hx.
      * split; [|done]. intros _. split; [congruence|]. by apply IH.
Qed.

Lemma indexOf_negative (a : list string) x : (indexOf a x < 0)%Z ↔ x ∉ a.
Proof.
  unfold indexOf. rewrite <- index_of_None.
  destruct (index_of x a); split; [lia|done|done|lia].
Qed.

Lemma bundled_snoc bundles included :
  bundled (bundles ++ [included]) = onModuleBundleComplete included (bundled bundles).
Proof. unfold bundled. by rewrite foldl_app. Qed.

Lemma onModuleBundleComplete_NoDup included cache :
  NoDup (onModuleBundleComplete included cache)
  ∧ ∀ x, x ∈ onModuleBundleComplete included cache ↔ x ∈ cache ∨ x ∈ included.
Proof.
  unfold onModuleBundleComplete, spread_new_Set.
  destruct (Set_add_all [] (cache ++ included)) as (added & -> & Hnd & Hadded);
    [constructor|].
  cbn [app] in *. split; [done|].
  intros x. rewrite Hadded, elem_of_app, elem_of_nil. tauto.
Qed.

Lemma bundled_NoDup bundles :
  NoDup (bundled bundles)
  ∧ ∀ x, x ∈ bundled bundles ↔ ∃ included, included ∈ bundles ∧ x ∈ included.
Proof.
  induction bundles as [|included bundles IH] using rev_ind.
  - split; [constructor|]. intros x. cbn. rewrite elem_of_nil.
    split; [done|]. intros (? & H & _). inversion H.
  - rewrite bundled_snoc.
    destruct (onModuleBundleComplete_NoDup included (bundled bundles)) as [Hnd Hin].
    split; [done|]. intros x. rewrite Hin, (proj2 IH). split.
    + intros [(inc & Hinc & Hx)|Hx].
      * exists inc. rewrite elem_of_app. tauto.
      * exists included. rewrite elem_of_app, list_elem_of_singleton. tauto.
    + intros (inc & [Hinc| ->%list_elem_of_singleton]%elem_of_app & Hx); [|tauto].
      left. by exists inc.
Qed.

End CacheFacts.

(** * Further properties of the code *)

(** ** The tracker *)
Section TrackerTheorems.
Context {rt : Runtime}.




(** X4. A call for a [.map] file writes the file name to the [mapFile] slot
    and the end size to the [map] slot of the record of its key, and leaves
    every other slot as it was, whatever mapping the caller passes. *)
Theorem X4_map_call d m (tf : tracked) :
  fileExt_of (fileName d) = "map" →
  let key := srcFileName_of (fileName d) in
  cell (record_of (trackFile d m tf) key) 10 = Some (VStr (fileName d))
  ∧ cell (record_of (trackFile d m tf) key) 11 = Some (VNum (endSize d))
  ∧ ∀ j, j ≠ 10%nat → j ≠ 11%nat →
         cell (record_of (trackFile d m tf) key) j = cell (record_of tf key) j.
Proof.
  intros Hext key. unfold key. rewrite trackFile_record, Hext.
  change (stage_of "map" _ d m) with (d, map_stage_mapping).
  cbn [fst snd]. unfold map_stage_mapping.
  split_and!; [rewrite write_cols_cell; slots; reflexivity..|].
  intros j H10 H11. rewrite write_cols_cell. slots.
  rewrite !bool_decide_eq_false_2 by congruence. done.
Qed.

(** X5. A call for a [.gz] file writes the file name, the ratio and the end
    size to the slots [gzipFile], [gzip_percent], [gzip] of the record of its
    key, a call for a [.br] file to the three brotli slots; either writes its
    end size divided by the [src] slot to [all_percent], and leaves every
    other slot as it was. The mapping that the caller passes is not used. *)
Theorem X5_compression_call d m (tf : tracked) :
  fileExt_of (fileName d) ∈ compressionExt →
  let key := srcFileName_of (fileName d) in
  let base := if bool_decide (fileExt_of (fileName d) = "gz") then 3%nat else 6%nat in
  cell (record_of (trackFile d m tf) key) base = Some (VStr (fileName d))
  ∧ cell (record_of (trackFile d m tf) key) (base + 1) = Some (VNum (percent d))
  ∧ cell (record_of (trackFile d m tf) key) (base + 2) = Some (VNum (endSize d))
  ∧ cell (record_of (trackFile d m tf) key) 9
    = Some (VNum (js_div (VNum (endSize d)) (arr_get (record_of tf key) 0)))
  ∧ ∀ j, j ∉ [base; base + 1; base + 2; 9]%nat →
         cell (record_of (trackFile d m tf) key) j = cell (record_of tf key) j.
Proof.
  intros Hext key base. unfold key, base. rewrite trackFile_record.
  apply compressionExt_iff in Hext as [-> | ->].
  - change (stage_of "gz" ?fd d m)
      with (set_all_percent (VNum (js_div (VNum (endSize d)) (arr_get fd 0))) d,
            gzip_stage_mapping).
    cbn [fst snd]. unfold gzip_stage_mapping.
    split_and!; [rewrite write_cols_cell; slots; reflexivity..|].
    intros j Hj. rewrite write_cols_cell. slots.
    rewrite !bool_decide_eq_false_2; [done|intros [= <-]; apply Hj, list_elem_of_In; cbn; auto 10..].
  - change (stage_of "br" ?fd d m)
      with (set_all_percent (VNum (js_div (VNum (endSize d)) (arr_get fd 0))) d,
            brotli_stage_mapping).
    cbn [fst snd]. unfold brotli_stage_mapping.
    split_and!; [rewrite write_cols_cell; slots; reflexivity..|].
    intros j Hj. rewrite write_cols_cell. slots.
    rewrite !bool_decide_eq_false_2; [done|intros [= <-]; apply Hj, list_elem_of_In; cbn; auto 10..].
Qed.



(** X6. A call with the mapping of [task:concatJS], [task:diffJS] and
    [task:sass], for a file whose extension is none of [gz], [br] and [map],
    writes the start size, the ratio and the end size to the slots [src],
    [src_percent] and [uglify] of the record named by the file; for a [.js]
    file it writes the ratio to [all_percent] too; every other slot stays as
    it was. *)
Theorem X6_primary_call d (tf : tracked) :
  fileExt_of (fileName d) ∉ compressionExt ++ ["map"] →
  let old := record_of tf (fileName d) in
  let new := record_of (trackFile d primary_mapping tf) (fileName d) in
  cell new 0 = Some (VNum (startSize d))
  ∧ cell new 1 = Some (VNum (percent d))
  ∧ cell new 2 = Some (VNum (endSize d))
  ∧ cell new 9 = (if bool_decide (fileExt_of (fileName d) = "js")
                  then Some (VNum (percent d)) else cell old 9)
  ∧ ∀ j, (3 ≤ j)%nat → j ≠ 9%nat → cell new j = cell old j.
Proof.
  intros Hext old new. unfold old, new.
  rewrite trackFile_record_unknown by done.
  case_bool_decide; unfold primary_mapping; cbn [mapping_set];
    repeat (rewrite bool_decide_eq_false_2 by done); cbn [mapping_set];
    (split_and!; [rewrite write_cols_cell; slots; reflexivity..|]);
    intros j H3 H9; rewrite write_cols_cell; slots;
    rewrite !bool_decide_eq_false_2; first [done | intros [= <-]; lia].
Qed.

(** X7. A call of [task:gzipAssets] or [task:brotliAssets] for a file that
    the plugin left uncompressed (its name has none of the extensions [gz],
    [br], [map]) writes the file name and the end size to the file slot and
    the size slot of the stage, and not the ratio slot of the stage; for a
    [.js] file it replaces [all_percent] by the ratio of this call; every
    other slot stays as it was, the source size among them. *)
Theorem X7_skipped_compression (brotli : bool) d (tf : tracked) :
  fileExt_of (fileName d) ∉ compressionExt ++ ["map"] →
  let m := if brotli then brotliAssets_mapping else gzipAssets_mapping in
  let base := if brotli then 6%nat else 3%nat in
  let old := record_of tf (fileName d) in
  let new := record_of (trackFile d m tf) (fileName d) in
  cell new base = Some (VStr (fileName d))
  ∧ cell new (base + 2) = Some (VNum (endSize d))
  ∧ cell new 9 = (if bool_decide (fileExt_of (fileName d) = "js")
                  then Some (VNum (percent d)) else cell old 9)
  ∧ ∀ j, j ∉ [base; base + 2; 9]%nat → cell new j = cell old j.
Proof.
  intros Hext m base old new. unfold old, new, base, m.
  rewrite trackFile_record_unknown by done.
  destruct brotli; case_bool_decide;
    unfold brotliAssets_mapping, gzipAssets_mapping; cbn [mapping_set];
    repeat (rewrite bool_decide_eq_false_2 by done); cbn [mapping_set];
    (split_and!; [rewrite write_cols_cell; slots; reflexivity..|]);
    intros j Hj; rewrite write_cols_cell; slots;
    rewrite !bool_decide_eq_false_2;
    first [done | intros [= <-]; apply Hj, list_elem_of_In; cbn; auto 10].
Qed.

(** X8. A gzip call and a brotli call for the same key commute on every slot
    but [all_percent], which holds the ratio of the call made last: its end
    size divided by the [src] slot. *)
Theorem X8_gzip_brotli_order g b mg mb (tf : tracked) :
  fileExt_of (fileName g) = "gz" → fileExt_of (fileName b) = "br" →
  srcFileName_of (fileName g) = srcFileName_of (fileName b) →
  let key := srcFileName_of (fileName g) in
  let gb := record_of (trackFile b mb (trackFile g mg tf)) key in
  let bg := record_of (trackFile g mg (trackFile b mb tf)) key in
  (∀ j, j ≠ 9%nat → cell gb j = cell bg j)
  ∧ cell gb 9 = Some (VNum (js_div (VNum (endSize b)) (arr_get (record_of tf key) 0)))
  ∧ cell bg 9 = Some (VNum (js_div (VNum (endSize g)) (arr_get (record_of tf key) 0))).
Proof.
  intros Hg Hb Hkey key gb bg. unfold gb, bg. clear gb bg.
  pose proof (λ tf, trackFile_record g mg tf) as HG.
  pose proof (λ tf, trackFile_record b mb tf) as HB.
  rewrite <- Hkey in HB. fold key in HG, HB. clearbody key.
  rewrite Hg in HG. rewrite Hb in HB.
  rewrite (HB (trackFile g mg tf)), (HG (trackFile b mb tf)), (HG tf), (HB tf).
  clear HG HB.
  change (stage_of "gz" ?fd g mg)
    with (set_all_percent (VNum (js_div (VNum (endSize g)) (arr_get fd 0))) g,
          gzip_stage_mapping).
  change (stage_of "br" ?fd b mb)
    with (set_all_percent (VNum (js_div (VNum (endSize b)) (arr_get fd 0))) b,
          brotli_stage_mapping).
  cbn [fst snd]. unfold gzip_stage_mapping, brotli_stage_mapping.
  split_and!.
  - intros j Hj. rewrite !write_cols_cell. slots.
    repeat (case_bool_decide as H; [injection H as <-; try done; reflexivity|clear H]).
    done.
  - rewrite !arr_get_cell, !write_cols_cell. slots. reflexivity.
  - rewrite !arr_get_cell, !write_cols_cell. slots. reflexivity.
Qed.

(** X9. Tracking the same measurement twice leaves the tracker as tracking
    it once does. *)
Theorem X9_trackFile_idempotent d m (tf : tracked) :
  trackFile d m (trackFile d m tf) = trackFile d m tf.
Proof.
  rewrite (trackFile_obj_set d m (trackFile d m tf)).
  rewrite (trackFile_record d m (trackFile d m tf)).
  rewrite (trackFile_record d m tf).
  rewrite stage_of_again, write_cols_again.
  rewrite <- (trackFile_record d m tf).
  rewrite (trackFile_obj_set d m tf) at 2 3. apply obj_set_again.
Qed.

(** X10. The record of a production pass over a file that the tracker did not
    hold: the primary call, the gzip call and the brotli call, in this order,
    leave a record of ten slots, [src] to [all_percent], the last with the
    brotli size divided by the source size. *)
Theorem X10_production_pass p g b (tf : tracked) :
  fileExt_of (fileName p) ∉ compressionExt ++ ["map"] →
  obj_get tf (fileName p) = None →
  fileName g = fileName p +:+ ".gz" →
  fileName b = fileName p +:+ ".br" →
  record_of (trackFiles [(p, primary_mapping); (g, gzipAssets_mapping);
                         (b, brotliAssets_mapping)] tf) (fileName p)
  = [ Some (VNum (startSize p)); Some (VNum (percent p)); Some (VNum (endSize p));
      Some (VStr (fileName g)); Some (VNum (percent g)); Some (VNum (endSize g));
      Some (VStr (fileName b)); Some (VNum (percent b)); Some (VNum (endSize b));
      Some (VNum (num_div (endSize b) (startSize p))) ].
Proof.
  intros Hext Hnew Hg Hb.
  destruct (srcFileName_of_known (fileName p) "gz") as [Hge Hgk];
    [apply known_ext_iff; tauto|].
  destruct (srcFileName_of_known (fileName p) "br") as [Hbe Hbk];
    [apply known_ext_iff; tauto|].
  change (fileName p +:+ "." +:+ "gz") with (fileName p +:+ ".gz") in Hge, Hgk.
  change (fileName p +:+ "." +:+ "br") with (fileName p +:+ ".br") in Hbe, Hbk.
  rewrite <- Hg in Hge, Hgk. rewrite <- Hb in Hbe, Hbk.
  unfold trackFiles. cbn [foldl fst snd].
  rewrite <- Hbk at 1. rewrite trackFile_record, Hbe, Hbk.
  rewrite <- Hgk at 1 2. rewrite trackFile_record, Hge, Hgk.
  rewrite trackFile_record_unknown by done.
  assert (record_of tf (fileName p) = []) as -> by (unfold record_of; by rewrite Hnew).
  change (stage_of "gz" ?fd g gzipAssets_mapping)
    with (set_all_percent (VNum (js_div (VNum (endSize g)) (arr_get fd 0))) g,
          gzip_stage_mapping).
  change (stage_of "br" ?fd b brotliAssets_mapping)
    with (set_all_percent (VNum (js_div (VNum (endSize b)) (arr_get fd 0))) b,
          brotli_stage_mapping).
  cbn [fst snd].
  case_bool_decide; reflexivity.
Qed.

(** X11. Every record of a tracker built from the empty one by calls of
    [trackFile] has at most twelve slots, whatever the file names and the
    mappings of the calls. *)
Theorem X11_records_have_at_most_twelve_slots (calls : list call) (k : string) :
  (length (record_of (trackFiles calls []) k) ≤ 12)%nat.
Proof.
  assert (slots_ok (trackFiles calls [])) as H
    by (apply trackFiles_slots_ok; constructor).
  unfold record_of. destruct (obj_get (trackFiles calls []) k) as [a|] eqn:Hk.
  - apply (obj_get_Forall _ _ _ _ H Hk).
  - cbn. lia.
Qed.

End TrackerTheorems.

(** ** The summary *)
Section SummaryTheorems.
Context {rt : Runtime}.

(** X12. When every byte cell of the tracker is a finite number, and
    [pretty-bytes] accepts every finite number, [printJsSummary] throws
    nothing: it prints a table and resets the tracker. *)
Theorem X12_summary_prints conf (tf : tracked) :
  bytes_ok (tableData_of tf) →
  (∀ q, is_Some (prettyBytes (VNum (Fin q)))) →
  ∃ t, printJsSummary conf tf = mkPrinted (Ok t) (unshifted tf) [].
Proof.
  intros Hok Hpb.
  destruct (body_returns conf tf Hok Hpb) as (rows & hl & Hbody).
  unfold printJsSummary. rewrite Hbody. by eexists.
Qed.

(** X13. When [pretty-bytes] throws on a byte cell of some record,
    [printJsSummary] throws before it prints, and the tracker is not reset:
    it keeps its records, each with its key put in front. *)
Theorem X13_summary_throws_and_keeps_the_tracker conf (tf : tracked) x i v :
  x ∈ tableData_of tf → i ∈ byteCols → cell x i = Some v → prettyBytes v = None →
  printJsSummary conf tf = mkPrinted TypeError (unshifted tf) (unshifted tf).
Proof.
  intros Hx Hi Hv Hpb.
  assert (body conf tf = TypeError) as Hbody.
  { unfold body.
    destruct (totals_returns conf (sort (compareFn (sortCol conf)) (tableData_of tf)))
      as [sumRow ->].
    apply (format_rows_throws conf 0 _ _ x i v); [|done|].
    - apply elem_of_app. left. by rewrite sort_perm.
    - unfold shown. by rewrite (includes_nat_true _ _ Hi), Hpb. }
  unfold printJsSummary. by rewrite Hbody.
Qed.


(** X15. With the stable [Array.prototype.sort] of the language, rows with
    the same number in the sort column keep the order in which the tracker
    enumerates them (for rows that hold finite numbers in the column). *)
Theorem X15_sort_is_stable col q (rows : list array) :
  Forall (has_key col) rows →
  filter (λ r, sort_key col r = q) (sort (compareFn col) rows)
  = filter (λ r, sort_key col r = q) rows.
Proof.
  intros Hrows. induction Hrows as [|x rows Hx Hrows IH]; [done|].
  change (sort (compareFn col) (x :: rows))
    with (sort_insert (compareFn col) x (sort (compareFn col) rows)).
  rewrite sort_insert_filter by (done || by apply sort_has_key).
  by rewrite !filter_cons, IH.
Qed.

(** X16. The totals row does not depend on the order of the rows: for rows
    whose byte cells are finite numbers, a permutation of the rows gives the
    same cell in every column of the totals row. *)
Theorem X16_totals_do_not_depend_on_the_order conf (rows rows' : list array) :
  bytes_ok rows → rows ≡ₚ rows' →
  ∃ sumRow sumRow',
    totals conf rows = Ok (rows, sumRow)
    ∧ totals conf rows' = Ok (rows', sumRow')
    ∧ ∀ j, cell sumRow j = cell sumRow' j.
Proof.
  intros Hok Hp.
  destruct (totals_cells conf rows Hok) as (a & Ha & Hacells).
  destruct (totals_cells conf rows' (bytes_ok_perm _ _ Hp Hok)) as (b & Hb & Hbcells).
  exists (footer conf a), (footer conf b). split_and!; [done..|].
  apply footer_cells_ext. intros j. rewrite Hacells, Hbcells.
  destruct (includes_nat byteCols j); [|done]. by apply column_total_perm.
Qed.



(** X19. The summary of a pass prints: for a tracker built from the empty
    one by calls of the build tasks, each with a mapping of these tasks,
    with finite start and end sizes and with a key that is no property name
    of [Object.prototype], [printJsSummary] throws nothing when
    [pretty-bytes] accepts every finite number; it prints a table and resets
    the tracker. The tracker of such a pass has no property under a name of
    [Object.prototype]: every record is an array. (For a key such as
    [constructor] the record is the inherited member, and the summary
    throws.) *)
Theorem X19_summary_of_a_pass_prints conf (calls : list call) :
  Forall task_call calls →
  Forall own_key calls →
  (∀ q, is_Some (prettyBytes (VNum (Fin q)))) →
  (∀ k, k ∈ Object_prototype → obj_get (trackFiles calls []) k = None)
  ∧ ∃ t, printJsSummary conf (trackFiles calls [])
         = mkPrinted (Ok t) (unshifted (trackFiles calls [])) [].
Proof.
  intros Hcalls Hkeys Hpb.
  split; [intros k Hk; by apply trackFiles_own_keys|].
  assert (bytes_ok (tableData_of (trackFiles calls []))) as Hok
    by (apply sizes_ok_bytes_ok, trackFiles_sizes_ok; [done|constructor]).
  destruct (body_returns conf _ Hok Hpb) as (rows & hl & Hbody).
  unfold printJsSummary. rewrite Hbody. by eexists.
Qed.

End SummaryTheorems.

(** ** The task configuration *)
Section ConfTheorems.

(** X20. [mergeConf] neither adds, removes nor reorders the properties of
    the user object: when it returns, the result is an object with the
    property names of the user object, in their order. *)
Theorem X20_mergeConf_keeps_the_keys own d r :
  mergeConf (CObj own) d = Ok r → ∃ own', r = CObj own' ∧ own'.*1 = own.*1.
Proof.
  rewrite mergeConf_object.
  destruct (merge_turns (CObj own) d own) as [r'|] eqn:Hr; [|done]. intros [= <-].
  exists r'. split; [done|]. by eapply merge_turns_names.
Qed.

(** X21. What [mergeConf] does to each property of the user object. A
    property that the user object lacks is not added, also when the defaults
    have it; a property that the defaults lack keeps its value; a value that
    is neither an object nor [undefined] is kept ([false] is); [undefined] is
    replaced by the value of the defaults; an object or [null] is kept when
    the defaults hold no object there, and merged with the value of the
    defaults when they do. *)
Theorem X21_mergeConf_properties own d r k :
  mergeConf (CObj own) (CObj d) = Ok (CObj r) →
  (prop_get own k = None → prop_get r k = None)
  ∧ (prop_get d k = None → prop_get r k = prop_get own k)
  ∧ (∀ v, prop_get own k = Some v → is_object v = false → is_undefined v = false →
          prop_get r k = Some v)
  ∧ (∀ dv, prop_get own k = Some CUndef → prop_get d k = Some dv → prop_get r k = Some dv)
  ∧ (∀ v dv, prop_get own k = Some v → prop_get d k = Some dv →
             is_object v = true → is_object dv = false → prop_get r k = Some v)
  ∧ (∀ v dv, prop_get own k = Some v → prop_get d k = Some dv →
             is_object v = true → is_object dv = true →
             ∃ v', mergeConf v dv = Ok v' ∧ prop_get r k = Some v').
Proof.
  rewrite mergeConf_object.
  destruct (merge_turns (CObj own) (CObj d) own) as [r'|] eqn:Hr; [|done]. intros [= <-].
  pose proof (mergeConf_lookup _ _ own r' k Hr) as H.
  assert (∀ v, prop_get own k = Some v →
               ∃ v', prop_get r' k = Some v'
                     ∧ match prop_get d k with
                       | None => v' = v
                       | Some dv =>
                           (if is_object v && is_object dv then mergeConf v dv
                            else if is_undefined v then Ok dv
                            else Ok v) = Ok v'
                       end) as Hturn.
  { intros v Hk. rewrite Hk in H. destruct H as (v' & Hv' & H).
    apply (merge_turn_Ok own _ k v v v' Hk) in H as (o & Ho & H).
    apply own_property_Ok in Ho. subst o. by exists v'. }
  split_and!.
  - intros Hk. rewrite Hk in H. exact H.
  - intros Hd. destruct (prop_get own k) as [v|] eqn:Hk; [|exact H].
    destruct (Hturn v eq_refl) as (v' & -> & Hv). rewrite Hd in Hv. by subst v'.
  - intros v Hk Hv Hu. destruct (Hturn v Hk) as (v' & -> & H').
    destruct (prop_get d k) as [dv|]; [|congruence].
    rewrite Hv, Hu in H'. cbn in H'. congruence.
  - intros dv Hk Hd. destruct (Hturn _ Hk) as (v' & -> & H'). rewrite Hd in H'.
    cbn in H'. congruence.
  - intros v dv Hk Hd Hv Hdv. destruct (Hturn _ Hk) as (v' & -> & H'). rewrite Hd in H'.
    rewrite Hv, Hdv in H'. cbn [andb] in H'. destruct v; try done; cbn in H'; congruence.
  - intros v dv Hk Hd Hv Hdv. destruct (Hturn _ Hk) as (v' & -> & H'). rewrite Hd in H'.
    rewrite Hv, Hdv in H'. cbn [andb] in H'. exists v'. done.
Qed.

(** X22. [mergeConf] returns when the defaults are an object that holds
    [null] nowhere, for every user value, provided that no object of the
    user value or of the defaults has a property of its own called
    [hasOwnProperty] (the call of one throws). *)
Theorem X22_mergeConf_returns u d :
  null_free (CObj d) = true → plain (CObj d) = true → plain u = true →
  ∃ r, mergeConf u (CObj d) = Ok r.
Proof. apply mergeConf_total. Qed.

(** X23. [mergeConf] throws when the defaults hold [null] for a property
    for which the user object holds an object with a property. *)
Theorem X23_mergeConf_throws own d k e es :
  prop_get own k = Some (CObj (e :: es)) → prop_get d k = Some CNull →
  mergeConf (CObj own) (CObj d) = TypeError.
Proof.
  intros Hk Hd. rewrite mergeConf_object.
  rewrite (merge_turns_TypeError (CObj own) (CObj d) own k (CObj (e :: es))); [done| |].
  - apply prop_get_Some, Hk.
  - unfold merge_turn. cbn [own_property].
    destruct (hides_hasOwnProperty own); [done|]. rewrite Hk. cbn [mbind result_bind].
    destruct (hides_hasOwnProperty d); [done|]. rewrite Hd. cbn [mbind result_bind].
    cbn [is_object andb]. rewrite mergeConf_object. destruct e as [k' v'].
    cbn [merge_turns]. unfold merge_turn. cbn [own_property].
    destruct (hides_hasOwnProperty ((k', v') :: es)); [done|].
    cbn [prop_get]. rewrite bool_decide_eq_true_2 by done. done.
Qed.

(** X24. Merging the result of [mergeConf] with the same defaults again
    changes nothing, the property names of every object of the defaults
    being distinct and none of them [hasOwnProperty] (of which the second
    merge would call a copy, [mergeConf_again_throws]). *)
Theorem X24_mergeConf_idempotent u d r :
  distinct_keys d → plain d = true → mergeConf u d = Ok r → mergeConf r d = Ok r.
Proof. apply mergeConf_again. Qed.

(** X25. The switches that [printJsSummary] reads after the first step of
    [task:configProduction] and of [task:configDevelop], for options without
    a property called [hasOwnProperty] (with one, the initialisation of
    [CONF] throws, [CONF_init_throws]): a switch whose option the command
    line has is on exactly when the option is the text [true], and a switch
    whose option the command line lacks is on for production and off for
    develop. *)
Theorem X25_config_switches options tagVersion :
  prop_get (named options) "hasOwnProperty" = None →
  ∃ init,
    CONF_init options tagVersion = Ok init
    ∧ (∃ conf, configProduction (CObj init) = Ok conf
               ∧ switches conf
                 = Ok (CONF (switch_of options "jsUglify" true)
                            (switch_of options "jsSourcemaps" true)
                            (switch_of options "gzip" true)
                            (switch_of options "brotli" true)))
    ∧ (∃ conf, configDevelop (CObj init) = Ok conf
               ∧ switches conf
                 = Ok (CONF (switch_of options "jsUglify" false)
                            (switch_of options "jsSourcemaps" false)
                            (switch_of options "gzip" false)
                            (switch_of options "brotli" false))).
Proof.
  intros Hnone. exists (CONF_of options tagVersion).
  split; [unfold CONF_init, hides_hasOwnProperty; by rewrite Hnone|].
  unfold configProduction, configDevelop, CONF_of, option_switch, switch_of.
  destruct (prop_get (named options) "jsUglify");
    destruct (prop_get (named options) "jsSourcemaps");
    destruct (prop_get (named options) "cssSourcemaps");
    destruct (prop_get (named options) "gzip");
    destruct (prop_get (named options) "brotli");
    (split; eexists; (split; [reflexivity|]); reflexivity).
Qed.

(** X26. The config steps leave [CONF.TAG] as it was set, for options
    without a property called [hasOwnProperty]: the [tag] option when it is
    truthy, otherwise the version of the configuration file when that is
    truthy, otherwise [undefined]; and [task:checkConfig] exits exactly when
    neither is truthy. *)
Theorem X26_config_tag options tagVersion :
  let tag := default CUndef (prop_get (named options) "tag") in
  let TAG := if truthy tag then tag else if truthy tagVersion then tagVersion else CUndef in
  prop_get (named options) "hasOwnProperty" = None →
  ∃ init,
    CONF_init options tagVersion = Ok init
    ∧ (∃ conf, configProduction (CObj init) = Ok conf
               ∧ prop_read conf "TAG" = Ok TAG
               ∧ checkConfig conf = Ok (negb (truthy tag || truthy tagVersion)))
    ∧ (∃ conf, configDevelop (CObj init) = Ok conf
               ∧ prop_read conf "TAG" = Ok TAG
               ∧ checkConfig conf = Ok (negb (truthy tag || truthy tagVersion))).
Proof.
  intros tag TAG Hnone. exists (CONF_of options tagVersion).
  split; [unfold CONF_init, hides_hasOwnProperty; by rewrite Hnone|].
  assert (truthy TAG = truthy tag || truthy tagVersion) as HT.
  { unfold TAG. destruct (truthy tag) eqn:Ht; [done|].
    destruct (truthy tagVersion) eqn:Hv; done. }
  unfold configProduction, configDevelop, CONF_of, option_switch.
  fold tag. fold TAG. clearbody TAG. clearbody tag.
  destruct (prop_get (named options) "jsUglify");
    destruct (prop_get (named options) "jsSourcemaps");
    destruct (prop_get (named options) "cssSourcemaps");
    destruct (prop_get (named options) "gzip");
    destruct (prop_get (named options) "brotli");
    (split; eexists; (split; [reflexivity|]); (split; [reflexivity|]);
     rewrite <- HT; reflexivity).
Qed.

End ConfTheorems.

(** ** The cache of combined files *)
Section CacheTheorems.

(** X27. After the bundles of a run, [combinedJsFiles] holds every file of
    every bundle, once, and nothing else. *)
Theorem X27_cache_holds_each_bundled_file_once (bundles : list (list string)) :
  NoDup (bundled bundles)
  ∧ ∀ x, x ∈ bundled bundles ↔ ∃ included, included ∈ bundles ∧ x ∈ included.
Proof. apply bundled_NoDup. Qed.

(** X28. A bundle leaves the files that [combinedJsFiles] holds in their
    places and appends those of its files that the cache did not hold, each
    once. *)
Theorem X28_cache_grows_at_the_end (included cache : list string) :
  NoDup cache →
  ∃ added,
    onModuleBundleComplete included cache = cache ++ added
    ∧ NoDup added
    ∧ ∀ x, x ∈ added ↔ x ∈ included ∧ x ∉ cache.
Proof.
  intros Hnd. unfold onModuleBundleComplete, spread_new_Set.
  rewrite foldl_app.
  rewrite (Set_add_all_fresh [] cache) by done. cbn [app].
  destruct (Set_add_all cache included Hnd) as (added & -> & Hnd' & Hadded).
  exists added. split_and!; [done| |done].
  by apply NoDup_app in Hnd' as (_ & _ & ?).
Qed.

(** X29. The filter of [task:diffJS] drops a file exactly when a bundle of
    the run included its path, as [slash] gives it. *)
Theorem X29_diffJS_skips_the_bundled_files slash (bundles : list (list string)) path :
  diffJS_filter slash (bundled bundles) path = false
  ↔ ∃ included, included ∈ bundles ∧ slash path ∈ included.
Proof.
  unfold diffJS_filter. rewrite <- (proj2 (bundled_NoDup bundles)).
  rewrite bool_decide_eq_false, indexOf_negative.
  split; [apply dec_stable|auto].
Qed.

End CacheTheorems.

(** * The properties on concrete passes *)

Section AnyRuntime.
Context {rt : Runtime}.

(** The passes hold sizes only: what they record does not depend on the
    runtime. *)
Lemma pass_app_record :
  trackFiles pass_app []
  = [("app.js",
      [Some (VNum (Fin (Qc_of_Z 1000))); Some (VNum (Fin (Q2Qc (2 # 5))));
       Some (VNum (Fin (Qc_of_Z 400))); Some (VStr "app.js.gz");
       Some (VNum (Fin (Q2Qc (3 # 8)))); Some (VNum (Fin (Qc_of_Z 150)));
       None; None; None; Some (VNum (Fin (Q2Qc (3 # 20))))])].
Proof.
  vm_compute. values_eq.
Qed.

End AnyRuntime.

#[local] Existing Instance sizes_runtime.

Lemma C1_witness :
  (fileExt_of "app.js" ∉ compressionExt ++ ["map"])
  ∧ fileExt_of "app.js.gz" ∈ compressionExt
  ∧ field (trackFiles pass_app_map []) "app.js" "all_percent"
    = VNum (num_div (Fin (Qc_of_Z 150)) (Fin (Qc_of_Z 1000))).
Proof.
  split; [compute_done|]. split; [compute_done|].
  apply (C1_combined_ratio_over_source_size []
           (bytediff "app.js" 1000 400)
           [(bytediff "app.js.map" 0 300, primary_mapping)]
           (bytediff "app.js.gz" 400 150) gzipAssets_mapping).
  - compute_done.
  - compute_done.
  - reflexivity.
  - repeat constructor. intros _ Hext. exfalso. apply Hext. compute_done.
Defined.

Lemma C1_counterexample :
  field (trackFiles pass_app []) "app.js" "uglify" = VNum (Fin (Qc_of_Z 400))
  ∧ field (trackFiles pass_app []) "app.js" "all_percent"
    = VNum (num_div (Fin (Qc_of_Z 150)) (Fin (Qc_of_Z 1000)))
  ∧ field (trackFiles pass_app []) "app.js" "all_percent"
    ≠ VNum (js_div (VNum (Fin (Qc_of_Z 150)))
                   (field (trackFiles pass_app []) "app.js" "uglify")).
Proof.
  unfold field, record_of. rewrite pass_app_record. split_and!.
  - vm_compute. values_eq.
  - vm_compute. values_eq.
  - vm_compute. intros [= H].
Qed.



Lemma C3_witness :
  slots_ok (trackFiles pass_app [])
  ∧ match console (printJsSummary develop (trackFiles pass_app [])) with
    | Ok t =>
        cells t = [[Some (VStr "file"); Some (VStr "src")];
                   [Some (VStr "app.js"); Some (VStr "1000 B")];
                   [None; Some (VStr "1000 B")]]
    | TypeError => False
    end.
Proof.
  assert (slots_ok (trackFiles pass_app [])) as Hok.
  { apply trackFiles_slots_ok. constructor. }
  split; [exact Hok|].
  destruct (console (printJsSummary develop (trackFiles pass_app [])))
    as [t|] eqn:E.
  - destruct (proj2 (proj2 (proj2 (C3_visible_columns develop)))
                (trackFiles pass_app []) t Hok E) as (rows & hl & Hbody & ->).
    vm_compute in Hbody. injection Hbody as <- _. reflexivity.
  - vm_compute in E. discriminate E.
Defined.

(** With source maps on and neither minification, gzip nor brotli, the
    summary keeps all thirteen columns. *)
Lemma C3_counterexample :
  match console (printJsSummary sourcemaps_only []) with
  | Ok t => head (cells t) = Some header_row
  | TypeError => False
  end
  ∧ Some (VStr "gzip") ∈ header_row
  ∧ Some (VStr "uglify") ∈ header_row.
Proof. split_and!; [done|compute_done|compute_done]. Qed.




Lemma C6_witness :
  fl (Fin (Q2Qc (3 # 8))) ≠ Fin 0
  ∧ savings_binary64 (Fin (Q2Qc (3 # 8))) = Fin (Q2Qc (125 # 2))
  ∧ percent_text (VNum (Fin (Q2Qc (3 # 8)))) = "62.5%".
Proof.
  assert (fl (Fin (Q2Qc (3 # 8))) ≠ Fin 0) as Hq by (by vm_compute).
  assert (savings_binary64 (Fin (Q2Qc (3 # 8))) = Fin (Q2Qc (125 # 2))) as Hv
    by (vm_compute; values_eq).
  split; [exact Hq|]. split; [exact Hv|].
  apply (proj1 (proj2 C6_percent_text) (Fin (Q2Qc (3 # 8))) (Q2Qc (125 # 2)) 625%Z Hq Hv);
    by vm_compute.
Defined.

(** A file of 80 bytes written as 29 bytes. The ratio of the cell is the
    binary64 number nearest to 29/80, which lies below it: [(1 - y) * 100]
    lies above 63.75, nearer to 63.8 than to 63.7, and rounded to one
    decimal place it is 63.8. The difference and the product of binary64
    give a number below 63.75, and the cell shows ["63.7%"]. *)
Lemma C6_counterexample :
  ∃ q v : Qc,
    fl (percent (bytediff "app.js" 80 29)) = Fin q
    ∧ q ≠ 0
    ∧ Q2Qc (6375 # 100) < savings_percent q
    ∧ savings_percent q < Q2Qc (6385 # 100)
    ∧ toFixed 1 (Fin (savings_percent q)) = "63.8"
    ∧ savings_binary64 (Fin q) = Fin v
    ∧ v < Q2Qc (6375 # 100)
    ∧ percent_text (VNum (Fin q)) = "63.7%"
    ∧ percent_text (VNum (percent (bytediff "app.js" 80 29))) = "63.7%".
Proof.
  eexists _, _. split_and!.
  - vm_compute. reflexivity.
  - by vm_compute.
  - by vm_compute.
  - by vm_compute.
  - by vm_compute.
  - vm_compute. reflexivity.
  - by vm_compute.
  - by vm_compute.
  - by vm_compute.
Qed.

Lemma C7_witness :
  ("gz" ∈ compressionExt ++ ["map"])
  ∧ srcFileName_of "app.js.gz" = "app.js".
Proof.
  assert ("gz" ∈ compressionExt ++ ["map"]) as He by compute_done.
  split; [exact He|].
  exact (proj1 C7_key_strips_last_known_segment "app.js" "gz" He).
Defined.

Lemma C7_counterexample :
  (∀ a e : string, e ∈ compressionExt ++ ["map"] → "gz" ≠ a +:+ "." +:+ e)
  ∧ srcFileName_of "gz" = EmptyString
  ∧ srcFileName_of "gz" ≠ "gz".
Proof.
  split; [|split; [reflexivity|discriminate]].
  intros a e He Heq. apply known_ext_iff in He.
  apply (f_equal String.length) in Heq. rewrite !string_length_app in Heq.
  destruct He as [->|[->| ->]]; simpl in Heq; lia.
Qed.

Lemma C8_witness :
  (∃ t, console (printJsSummary production (trackFiles pass_app [])) = Ok t)
  ∧ trackedFiles_after (printJsSummary production (trackFiles pass_app [])) = [].
Proof.
  destruct (console (printJsSummary production (trackFiles pass_app [])))
    as [t|] eqn:E.
  - split; [by exists t|].
    exact (proj1 (proj2 (proj2 (C8_summary_drains_the_tracker production
                                  (trackFiles pass_app []))) t E)).
  - exfalso. vm_compute in E. discriminate E.
Defined.

(** Two summaries in a row, and a second summary of the object that the
    first one read, differ from the first; the object is not what it was. *)
Lemma C8_counterexample :
  let tf := trackFiles pass_app [] in
  let first := printJsSummary production tf in
  console (printJsSummary production (trackedFiles_after first)) ≠ console first
  ∧ console (printJsSummary production (drained first)) ≠ console first
  ∧ drained first ≠ tf.
Proof.
  cbv zeta. rewrite pass_app_record. split_and!.
  - vm_compute. intros [= H].
  - vm_compute. intros [= H].
  - vm_compute. intros [= H].
Qed.



(** The archive of a style sheet tracked before the style sheet: the
    combined percentage of the row stays empty. *)
Lemma out_of_order_style_sheet :
  let tf := trackFiles [(bytediff "app.css.gz" 400 150, gzipAssets_mapping);
                        (bytediff "app.css" 1000 400, primary_mapping)] [] in
  field tf "app.css" "all_percent" = VNum NaN
  ∧ match console (printJsSummary production tf) with
    | Ok t =>
        cell (default [] (cells t !! 1%nat)) 0 = Some (VStr "app.css")
        ∧ cell (default [] (cells t !! 1%nat)) (col "all_percent")
          = Some (VStr EmptyString)
    | TypeError => False
    end.
Proof. vm_compute. by split_and!. Qed.

Lemma C10_witness :
  (3%nat ∈ byteCols) ∧ cell blank_totals 3 = None.
Proof.
  assert (3%nat ∈ byteCols) as Hi by compute_done.
  split; [exact Hi|].
  destruct (C10_empty_tracker develop) as (t & _ & _ & Hbytes & _).
  exact (Hbytes 3%nat Hi).
Defined.

(** ** The further properties on concrete inputs *)




Lemma X4_witness :
  fileExt_of "app.js.map" = "map"
  ∧ cell (record_of (trackFile (bytediff "app.js.map" 0 300) primary_mapping
                       (trackFiles pass_app [])) "app.js") 11
    = Some (VNum (Fin (Qc_of_Z 300)))
  ∧ cell (record_of (trackFile (bytediff "app.js.map" 0 300) primary_mapping
                       (trackFiles pass_app [])) "app.js") 0
    = cell (record_of (trackFiles pass_app []) "app.js") 0.
Proof.
  assert (fileExt_of "app.js.map" = "map") as H by reflexivity.
  split; [exact H|].
  pose proof (X4_map_call (bytediff "app.js.map" 0 300) primary_mapping
                (trackFiles pass_app []) H) as (_ & Hmap & Hrest).
  split; [exact Hmap|]. apply Hrest; lia.
Defined.

Lemma X5_witness :
  fileExt_of "app.js.br" ∈ compressionExt
  ∧ cell (record_of (trackFile (bytediff "app.js.br" 400 120) brotliAssets_mapping
                       (trackFiles pass_app [])) "app.js") 7
    = Some (VNum (num_div (Fin (Qc_of_Z 120)) (Fin (Qc_of_Z 400))))
  ∧ cell (record_of (trackFile (bytediff "app.js.br" 400 120) brotliAssets_mapping
                       (trackFiles pass_app [])) "app.js") 5
    = cell (record_of (trackFiles pass_app []) "app.js") 5.
Proof.
  assert (fileExt_of "app.js.br" ∈ compressionExt) as H by compute_done.
  split; [exact H|].
  pose proof (X5_compression_call (bytediff "app.js.br" 400 120) brotliAssets_mapping
                (trackFiles pass_app []) H) as (_ & Hpercent & _ & _ & Hrest).
  split; [exact Hpercent|]. apply Hrest. compute_done.
Defined.

Lemma X6_witness :
  (fileExt_of "app.css" ∉ compressionExt ++ ["map"])
  ∧ cell (record_of (trackFile (bytediff "app.css" 900 900) primary_mapping []) "app.css") 0
    = Some (VNum (Fin (Qc_of_Z 900)))
  ∧ cell (record_of (trackFile (bytediff "app.css" 900 900) primary_mapping []) "app.css") 9
    = None.
Proof.
  assert ((fileExt_of "app.css" ∉ compressionExt ++ ["map"])) as H by compute_done.
  split; [exact H|].
  pose proof (X6_primary_call (bytediff "app.css" 900 900) [] H)
    as (Hsrc & _ & _ & Hall & _).
  split; [exact Hsrc|exact Hall].
Defined.

Lemma X7_witness :
  (fileExt_of "app.js" ∉ compressionExt ++ ["map"])
  ∧ cell (record_of (trackFile (bytediff "app.js" 400 400) gzipAssets_mapping
                       (trackFiles [(bytediff "app.js" 1000 400, primary_mapping)] []))
                    "app.js") 9
    = Some (VNum (num_div (Fin (Qc_of_Z 400)) (Fin (Qc_of_Z 400))))
  ∧ cell (record_of (trackFile (bytediff "app.js" 400 400) gzipAssets_mapping
                       (trackFiles [(bytediff "app.js" 1000 400, primary_mapping)] []))
                    "app.js") 4
    = None.
Proof.
  assert ((fileExt_of "app.js" ∉ compressionExt ++ ["map"])) as H by compute_done.
  split; [exact H|].
  pose proof (X7_skipped_compression false (bytediff "app.js" 400 400)
                (trackFiles [(bytediff "app.js" 1000 400, primary_mapping)] []) H)
    as (_ & _ & Hall & Hrest).
  split; [exact Hall|]. rewrite Hrest; [reflexivity|compute_done].
Defined.

Lemma X8_witness :
  fileExt_of "app.js.gz" = "gz" ∧ fileExt_of "app.js.br" = "br"
  ∧ srcFileName_of "app.js.gz" = srcFileName_of "app.js.br"
  ∧ cell (record_of
            (trackFile (bytediff "app.js.gz" 400 150) gzipAssets_mapping
               (trackFile (bytediff "app.js.br" 400 120) brotliAssets_mapping
                  (trackFiles [(bytediff "app.js" 1000 400, primary_mapping)] [])))
            "app.js") 9
    = Some (VNum (num_div (Fin (Qc_of_Z 150)) (Fin (Qc_of_Z 1000)))).
Proof.
  assert (fileExt_of "app.js.gz" = "gz") as Hg by reflexivity.
  assert (fileExt_of "app.js.br" = "br") as Hb by reflexivity.
  assert (srcFileName_of "app.js.gz" = srcFileName_of "app.js.br") as Hk by reflexivity.
  split_and!; [exact Hg|exact Hb|exact Hk|].
  exact (proj2 (proj2 (X8_gzip_brotli_order
           (bytediff "app.js.gz" 400 150) (bytediff "app.js.br" 400 120)
           gzipAssets_mapping brotliAssets_mapping
           (trackFiles [(bytediff "app.js" 1000 400, primary_mapping)] [])
           Hg Hb Hk))).
Defined.

Lemma X9_witness :
  trackFiles (pass_app ++ [(bytediff "app.js.gz" 400 150, gzipAssets_mapping)]) []
  = trackFiles pass_app [].
Proof.
  exact (X9_trackFile_idempotent (bytediff "app.js.gz" 400 150) gzipAssets_mapping
           (trackFiles [(bytediff "app.js" 1000 400, primary_mapping)] [])).
Defined.

Lemma X10_witness :
  (fileExt_of "app.css" ∉ compressionExt ++ ["map"])
  ∧ length (record_of
              (trackFiles [(bytediff "app.css" 900 900, primary_mapping);
                           (bytediff "app.css.gz" 900 300, gzipAssets_mapping);
                           (bytediff "app.css.br" 900 250, brotliAssets_mapping)] [])
              "app.css") = 10%nat.
Proof.
  assert ((fileExt_of "app.css" ∉ compressionExt ++ ["map"])) as H by compute_done.
  split; [exact H|].
  rewrite (X10_production_pass (bytediff "app.css" 900 900)
             (bytediff "app.css.gz" 900 300) (bytediff "app.css.br" 900 250) [] H
             eq_refl eq_refl eq_refl).
  reflexivity.
Defined.

Lemma X11_witness : (length (record_of (trackFiles pass_app_map []) "app.js") ≤ 12)%nat.
Proof. exact (X11_records_have_at_most_twelve_slots pass_app_map "app.js"). Defined.

Lemma X12_witness :
  bytes_ok (tableData_of (trackFiles pass_app []))
  ∧ (∀ q, is_Some (prettyBytes (VNum (Fin q))))
  ∧ ∃ t, printJsSummary production (trackFiles pass_app [])
         = mkPrinted (Ok t) (unshifted (trackFiles pass_app [])) [].
Proof.
  assert (bytes_ok (tableData_of (trackFiles pass_app []))) as Hok.
  { rewrite pass_app_record. repeat constructor. intros i v Hi.
    unfold byteCols in Hi. rewrite !elem_of_cons, elem_of_nil in Hi.
    destruct Hi as [->|[->|[->|[->|[->|[]]]]]]; vm_compute; intros [= <-]; by eexists. }
  assert (∀ q, is_Some (prettyBytes (VNum (Fin q)))) as Hpb by (intros q; by eexists).
  split; [exact Hok|]. split; [exact Hpb|].
  exact (X12_summary_prints production (trackFiles pass_app []) Hok Hpb).
Defined.

Lemma X13_witness :
  [Some (VStr "app.js"); Some (VNum NaN)] ∈ tableData_of [("app.js", [Some (VNum NaN)])]
  ∧ (1%nat ∈ byteCols)
  ∧ prettyBytes (VNum NaN) = None
  ∧ printJsSummary develop [("app.js", [Some (VNum NaN)])]
    = mkPrinted TypeError [("app.js", [Some (VStr "app.js"); Some (VNum NaN)])]
                          [("app.js", [Some (VStr "app.js"); Some (VNum NaN)])].
Proof.
  assert ([Some (VStr "app.js"); Some (VNum NaN)]
          ∈ tableData_of [("app.js", [Some (VNum NaN)])]) as Hx by (left).
  assert (1%nat ∈ byteCols) as Hi by (left).
  split_and!; [exact Hx|exact Hi|reflexivity|].
  exact (X13_summary_throws_and_keeps_the_tracker develop
           [("app.js", [Some (VNum NaN)])] _ 1%nat (VNum NaN) Hx Hi eq_refl eq_refl).
Defined.


Lemma X15_witness :
  Forall (has_key 1) [[Some (VStr "b.js"); Some (VNum (Fin 1))];
                      [Some (VStr "a.js"); Some (VNum (Fin 1))]]
  ∧ filter (λ r, sort_key 1 r = 1)
           (sort (compareFn 1) [[Some (VStr "b.js"); Some (VNum (Fin 1))];
                                [Some (VStr "a.js"); Some (VNum (Fin 1))]])
    = [[Some (VStr "b.js"); Some (VNum (Fin 1))];
       [Some (VStr "a.js"); Some (VNum (Fin 1))]].
Proof.
  assert (Forall (has_key 1) [[Some (VStr "b.js"); Some (VNum (Fin 1))];
                              [Some (VStr "a.js"); Some (VNum (Fin 1))]]) as Hkeys
    by (repeat constructor; by eexists).
  split; [exact Hkeys|].
  rewrite (X15_sort_is_stable 1 1 _ Hkeys). reflexivity.
Defined.

Lemma X16_witness :
  bytes_ok [[Some (VStr "a.js"); Some (VNum (Fin 1))];
            [Some (VStr "b.js"); Some (VNum (Fin 1)); None; Some (VNum (Fin 1))]]
  ∧ ∃ sumRow sumRow',
      totals develop [[Some (VStr "a.js"); Some (VNum (Fin 1))];
                      [Some (VStr "b.js"); Some (VNum (Fin 1)); None; Some (VNum (Fin 1))]]
      = Ok ([[Some (VStr "a.js"); Some (VNum (Fin 1))];
             [Some (VStr "b.js"); Some (VNum (Fin 1)); None; Some (VNum (Fin 1))]],
            sumRow)
      ∧ totals develop [[Some (VStr "b.js"); Some (VNum (Fin 1)); None; Some (VNum (Fin 1))];
                        [Some (VStr "a.js"); Some (VNum (Fin 1))]]
        = Ok ([[Some (VStr "b.js"); Some (VNum (Fin 1)); None; Some (VNum (Fin 1))];
               [Some (VStr "a.js"); Some (VNum (Fin 1))]],
              sumRow')
      ∧ ∀ j, cell sumRow j = cell sumRow' j.
Proof.
  assert (bytes_ok
            [[Some (VStr "a.js"); Some (VNum (Fin 1))];
             [Some (VStr "b.js"); Some (VNum (Fin 1)); None; Some (VNum (Fin 1))]])
    as Hok.
  { constructor; [|constructor; [|constructor]]; intros i v Hi;
      unfold byteCols in Hi; rewrite !elem_of_cons, elem_of_nil in Hi;
      destruct Hi as [->|[->|[->|[->|[->|[]]]]]]; vm_compute; intros [= <-]; by eexists. }
  split; [exact Hok|].
  exact (X16_totals_do_not_depend_on_the_order develop _ _ Hok (perm_swap _ _ _)).
Defined.



Lemma X19_witness :
  Forall task_call pass_app_map
  ∧ Forall own_key pass_app_map
  ∧ (∀ q, is_Some (prettyBytes (VNum (Fin q))))
  ∧ (∀ k, k ∈ Object_prototype → obj_get (trackFiles pass_app_map []) k = None)
  ∧ ∃ t, printJsSummary production (trackFiles pass_app_map [])
         = mkPrinted (Ok t) (unshifted (trackFiles pass_app_map [])) [].
Proof.
  assert (Forall task_call pass_app_map) as Hcalls.
  { repeat (apply Forall_cons_2; [split_and!; [reflexivity..|compute_done]|]).
    apply Forall_nil_2. }
  assert (Forall own_key pass_app_map) as Hkeys.
  { repeat (apply Forall_cons_2; [unfold own_key; compute_done|]).
    apply Forall_nil_2. }
  assert (∀ q, is_Some (prettyBytes (VNum (Fin q)))) as Hpb by (intros q; by eexists).
  split; [exact Hcalls|]. split; [exact Hkeys|]. split; [exact Hpb|].
  exact (X19_summary_of_a_pass_prints production pass_app_map Hcalls Hkeys Hpb).
Defined.

Lemma X20_witness :
  ∃ r,
    mergeConf (CObj (CONF_of (Argv (Some [CStr "production"]) [("gzip", CStr "false")])
                             (CStr "v1.2.4")))
              (CObj CONF_PRODUCTION) = Ok r
    ∧ ∃ own', r = CObj own'
              ∧ own'.*1 = ["TASK"; "TAG"; "JS"; "CSS"; "GZIP"; "BROTLI"; "DEBUG"].
Proof.
  assert (∃ r, mergeConf
                 (CObj (CONF_of (Argv (Some [CStr "production"]) [("gzip", CStr "false")])
                                (CStr "v1.2.4")))
                 (CObj CONF_PRODUCTION) = Ok r) as [r Hr] by (vm_compute; by eexists).
  exists r. split; [exact Hr|].
  exact (X20_mergeConf_keeps_the_keys _ _ _ Hr).
Defined.

Lemma X21_witness :
  ∃ r,
    mergeConf (CObj (CONF_of (Argv (Some [CStr "production"]) [("gzip", CStr "false")])
                             (CStr "v1.2.4")))
              (CObj CONF_PRODUCTION) = Ok (CObj r)
    ∧ prop_get r "GZIP" = Some (CBool false)
    ∧ prop_get r "BROTLI" = Some (CBool true)
    ∧ prop_get r "DEBUG" = Some (CBool false).
Proof.
  assert (∃ r, mergeConf
                 (CObj (CONF_of (Argv (Some [CStr "production"]) [("gzip", CStr "false")])
                                (CStr "v1.2.4")))
                 (CObj CONF_PRODUCTION) = Ok (CObj r)) as [r Hr]
    by (vm_compute; by eexists).
  exists r. split; [exact Hr|]. split_and!.
  - destruct (X21_mergeConf_properties _ _ _ "GZIP" Hr) as (_ & _ & Hkept & _).
    by apply Hkept.
  - destruct (X21_mergeConf_properties _ _ _ "BROTLI" Hr) as (_ & _ & _ & Hfilled & _).
    by apply Hfilled.
  - destruct (X21_mergeConf_properties _ _ _ "DEBUG" Hr) as (_ & Hrest & _).
    by rewrite Hrest.
Defined.

Lemma X22_witness :
  null_free (CObj CONF_DEVELOP) = true
  ∧ plain (CObj CONF_DEVELOP) = true
  ∧ plain (CObj [("JS", CNull); ("GZIP", CUndef)]) = true
  ∧ ∃ r, mergeConf (CObj [("JS", CNull); ("GZIP", CUndef)]) (CObj CONF_DEVELOP) = Ok r.
Proof.
  assert (null_free (CObj CONF_DEVELOP) = true) as H by reflexivity.
  assert (plain (CObj CONF_DEVELOP) = true) as Hd by reflexivity.
  assert (plain (CObj [("JS", CNull); ("GZIP", CUndef)]) = true) as Hu by reflexivity.
  split; [exact H|]. split; [exact Hd|]. split; [exact Hu|].
  exact (X22_mergeConf_returns (CObj [("JS", CNull); ("GZIP", CUndef)]) CONF_DEVELOP
           H Hd Hu).
Defined.

Lemma X23_witness :
  prop_get [("JS", CObj [("UGLIFY", CBool true)])] "JS"
  = Some (CObj [("UGLIFY", CBool true)])
  ∧ prop_get [("JS", CNull)] "JS" = Some CNull
  ∧ mergeConf (CObj [("JS", CObj [("UGLIFY", CBool true)])]) (CObj [("JS", CNull)])
    = TypeError.
Proof.
  split; [reflexivity|]. split; [reflexivity|].
  exact (X23_mergeConf_throws [("JS", CObj [("UGLIFY", CBool true)])] [("JS", CNull)]
           "JS" ("UGLIFY", CBool true) [] eq_refl eq_refl).
Defined.

Lemma X24_witness :
  distinct_keys (CObj CONF_PRODUCTION)
  ∧ plain (CObj CONF_PRODUCTION) = true
  ∧ ∃ r,
      mergeConf (CObj (CONF_of (Argv None []) CUndef)) (CObj CONF_PRODUCTION) = Ok r
      ∧ mergeConf r (CObj CONF_PRODUCTION) = Ok r.
Proof.
  assert (distinct_keys (CObj CONF_PRODUCTION)) as Hd.
  { cbn. split_and!; try done; compute_done. }
  assert (plain (CObj CONF_PRODUCTION) = true) as Hp by reflexivity.
  split; [exact Hd|]. split; [exact Hp|].
  assert (∃ r, mergeConf (CObj (CONF_of (Argv None []) CUndef)) (CObj CONF_PRODUCTION)
               = Ok r) as [r Hr] by (vm_compute; by eexists).
  exists r. split; [exact Hr|].
  exact (X24_mergeConf_idempotent _ _ _ Hd Hp Hr).
Defined.

Lemma X25_witness :
  prop_get [("gzip", CStr "false"); ("brotli", CBool true)] "hasOwnProperty" = None
  ∧ ∃ init conf,
      CONF_init (Argv (Some [CStr "production"])
                      [("gzip", CStr "false"); ("brotli", CBool true)])
                (CStr "v1.2.4") = Ok init
      ∧ configProduction (CObj init) = Ok conf
      ∧ switches conf = Ok (CONF true true false false).
Proof.
  assert (prop_get [("gzip", CStr "false"); ("brotli", CBool true)] "hasOwnProperty"
          = None) as Hnone by reflexivity.
  split; [exact Hnone|].
  destruct (X25_config_switches
              (Argv (Some [CStr "production"])
                    [("gzip", CStr "false"); ("brotli", CBool true)])
              (CStr "v1.2.4") Hnone) as (init & Hinit & (conf & Hconf & Hsw) & _).
  exists init, conf. split; [exact Hinit|]. split; [exact Hconf|]. exact Hsw.
Defined.

Lemma X26_witness :
  prop_get [("tag", CStr EmptyString)] "hasOwnProperty" = None
  ∧ ∃ init conf,
      CONF_init (Argv (Some [CStr "default"]) [("tag", CStr EmptyString)]) CUndef = Ok init
      ∧ configDevelop (CObj init) = Ok conf
      ∧ prop_read conf "TAG" = Ok CUndef
      ∧ checkConfig conf = Ok true.
Proof.
  assert (prop_get [("tag", CStr EmptyString)] "hasOwnProperty" = None) as Hnone
    by reflexivity.
  split; [exact Hnone|].
  destruct (X26_config_tag (Argv (Some [CStr "default"]) [("tag", CStr EmptyString)])
              CUndef Hnone) as (init & Hinit & _ & (conf & Hconf & Htag & Hexit)).
  exists init, conf. split; [exact Hinit|]. split; [exact Hconf|].
  split; [exact Htag|]. exact Hexit.
Defined.

Lemma X27_witness :
  NoDup (foldl (λ cache included, onModuleBundleComplete included cache) []
               [["js/app.js"; "js/lib/text.js"]; ["js/lib/text.js"; "js/app/login.js"]]).
Proof.
  exact (proj1 (X27_cache_holds_each_bundled_file_once
                  [["js/app.js"; "js/lib/text.js"];
                   ["js/lib/text.js"; "js/app/login.js"]])).
Defined.

Lemma X28_witness :
  NoDup ["js/app.js"; "js/lib/text.js"]
  ∧ ∃ added,
      onModuleBundleComplete ["js/lib/text.js"; "js/app/login.js"; "js/app/login.js"]
                             ["js/app.js"; "js/lib/text.js"]
      = ["js/app.js"; "js/lib/text.js"] ++ added
      ∧ NoDup added
      ∧ ∀ x, x ∈ added
             ↔ x ∈ ["js/lib/text.js"; "js/app/login.js"; "js/app/login.js"]
               ∧ x ∉ ["js/app.js"; "js/lib/text.js"].
Proof.
  assert (NoDup ["js/app.js"; "js/lib/text.js"]) as H by compute_done.
  split; [exact H|].
  exact (X28_cache_grows_at_the_end _ _ H).
Defined.

Lemma X29_witness :
  diffJS_filter (λ path, path)
                (foldl (λ cache included, onModuleBundleComplete included cache) []
                       [["js/app.js"; "js/lib/text.js"]])
                "js/lib/text.js"
  = false.
Proof.
  apply (proj2 (X29_diffJS_skips_the_bundled_files (λ path, path)
                  [["js/app.js"; "js/lib/text.js"]] "js/lib/text.js")).
  exists ["js/app.js"; "js/lib/text.js"]. split; [left|right; left].
Defined.
